(** * nextjs-rag: chunker, embedding client, vector store, indexer, query

    A shallow embedding of the TypeScript sources
    ([chunker.ts], [embedder.ts], [vectorstore.ts], [indexer.ts],
    [query.ts]) together with the properties of the design document that
    can be decided on them. *)

From Stdlib Require Import String Ascii DecimalString.
From Stdlib Require Import List Arith Bool NArith ZArith Lia.
From Stdlib Require Import Permutation Sorted.
Import ListNotations.

Set Implicit Arguments.

(** ** JavaScript strings

    A JavaScript string is a sequence of UTF-16 code units; [length],
    [slice] and the regular-expression class [\s] all work on code
    units. *)

Definition jsstring := list N.

(** A string literal with code points below 256. *)
Definition lit (s : string) : jsstring :=
  map N_of_ascii (list_ascii_of_string s).

Fixpoint str_eqb (a b : jsstring) : bool :=
  match a, b with
  | [], [] => true
  | x :: a', y :: b' => N.eqb x y && str_eqb a' b'
  | _, _ => false
  end.

(** JavaScript truthiness of a string: the empty string is falsy. *)
Definition truthy (s : jsstring) : bool :=
  match s with [] => false | _ :: _ => true end.

(** [s.slice(start, end)], of a string or of an array, for [0 <= start]
    and [0 <= end]. *)
Definition slice {A} (start end_ : nat) (s : list A) : list A :=
  firstn (end_ - start) (skipn start s).

(** [s.slice(-n)] for [n > 0]: the last [n] code units, the whole string
    when it is shorter. *)
Definition slice_last (n : nat) (s : jsstring) : jsstring :=
  skipn (length s - n) s.

(** [a.startsWith(p)]. *)
Fixpoint starts_with (p s : jsstring) : bool :=
  match p, s with
  | [], _ => true
  | x :: p', y :: s' => N.eqb x y && starts_with p' s'
  | _ :: _, [] => false
  end.

(** [parts.join(sep)]. *)
Fixpoint join (sep : jsstring) (parts : list jsstring) : jsstring :=
  match parts with
  | [] => []
  | [p] => p
  | p :: rest => p ++ sep ++ join sep rest
  end.

(** Decimal rendering of a non-negative integer, as [String(n)] and
    template literals do. *)
Definition Number_toString (n : nat) : jsstring :=
  lit (NilZero.string_of_uint (Nat.to_uint n)).

Module Chunker.

(** The ECMAScript WhiteSpace and LineTerminator code units: the class
    [\s] of regular expressions and the characters removed by
    [String.prototype.trim]. *)
Definition is_space (c : N) : bool :=
  (N.eqb c 9 || N.eqb c 10 || N.eqb c 11 || N.eqb c 12 || N.eqb c 13
   || N.eqb c 32 || N.eqb c 160 || N.eqb c 5760
   || (N.leb 8192 c && N.leb c 8202)
   || N.eqb c 8232 || N.eqb c 8233 || N.eqb c 8239 || N.eqb c 8287
   || N.eqb c 12288 || N.eqb c 65279)%bool.

(** The class [[.!?]] of the sentence-boundary look-behind. *)
Definition is_terminator (c : N) : bool :=
  (N.eqb c 46 || N.eqb c 33 || N.eqb c 63)%bool.

(** [text.replace(/\r\n/g, '\n')]. *)
Fixpoint replace_crlf (s : jsstring) : jsstring :=
  match s with
  | [] => []
  | c :: rest =>
      match rest with
      | d :: rest' =>
          if (N.eqb c 13 && N.eqb d 10)%bool
          then 10%N :: replace_crlf rest'
          else c :: replace_crlf rest
      | [] => [c]
      end
  end.

(** [text.replace(/\r/g, '\n')]. *)
Definition replace_cr (s : jsstring) : jsstring :=
  map (fun c => if N.eqb c 13 then 10%N else c) s.

Definition normalize (text : jsstring) : jsstring :=
  replace_cr (replace_crlf text).

Fixpoint trimStart (s : jsstring) : jsstring :=
  match s with
  | [] => []
  | c :: rest => if is_space c then trimStart rest else s
  end.

Definition trimEnd (s : jsstring) : jsstring :=
  rev (trimStart (rev s)).

Definition trim (s : jsstring) : jsstring := trimEnd (trimStart s).

(** Where the scan of [text.split(/(?<=[.!?])\s+/)] stands: the previous
    code unit was a terminator ([AfterTerminator]), the scan is inside
    the whitespace run of a match ([InSeparator]), or neither. *)
Inductive scan := Plain | AfterTerminator | InSeparator.

(** [split_scan m piece s]: [piece] is the current piece, reversed. A
    match of the separator starts at a whitespace code unit that follows
    a terminator and takes the whole whitespace run; the piece before it
    is closed and the run is dropped. *)
Fixpoint split_scan (m : scan) (piece : jsstring) (s : jsstring)
  : list jsstring :=
  match s with
  | [] => [rev piece]
  | c :: rest =>
      if is_space c then
        match m with
        | AfterTerminator => rev piece :: split_scan InSeparator [] rest
        | InSeparator => split_scan InSeparator piece rest
        | Plain => split_scan Plain (c :: piece) rest
        end
      else
        split_scan (if is_terminator c then AfterTerminator else Plain)
                   (c :: piece) rest
  end.

Definition split_sentences (text : jsstring) : list jsstring :=
  split_scan Plain [] text.

(** The [while] loop of [splitByCharacter]. [None] is a loop that has
    not ended within [fuel] iterations. *)
Fixpoint splitByCharacter_loop (fuel : nat) (text : jsstring)
         (chunkSize overlap start : nat) : option (list jsstring) :=
  match fuel with
  | 0 => None
  | S fuel' =>
      if start <? length text then
        let end_ := Nat.min (start + chunkSize) (length text) in
        match splitByCharacter_loop fuel' text chunkSize overlap
                                    (start + (chunkSize - overlap)) with
        | Some chunks => Some (slice start end_ text :: chunks)
        | None => None
        end
      else Some []
  end.

(** With a stride [chunkSize - overlap] of at least one the loop ends
    within [length text] iterations; with [overlap >= chunkSize] it never
    ends, which is [None] here. *)
Definition splitByCharacter (text : jsstring) (chunkSize overlap : nat)
  : option (list jsstring) :=
  splitByCharacter_loop (S (length text)) text chunkSize overlap 0.

(** [if (currentChunk) chunks.push(currentChunk.trim())]. *)
Definition flush (chunks : list jsstring) (currentChunk : jsstring)
  : list jsstring :=
  if truthy currentChunk then chunks ++ [trim currentChunk] else chunks.

(** The body of [for (const sentence of sentences)], on the pair
    [(chunks, currentChunk)]. *)
Fixpoint chunk_loop (chunkSize chunkOverlap : nat)
         (sentences : list jsstring)
         (chunks : list jsstring) (currentChunk : jsstring)
  : option (list jsstring * jsstring) :=
  match sentences with
  | [] => Some (chunks, currentChunk)
  | sentence :: rest =>
      if chunkSize <? length sentence then
        match splitByCharacter sentence chunkSize chunkOverlap with
        | Some parts =>
            chunk_loop chunkSize chunkOverlap rest
                       (flush chunks currentChunk ++ parts) []
        | None => None
        end
      else if chunkSize <? length currentChunk + length sentence then
        let chunks' := flush chunks currentChunk in
        let currentChunk' :=
          if ((0 <? length chunks') && (0 <? chunkOverlap))%bool then
            slice_last chunkOverlap (last chunks' []) ++ [32%N] ++ sentence
          else sentence in
        chunk_loop chunkSize chunkOverlap rest chunks' currentChunk'
      else
        chunk_loop chunkSize chunkOverlap rest chunks
                   (currentChunk
                      ++ (if truthy currentChunk then [32%N] else [])
                      ++ sentence)
  end.

Definition chunkText (text : jsstring) (chunkSize chunkOverlap : nat)
  : option (list jsstring) :=
  match chunk_loop chunkSize chunkOverlap
                   (split_sentences (normalize text)) [] [] with
  | Some (chunks, currentChunk) =>
      let chunks' :=
        if truthy (trim currentChunk)
        then chunks ++ [trim currentChunk] else chunks in
      Some (filter (fun chunk => 0 <? length chunk) chunks')
  | None => None
  end.

(** *** The same loop, with the origin of every chunk

    [Accumulated]: pushed from [currentChunk] (the sentence-boundary
    path); [CharSplit]: a piece of [splitByCharacter]. *)
Inductive origin := Accumulated | CharSplit.

Definition flush_prov (chunks : list (origin * jsstring))
           (currentChunk : jsstring) : list (origin * jsstring) :=
  if truthy currentChunk
  then chunks ++ [(Accumulated, trim currentChunk)] else chunks.

Fixpoint chunk_loop_prov (chunkSize chunkOverlap : nat)
         (sentences : list jsstring)
         (chunks : list (origin * jsstring)) (currentChunk : jsstring)
  : option (list (origin * jsstring) * jsstring) :=
  match sentences with
  | [] => Some (chunks, currentChunk)
  | sentence :: rest =>
      if chunkSize <? length sentence then
        match splitByCharacter sentence chunkSize chunkOverlap with
        | Some parts =>
            chunk_loop_prov chunkSize chunkOverlap rest
              (flush_prov chunks currentChunk
                 ++ map (pair CharSplit) parts) []
        | None => None
        end
      else if chunkSize <? length currentChunk + length sentence then
        let chunks' := flush_prov chunks currentChunk in
        let currentChunk' :=
          if ((0 <? length chunks') && (0 <? chunkOverlap))%bool then
            slice_last chunkOverlap (last (map snd chunks') [])
                       ++ [32%N] ++ sentence
          else sentence in
        chunk_loop_prov chunkSize chunkOverlap rest chunks' currentChunk'
      else
        chunk_loop_prov chunkSize chunkOverlap rest chunks
                        (currentChunk
                           ++ (if truthy currentChunk then [32%N] else [])
                           ++ sentence)
  end.

Definition chunkText_prov (text : jsstring) (chunkSize chunkOverlap : nat)
  : option (list (origin * jsstring)) :=
  match chunk_loop_prov chunkSize chunkOverlap
                        (split_sentences (normalize text)) [] [] with
  | Some (chunks, currentChunk) =>
      let chunks' :=
        if truthy (trim currentChunk)
        then chunks ++ [(Accumulated, trim currentChunk)] else chunks in
      Some (filter (fun chunk => 0 <? length (snd chunk)) chunks')
  | None => None
  end.

End Chunker.

(** ** Collaborators

    What the sources call into and do not define: the number type of
    [Float32Array] entries and of SQL [REAL] values, the distance function
    of the sqlite-vec extension, the comparison SQLite sorts [REAL] values
    with, and the digest of [crypto.createHash('md5')]. *)

Class Backend := {
  float : Type;
  (** [new Float32Array(numbers)]: each number rounded to single precision. *)
  fround : float -> float;
  (** [vec_distance_cosine(a, b)] of sqlite-vec. *)
  vec_distance_cosine : list float -> list float -> float;
  (** [1 - x] on JavaScript numbers. *)
  one_minus : float -> float;
  (** The order of [ORDER BY ... ASC], a total preorder on SQL values. *)
  sql_leb : float -> float -> bool;
  sql_leb_total : forall x y, sql_leb x y = true \/ sql_leb y x = true;
  sql_leb_trans : forall x y z,
      sql_leb x y = true -> sql_leb y z = true -> sql_leb x z = true;
  (** The rows of [ORDER BY key ASC], as the engine gives them: the same
      rows, by ascending key; rows of equal key come in the order the
      engine chooses, which no clause of the statement fixes. *)
  sql_order_by : forall A : Type, (A -> float) -> list A -> list A;
  sql_order_by_perm : forall (A : Type) (key : A -> float) (l : list A),
      Permutation (sql_order_by key l) l;
  sql_order_by_sorted : forall (A : Type) (key : A -> float) (l : list A),
      StronglySorted (fun a b => sql_leb (key a) (key b) = true)
                     (sql_order_by key l);
  (** The values of [SELECT DISTINCT], as the engine gives them: each
      value once, in the order of the index or the scan it chooses. *)
  sql_distinct : list jsstring -> list jsstring;
  sql_distinct_NoDup : forall l, NoDup (sql_distinct l);
  sql_distinct_In : forall l x, In x (sql_distinct l) <-> In x l;
  (** [crypto.createHash('md5').update(content).digest('hex')]. *)
  md5_hex : jsstring -> jsstring
}.

(** ** Outcomes of a call

    A call returns, throws (a rejected promise is a throw at its [await]),
    or never comes back. *)

Inductive error :=
| ConfigError      (* getConfig: no API key *)
| ApiError         (* the embeddings endpoint rejected the request *)
| SqliteError      (* a statement was refused by the database *)
| FsError.         (* a file could not be read *)

Inductive outcome (A : Type) :=
| Return (a : A)
| Throw (e : error)
| Hang.
Arguments Throw {A} e.
Arguments Hang {A}.

Definition obind {A B} (m : outcome A) (k : A -> outcome B) : outcome B :=
  match m with
  | Return a => k a
  | Throw e => Throw e
  | Hang => Hang
  end.

Notation "'let!' x ':=' m 'in' k" := (obind m (fun x => k))
  (at level 10, x pattern, m at level 100, k at level 200).

(** ** Configuration ([types.ts], [config.ts]) *)

Record RagConfig := {
  apiKey : jsstring;
  embeddingModel : jsstring;
  chunkSize : nat;
  chunkOverlap : nat;
  topK : nat
}.

Module Config.
(** [getConfig()], applied to the merge [{...DEFAULT_CONFIG,
    ...userConfig}]. *)
Definition getConfig (merged : RagConfig) : outcome RagConfig :=
  if truthy (apiKey merged) then Return merged else Throw ConfigError.
End Config.

(** ** Embedding client ([embedder.ts]) *)

Module Embedder.
Section WithApi.
Context {B : Backend}.

(** [client.embeddings.create({model, input})]: the [embedding] arrays of
    [response.data], or a rejection. *)
Variable embeddings_create
  : jsstring -> list jsstring -> outcome (list (list float)).

Variable merged : RagConfig.

Definition getEmbeddingDimension (model : jsstring) : nat :=
  if str_eqb model (lit "text-embedding-3-small") then 1536
  else if str_eqb model (lit "text-embedding-3-large") then 3072
  else if str_eqb model (lit "text-embedding-ada-002") then 1536
  else 1536.

(** [for (let i = 0; i < texts.length; i += BATCH_SIZE)], with the
    embeddings collected so far. *)
Fixpoint generateEmbeddings_loop (fuel : nat) (BATCH_SIZE : nat)
         (embeddingModel : jsstring) (texts : list jsstring) (i : nat)
         (allEmbeddings : list (list float))
  : outcome (list (list float)) :=
  match fuel with
  | 0 => Hang
  | S fuel' =>
      if i <? length texts then
        let batch := slice i (i + BATCH_SIZE) texts in
        let! data := embeddings_create embeddingModel batch in
        let batchEmbeddings := map (map fround) data in
        generateEmbeddings_loop fuel' BATCH_SIZE embeddingModel texts
                                (i + BATCH_SIZE)
                                (allEmbeddings ++ batchEmbeddings)
      else Return allEmbeddings
  end.

Definition BATCH_SIZE : nat := 100.

Definition generateEmbeddings (texts : list jsstring)
           (model : option jsstring) : outcome (list (list float)) :=
  let! config := Config.getConfig merged in
  let embeddingModel :=
    match model with
    | Some m => if truthy m then m else embeddingModel config
    | None => embeddingModel config
    end in
  generateEmbeddings_loop (S (length texts)) BATCH_SIZE embeddingModel
                          texts 0 [].

(** [embeddings[0]] of an empty array is [undefined]. *)
Definition generateEmbedding (text : jsstring) (model : option jsstring)
  : outcome (option (list float)) :=
  let! embeddings := generateEmbeddings [text] model in
  Return (nth_error embeddings 0).

End WithApi.
End Embedder.

(** ** Vector store ([vectorstore.ts]) *)

Module VectorStore.
Section WithBackend.
Context {B : Backend}.

(** A row of table [chunks]. *)
Record ChunkRow := {
  id : nat;
  file_path : jsstring;
  content : jsstring;
  hash : jsstring;
  vec_rowid : option nat;
  created_at : nat
}.

(** A row of the virtual table [vec_chunks]. *)
Record VecRow := {
  rowid : nat;
  embedding : list float
}.

(** The database file: both tables in rowid order, the largest rowid
    that each table has given out as the file records it (the
    AUTOINCREMENT counter of [chunks] and the rowid counter of the vec0
    table, neither of which gives a deleted rowid again) and the length
    declared for the column [embedding FLOAT[dimension]]. *)
Record Database := {
  dimension : nat;
  chunks : list ChunkRow;
  chunks_seq : nat;
  vec_chunks : list VecRow;
  vec_seq : nat
}.

(** [DocumentChunk] of [types.ts] ([id] and [metadata] are never read). *)
Record DocumentChunk := {
  filePath : jsstring;
  chunk_content : jsstring;
  chunk_hash : jsstring;
  chunk_embedding : option (list float)
}.

(** [ContextChunk] of [types.ts]. *)
Record ContextChunk := {
  ctx_content : jsstring;
  ctx_filePath : jsstring;
  similarity : float
}.

(** A better-sqlite3 connection: the database as this connection sees
    it, the snapshots it has committed (newest first) which are what any
    other reader of the file can see, whether a transaction is open, and
    the readings [Date.now()] will give. *)
Record Conn := {
  db : Database;
  committed : list Database;
  in_transaction : bool;
  clock : nat -> nat;
  ticks : nat
}.

Definition DB (A : Type) := Conn -> Conn * outcome A.

Definition ret {A} (a : A) : DB A := fun c => (c, Return a).

Definition bind {A C} (m : DB A) (k : A -> DB C) : DB C :=
  fun c =>
    match m c with
    | (c', Return a) => k a c'
    | (c', Throw e) => (c', Throw e)
    | (c', Hang) => (c', Hang)
    end.

Definition lift {A} (o : outcome A) : DB A := fun c => (c, o).

Definition with_db (c : Conn) (d : Database) (log : list Database)
  : Conn :=
  {| db := d; committed := log; in_transaction := in_transaction c;
     clock := clock c; ticks := ticks c |}.

(** A statement run with [.run()]: refused statements change nothing;
    outside a transaction an accepted statement is committed at once. *)
Definition exec {A} (stmt : Database -> error + Database * A) : DB A :=
  fun c =>
    match stmt (db c) with
    | inl e => (c, Throw e)
    | inr (d, a) =>
        (with_db c d (if in_transaction c then committed c
                      else d :: committed c),
         Return a)
    end.

(** A statement run with [.get()] or [.all()]. *)
Definition query {A} (q : Database -> A) : DB A :=
  fun c => (c, Return (q (db c))).

(** A statement run with [.all()] that the engine may refuse. *)
Definition select {A} (q : Database -> error + A) : DB A :=
  fun c =>
    match q (db c) with
    | inl e => (c, Throw e)
    | inr a => (c, Return a)
    end.

(** [db.transaction(fn)(args)]: BEGIN, the body, then COMMIT; when the
    body throws, ROLLBACK and the exception is thrown again. Inside an
    open transaction it is a savepoint: released without a commit, or
    rolled back to. *)
Definition transaction {A} (body : DB A) : DB A :=
  fun c =>
    let outer := in_transaction c in
    let c0 := {| db := db c; committed := committed c;
                 in_transaction := true;
                 clock := clock c; ticks := ticks c |} in
    match body c0 with
    | (c', Return a) =>
        ({| db := db c';
            committed := if outer then committed c
                         else db c' :: committed c;
            in_transaction := outer;
            clock := clock c'; ticks := ticks c' |}, Return a)
    | (c', o) =>
        ({| db := db c; committed := committed c;
            in_transaction := outer;
            clock := clock c'; ticks := ticks c' |}, o)
    end.

Definition Date_now : DB nat :=
  fun c =>
    ({| db := db c; committed := committed c;
        in_transaction := in_transaction c;
        clock := clock c; ticks := S (ticks c) |},
     Return (clock c (ticks c))).

(** [new VectorStore(dbPath)] on a database file with contents [d]. *)
Definition connect (d : Database) (time : nat -> nat) : Conn :=
  {| db := d; committed := []; in_transaction := false;
     clock := time; ticks := 0 |}.

Notation "x <- m ;; k" := (bind m (fun x => k))
  (at level 61, m at next level, right associativity).
Notation "m ;;; k" := (bind m (fun _ => k))
  (at level 61, right associativity).

(** [for (const x of xs) body(x)]. *)
Fixpoint for_each {A} (xs : list A) (body : A -> DB unit) : DB unit :=
  match xs with
  | [] => ret tt
  | x :: rest => body x ;;; for_each rest body
  end.

(** *** Statements *)

(** [CREATE TABLE IF NOT EXISTS] on a new file. *)
Definition initTables (dim : nat) : Database :=
  {| dimension := dim; chunks := []; chunks_seq := 0; vec_chunks := [];
     vec_seq := 0 |}.

(** The rowid that [vec_chunks] gives to a row inserted without one:
    one more than the largest it holds or has given out. *)
Definition next_rowid (d : Database) : nat :=
  S (Nat.max (vec_seq d) (list_max (map rowid (vec_chunks d)))).

(** [INSERT INTO vec_chunks (embedding) VALUES (?)]: vec0 refuses a
    vector whose length is not the declared one. The value is
    [lastInsertRowid]. *)
Definition insert_vec (e : list float) (d : Database)
  : error + Database * nat :=
  if length e =? dimension d then
    let r := next_rowid d in
    inr ({| dimension := dimension d; chunks := chunks d;
            chunks_seq := chunks_seq d;
            vec_chunks := vec_chunks d
                            ++ [{| rowid := r; embedding := e |}];
            vec_seq := r |}, r)
  else inl SqliteError.

Definition same_key (f h : jsstring) (row : ChunkRow) : bool :=
  str_eqb (file_path row) f && str_eqb (hash row) h.

(** [INSERT OR REPLACE INTO chunks (file_path, content, hash, vec_rowid,
    created_at) VALUES (?, ?, ?, ?, ?)]: the row that holds the same
    [(file_path, hash)] is deleted, then the new row is inserted under a
    new AUTOINCREMENT id. The value is [lastInsertRowid]. *)
Definition insert_or_replace_chunk (f c h : jsstring) (v : option nat)
           (now : nat) (d : Database) : error + Database * nat :=
  let i := S (Nat.max (chunks_seq d) (list_max (map id (chunks d)))) in
  inr ({| dimension := dimension d;
          chunks := filter (fun row => negb (same_key f h row)) (chunks d)
                      ++ [{| id := i; file_path := f; content := c;
                             hash := h; vec_rowid := v;
                             created_at := now |}];
          chunks_seq := i;
          vec_chunks := vec_chunks d;
          vec_seq := vec_seq d |}, i).

(** [DELETE FROM vec_chunks WHERE rowid = ?]. *)
Definition delete_vec (r : nat) (d : Database) : error + Database * unit :=
  inr ({| dimension := dimension d; chunks := chunks d;
          chunks_seq := chunks_seq d;
          vec_chunks := filter (fun v => negb (rowid v =? r))
                               (vec_chunks d);
          vec_seq := vec_seq d |}, tt).

(** [DELETE FROM chunks WHERE file_path = ?]. *)
Definition delete_chunks (f : jsstring) (d : Database)
  : error + Database * unit :=
  inr ({| dimension := dimension d;
          chunks := filter (fun row => negb (str_eqb (file_path row) f))
                           (chunks d);
          chunks_seq := chunks_seq d;
          vec_chunks := vec_chunks d;
          vec_seq := vec_seq d |}, tt).

(** [SELECT vec_rowid FROM chunks WHERE file_path = ? AND vec_rowid IS
    NOT NULL]. *)
Fixpoint select_vec_rowids (f : jsstring) (rows : list ChunkRow)
  : list nat :=
  match rows with
  | [] => []
  | row :: rest =>
      match vec_rowid row with
      | Some r => if str_eqb (file_path row) f
                  then r :: select_vec_rowids f rest
                  else select_vec_rowids f rest
      | None => select_vec_rowids f rest
      end
  end.

(** [SELECT COUNT( * ) FROM chunks WHERE file_path = ?]. *)
Definition count_by_file (f : jsstring) (d : Database) : nat :=
  length (filter (fun row => str_eqb (file_path row) f) (chunks d)).

(** [SELECT DISTINCT file_path FROM chunks]. *)
Definition select_distinct_files (d : Database) : list jsstring :=
  sql_distinct (map file_path (chunks d)).

(** A row of the search: [c.content, c.file_path, distance]. *)
Record SearchRow := {
  row_content : jsstring;
  row_file_path : jsstring;
  distance : float
}.

(** [FROM vec_chunks v JOIN chunks c ON v.rowid = c.vec_rowid]. *)
Definition references (v : VecRow) (c : ChunkRow) : bool :=
  match vec_rowid c with
  | Some r => r =? rowid v
  | None => false
  end.

Definition join_tables (d : Database) : list (VecRow * ChunkRow) :=
  flat_map (fun v => map (fun c => (v, c))
                         (filter (references v) (chunks d)))
           (vec_chunks d).

(** The row of the result for a joined pair and a query vector of the
    length of the pair's. *)
Definition search_row (q : list float) (vc : VecRow * ChunkRow)
  : SearchRow :=
  {| row_content := content (snd vc);
     row_file_path := file_path (snd vc);
     distance := vec_distance_cosine (embedding (fst vc)) q |}.

(** [vec_distance_cosine(v.embedding, ?)] on a joined pair: the function
    refuses a parameter that is NULL, as a bound [undefined] is, and a
    vector of another length than [v.embedding]. *)
Definition row_of (q : option (list float)) (vc : VecRow * ChunkRow)
  : error + SearchRow :=
  match q with
  | Some q =>
      if length (embedding (fst vc)) =? length q then inr (search_row q vc)
      else inl SqliteError
  | None => inl SqliteError
  end.

(** The result column [distance] over the join; the first refusal is
    the error of the statement. *)
Fixpoint rows_of (q : option (list float))
         (joined : list (VecRow * ChunkRow)) : error + list SearchRow :=
  match joined with
  | [] => inr []
  | vc :: rest =>
      match row_of q vc with
      | inl e => inl e
      | inr row =>
          match rows_of q rest with
          | inl e => inl e
          | inr rows => inr (row :: rows)
          end
      end
  end.

(** [ORDER BY distance ASC]. *)
Definition order_by_distance (l : list SearchRow) : list SearchRow :=
  sql_order_by distance l.

(** The statement of [similaritySearch]. With [LIMIT 0] no row is
    computed. *)
Definition select_nearest (q : option (list float)) (k : nat)
           (d : Database) : error + list SearchRow :=
  if k =? 0 then inr []
  else
    match rows_of q (join_tables d) with
    | inl e => inl e
    | inr rows => inr (firstn k (order_by_distance rows))
    end.

(** *** Methods of [class VectorStore] *)

Definition insertChunk (chunk : DocumentChunk) : DB nat :=
  now <- Date_now ;;
  vecRowId <- match chunk_embedding chunk with
              | Some e => r <- exec (insert_vec e) ;; ret (Some r)
              | None => ret None
              end ;;
  chunkId <- exec (insert_or_replace_chunk
                     (filePath chunk) (chunk_content chunk)
                     (chunk_hash chunk)
                     (* vecRowId || null *)
                     match vecRowId with
                     | Some 0 => None
                     | Some r => Some r
                     | None => None
                     end
                     now) ;;
  ret chunkId.

Definition insertChunks (chunks : list DocumentChunk) : DB unit :=
  transaction
    (for_each chunks (fun chunk => insertChunk chunk ;;; ret tt)).

Definition deleteChunksByFile (filePath : jsstring) : DB unit :=
  vecRowIds <- query (fun d => select_vec_rowids filePath (chunks d)) ;;
  transaction (for_each vecRowIds (fun id => exec (delete_vec id))) ;;;
  exec (delete_chunks filePath).

Definition fileExists (filePath : jsstring) : DB bool :=
  count <- query (count_by_file filePath) ;;
  ret (0 <? count).

Definition getAllFiles : DB (list jsstring) :=
  query select_distinct_files.

(** [queryEmbedding] is [None] when the caller passes [undefined]. *)
Definition similaritySearch (queryEmbedding : option (list float))
           (topK : nat) : DB (list ContextChunk) :=
  results <- select (select_nearest queryEmbedding topK) ;;
  ret (map (fun row =>
              {| ctx_content := row_content row;
                 ctx_filePath := row_file_path row;
                 similarity := one_minus (distance row) |})
           results).

Definition getChunkCount : DB nat :=
  query (fun d => length (chunks d)).

(** [close()] releases the handle; the database file stays as it is. *)
Definition close : DB unit := ret tt.

End WithBackend.

Module Notations.
Notation "x <- m ;; k" := (bind m (fun x => k))
  (at level 61, m at next level, right associativity).
Notation "m ;;; k" := (bind m (fun _ => k))
  (at level 61, right associativity).
End Notations.
End VectorStore.

(** ** JavaScript [Set] of strings, in insertion order *)

Module JsSet.
Definition has (s : list jsstring) (x : jsstring) : bool :=
  existsb (str_eqb x) s.

Definition add (s : list jsstring) (x : jsstring) : list jsstring :=
  if has s x then s else s ++ [x].

(** [new Set(iterable)]; the list is also what [[...set]] and
    [for (const x of set)] go through. *)
Definition of_list (l : list jsstring) : list jsstring :=
  fold_left add l [].
End JsSet.

(** [array.map((x, idx) => f(x, idx))]. *)
Fixpoint map_indexed_from {A C} (f : A -> nat -> C) (idx : nat)
         (l : list A) : list C :=
  match l with
  | [] => []
  | x :: rest => f x idx :: map_indexed_from f (S idx) rest
  end.

Definition map_indexed {A C} (f : A -> nat -> C) (l : list A) : list C :=
  map_indexed_from f 0 l.

(** ** Indexing pipeline ([indexer.ts]) *)

(** What the pipeline asks of [fs] and [path]: the files that
    [getAllFiles(directory, extensions, ignorePatterns)] finds, in
    discovery order, and the calls made on single paths. *)
Record FileSystem := {
  found_files : list jsstring;
  (** [path.relative(process.cwd(), p)] *)
  relative_to_cwd : jsstring -> jsstring;
  (** [path.join(process.cwd(), p)] *)
  join_cwd : jsstring -> jsstring;
  existsSync : jsstring -> bool;
  (** [fs.readFileSync(p, 'utf-8')] *)
  readFileSync : jsstring -> outcome jsstring
}.

Module Indexer.
Import VectorStore VectorStore.Notations.
Section WithCollaborators.
Context {B : Backend}.
Variable embeddings_create
  : jsstring -> list jsstring -> outcome (list (list float)).
Variable merged : RagConfig.
Variable fs : FileSystem.

Record IndexResult := {
  filesProcessed : nat;
  chunksCreated : nat
}.

Record ReindexResult := {
  re_filesProcessed : nat;
  filesUpdated : nat;
  re_chunksCreated : nat
}.

(** [fs.statSync(p)], whose value is not used. *)
Definition statSync (p : jsstring) : outcome unit :=
  if existsSync fs p then Return tt else Throw FsError.

(** [chunkText(content, {chunkSize, chunkOverlap})] as a call. *)
Definition call_chunkText (content : jsstring) (config : RagConfig)
  : outcome (list jsstring) :=
  match Chunker.chunkText content (chunkSize config)
                          (chunkOverlap config) with
  | Some chunks => Return chunks
  | None => Hang
  end.

(** The part of the loop body that both pipelines share, from "Read
    file content" to [insertChunks]. The value is [None] at
    [if (chunks.length === 0) continue], else [documentChunks.length]. *)
Definition chunk_embed_insert (config : RagConfig)
           (filePath relativePath : jsstring) : DB (option nat) :=
  content <- lift (readFileSync fs filePath) ;;
  chunks <- lift (call_chunkText content config) ;;
  if length chunks =? 0 then ret None
  else
    embeddings <- lift (Embedder.generateEmbeddings
                          embeddings_create merged chunks None) ;;
    let documentChunks :=
      map_indexed (fun chunk idx =>
                     {| filePath := relativePath;
                        chunk_content := chunk;
                        chunk_hash := md5_hex chunk;
                        chunk_embedding := nth_error embeddings idx |})
                  chunks in
    insertChunks documentChunks ;;;
    ret (Some (length documentChunks)).

(** [for (const filePath of files)] of [indexDocuments], on
    [totalChunks]. *)
Fixpoint index_loop (config : RagConfig) (files : list jsstring)
         (totalChunks : nat) : DB nat :=
  match files with
  | [] => ret totalChunks
  | filePath :: rest =>
      let relativePath := relative_to_cwd fs filePath in
      created <- chunk_embed_insert config filePath relativePath ;;
      match created with
      | None => index_loop config rest totalChunks
      | Some n => index_loop config rest (totalChunks + n)
      end
  end.

Definition indexDocuments : DB IndexResult :=
  config <- lift (Config.getConfig merged) ;;
  let files := found_files fs in
  totalChunks <- index_loop config files 0 ;;
  close ;;;
  ret {| filesProcessed := length files; chunksCreated := totalChunks |}.

(** [for (const existingFile of existingFiles)], on [filesUpdated]. *)
Fixpoint remove_deleted_loop (existingFiles : list jsstring)
         (filesUpdated : nat) : DB nat :=
  match existingFiles with
  | [] => ret filesUpdated
  | existingFile :: rest =>
      let fullPath := join_cwd fs existingFile in
      if negb (existsSync fs fullPath) then
        deleteChunksByFile existingFile ;;;
        remove_deleted_loop rest (S filesUpdated)
      else remove_deleted_loop rest filesUpdated
  end.

(** [for (const filePath of files)] of [reindexDocuments], on
    [(filesUpdated, totalChunks)]. *)
Fixpoint reindex_loop (config : RagConfig) (existingFiles : list jsstring)
         (files : list jsstring) (filesUpdated totalChunks : nat)
  : DB (nat * nat) :=
  match files with
  | [] => ret (filesUpdated, totalChunks)
  | filePath :: rest =>
      let relativePath := relative_to_cwd fs filePath in
      lift (statSync filePath) ;;;
      let needsUpdate := negb (JsSet.has existingFiles relativePath) in
      let needsUpdate :=
        if negb needsUpdate && JsSet.has existingFiles relativePath
        then true else needsUpdate in
      if negb needsUpdate then
        reindex_loop config existingFiles rest filesUpdated totalChunks
      else
        (if JsSet.has existingFiles relativePath
         then deleteChunksByFile relativePath else ret tt) ;;;
        created <- chunk_embed_insert config filePath relativePath ;;
        match created with
        | None =>
            reindex_loop config existingFiles rest filesUpdated
                         totalChunks
        | Some n =>
            reindex_loop config existingFiles rest (S filesUpdated)
                         (totalChunks + n)
        end
  end.

Definition reindexDocuments : DB ReindexResult :=
  config <- lift (Config.getConfig merged) ;;
  let files := found_files fs in
  indexed <- getAllFiles ;;
  let existingFiles := JsSet.of_list indexed in
  filesUpdated <- remove_deleted_loop existingFiles 0 ;;
  counts <- reindex_loop config existingFiles files filesUpdated 0 ;;
  close ;;;
  ret {| re_filesProcessed := length files;
         filesUpdated := fst counts;
         re_chunksCreated := snd counts |}.

End WithCollaborators.
End Indexer.

(** ** Query engine ([query.ts]) *)

Module Query.
Import VectorStore VectorStore.Notations.
Section WithCollaborators.
Context {B : Backend}.
Variable embeddings_create
  : jsstring -> list jsstring -> outcome (list (list float)).
Variable merged : RagConfig.

Record QueryResult := {
  text : jsstring;
  context : list ContextChunk;
  citations : list jsstring
}.

(** [`[${idx + 1}] ${chunk.content}`]. *)
Definition label (chunk : ContextChunk) (idx : nat) : jsstring :=
  lit "[" ++ Number_toString (idx + 1) ++ lit "] " ++ ctx_content chunk.

Definition contextText_of (contextChunks : list ContextChunk) : jsstring :=
  join [10%N; 10%N] (map_indexed label contextChunks).

Definition citations_of (contextChunks : list ContextChunk)
  : list jsstring :=
  JsSet.of_list (map (@ctx_filePath _) contextChunks).

(** [options] holds [topK] when the caller gave one; [embeddings[0]]
    goes to the search as it is, [undefined] included. *)
Definition queryRag (question : jsstring) (options_topK : option nat)
  : DB QueryResult :=
  config <- lift (Config.getConfig merged) ;;
  let topK :=
    match options_topK with
    | Some (S k) => S k
    | _ => topK config
    end in
  queryEmbedding <- lift (Embedder.generateEmbedding
                            embeddings_create merged question None) ;;
  contextChunks <- similaritySearch queryEmbedding topK ;;
  close ;;;
  ret {| text := contextText_of contextChunks;
         context := contextChunks;
         citations := citations_of contextChunks |}.

End WithCollaborators.
End Query.

(** * Properties *)

(** ** Strings *)

Lemma str_eqb_eq (a b : jsstring) : str_eqb a b = true <-> a = b.
Proof.
  revert b; induction a as [|x a IH]; intros [|y b]; simpl;
    try (split; (reflexivity || discriminate)).
  rewrite andb_true_iff, N.eqb_eq, IH.
  split; [intros [-> ->]; reflexivity | intros [= -> ->]; auto].
Qed.

Lemma str_eqb_refl (a : jsstring) : str_eqb a a = true.
Proof. now apply str_eqb_eq. Qed.

Lemma str_eqb_neq (a b : jsstring) : str_eqb a b = false <-> a <> b.
Proof.
  rewrite <- str_eqb_eq. destruct (str_eqb a b); split; congruence.
Qed.

Lemma str_eqb_sym (a b : jsstring) : str_eqb a b = str_eqb b a.
Proof.
  destruct (str_eqb a b) eqn:E.
  - apply str_eqb_eq in E; subst. now rewrite str_eqb_refl.
  - symmetry. apply str_eqb_neq. apply str_eqb_neq in E. congruence.
Qed.

Lemma starts_with_app (p s : jsstring) : starts_with p (p ++ s) = true.
Proof. induction p; simpl; [|rewrite N.eqb_refl]; auto. Qed.

Lemma starts_with_iff (p s : jsstring) :
  starts_with p s = true <-> exists t, s = p ++ t.
Proof.
  split.
  - revert s; induction p as [|x p IH]; intros s H; [now exists s|].
    destruct s as [|y s]; [discriminate|]. simpl in H.
    apply andb_true_iff in H as [Hx Hp]. apply N.eqb_eq in Hx; subst.
    destruct (IH _ Hp) as [t ->]. now exists t.
  - intros [t ->]. apply starts_with_app.
Qed.

(** ** A backend to run the model on

    Integers for numbers, the sum of absolute differences for the
    distance, a stable insertion sort for [ORDER BY] and first
    occurrences for [DISTINCT]: enough to evaluate the model on concrete
    databases. Every theorem below is stated for an arbitrary backend. *)

Fixpoint l1_distance (a b : list Z) : Z :=
  match a, b with
  | x :: a', y :: b' => (Z.abs (x - y) + l1_distance a' b')%Z
  | _, _ => 0%Z
  end.

Lemma Zleb_total (x y : Z) : Z.leb x y = true \/ Z.leb y x = true.
Proof.
  destruct (Z.leb x y) eqn:E; [now left | right].
  apply Z.leb_le. apply Z.leb_gt in E. lia.
Qed.

Lemma Zleb_trans (x y z : Z) :
  Z.leb x y = true -> Z.leb y z = true -> Z.leb x z = true.
Proof. rewrite !Z.leb_le. lia. Qed.

Section InsertionSort.
Variable A : Type.
Variable key : A -> Z.

Fixpoint insert_by_key (x : A) (l : list A) : list A :=
  match l with
  | [] => [x]
  | y :: l' =>
      if Z.leb (key x) (key y) then x :: l else y :: insert_by_key x l'
  end.

Definition sort_by_key (l : list A) : list A :=
  fold_right insert_by_key [] l.

Lemma insert_by_key_perm x l : Permutation (insert_by_key x l) (x :: l).
Proof.
  induction l as [|y l IH]; simpl; [reflexivity|].
  destruct (Z.leb (key x) (key y)); [reflexivity|].
  rewrite IH. apply perm_swap.
Qed.

Lemma sort_by_key_perm l : Permutation (sort_by_key l) l.
Proof.
  induction l as [|x l IH]; simpl; [reflexivity|].
  rewrite insert_by_key_perm. now constructor.
Qed.

Lemma insert_by_key_sorted x l :
  StronglySorted (fun a b => Z.leb (key a) (key b) = true) l ->
  StronglySorted (fun a b => Z.leb (key a) (key b) = true)
                 (insert_by_key x l).
Proof.
  induction 1 as [|y l Hl IH Hy]; simpl.
  - repeat constructor.
  - destruct (Z.leb (key x) (key y)) eqn:E.
    + constructor; [now constructor|].
      constructor; [exact E|].
      eapply Forall_impl; [|exact Hy].
      intros z Hz. cbv beta in *. eapply Zleb_trans; eauto.
    + constructor; [exact IH|].
      apply (Permutation_Forall (Permutation_sym (insert_by_key_perm x l))).
      constructor; [|exact Hy].
      destruct (Zleb_total (key x) (key y)); congruence.
Qed.

Lemma sort_by_key_sorted l :
  StronglySorted (fun a b => Z.leb (key a) (key b) = true) (sort_by_key l).
Proof.
  induction l as [|x l IH]; simpl; [constructor|].
  now apply insert_by_key_sorted.
Qed.

End InsertionSort.

(** Each value where it first occurs. *)
Fixpoint distinct (seen : list jsstring) (l : list jsstring)
  : list jsstring :=
  match l with
  | [] => []
  | x :: rest =>
      if existsb (str_eqb x) seen then distinct seen rest
      else x :: distinct (x :: seen) rest
  end.

Lemma existsb_str_eqb (seen : list jsstring) x :
  existsb (str_eqb x) seen = true <-> In x seen.
Proof.
  rewrite existsb_exists. split.
  - intros (y & Hy & E). apply str_eqb_eq in E. now subst.
  - intros H. exists x. split; [exact H | apply str_eqb_refl].
Qed.

Lemma distinct_spec l : forall seen,
  NoDup (distinct seen l)
  /\ forall x, In x (distinct seen l) <-> In x l /\ ~ In x seen.
Proof.
  induction l as [|y l IH]; intros seen; cbn [distinct].
  - split; [constructor | cbn; tauto].
  - destruct (existsb (str_eqb y) seen) eqn:E.
    + apply existsb_str_eqb in E. destruct (IH seen) as [Hnd Hin].
      split; [exact Hnd|]. intros x. rewrite Hin. split.
      * cbn; tauto.
      * intros [[-> | H] Hn]; tauto.
    + assert (Hy : ~ In y seen).
      { intros H. apply existsb_str_eqb in H. congruence. }
      destruct (IH (y :: seen)) as [Hnd Hin]. split.
      * constructor; [|exact Hnd]. rewrite Hin. cbn. tauto.
      * intros x. cbn [In]. rewrite Hin. cbn [In]. split.
        -- intros [<- | [H Hn]]; tauto.
        -- intros [[-> | H] Hn]; [now left|].
           destruct (str_eqb y x) eqn:Ex.
           ++ apply str_eqb_eq in Ex. now left.
           ++ apply str_eqb_neq in Ex. right. tauto.
Qed.

Lemma distinct_NoDup l : NoDup (distinct [] l).
Proof. apply distinct_spec. Qed.

Lemma distinct_In l x : In x (distinct [] l) <-> In x l.
Proof.
  destruct (distinct_spec l []) as [_ H]. rewrite H. cbn. tauto.
Qed.

#[local] Instance IntBackend : Backend := {|
  float := Z;
  fround := fun x => x;
  vec_distance_cosine := l1_distance;
  one_minus := fun x => (1 - x)%Z;
  sql_leb := Z.leb;
  sql_leb_total := Zleb_total;
  sql_leb_trans := Zleb_trans;
  sql_order_by := sort_by_key;
  sql_order_by_perm := sort_by_key_perm;
  sql_order_by_sorted := sort_by_key_sorted;
  sql_distinct := distinct [];
  sql_distinct_NoDup := distinct_NoDup;
  sql_distinct_In := distinct_In;
  md5_hex := fun s => s
|}.

(** ** Chunker *)

Section ChunkerFacts.
Import Chunker.

Definition blank (s : jsstring) : bool := forallb is_space s.

Lemma trimStart_suffix (s : jsstring) : exists t, s = t ++ trimStart s.
Proof.
  induction s as [|c s [t IH]]; [now exists []|].
  simpl. destruct (is_space c).
  - exists (c :: t). simpl. now rewrite <- IH.
  - now exists [].
Qed.

Lemma trimStart_nil_iff (s : jsstring) : trimStart s = [] <-> blank s = true.
Proof.
  induction s as [|c s IH]; simpl; [tauto|].
  destruct (is_space c); simpl; [exact IH|]. split; discriminate.
Qed.

Lemma trimStart_head (s : jsstring) c t :
  trimStart s = c :: t -> is_space c = false.
Proof.
  induction s as [|x s IH]; simpl; [discriminate|].
  destruct (is_space x) eqn:E; [exact IH|]. now intros [= <- <-].
Qed.

Lemma trimStart_fixed c (s : jsstring) :
  is_space c = false -> trimStart (c :: s) = c :: s.
Proof. intros H; simpl; now rewrite H. Qed.

Lemma trimStart_idem (s : jsstring) : trimStart (trimStart s) = trimStart s.
Proof.
  destruct (trimStart s) as [|c t] eqn:E; [reflexivity|].
  apply trimStart_fixed. eapply trimStart_head; eauto.
Qed.

Lemma trimStart_app_blank (x y : jsstring) :
  blank x = true -> trimStart (x ++ y) = trimStart y.
Proof.
  induction x as [|c x IH]; simpl; [reflexivity|].
  intros H. apply andb_true_iff in H as [-> H]. auto.
Qed.

Lemma trimStart_app_nonblank (x y : jsstring) :
  blank x = false -> trimStart (x ++ y) = trimStart x ++ y.
Proof.
  induction x as [|c x IH]; simpl; [discriminate|].
  destruct (is_space c); simpl; auto.
Qed.

Lemma blank_rev (s : jsstring) : blank (rev s) = blank s.
Proof.
  unfold blank. induction s as [|c s IH]; simpl; [reflexivity|].
  rewrite forallb_app, IH. simpl. rewrite andb_true_r. apply andb_comm.
Qed.

Lemma blank_app (x y : jsstring) : blank (x ++ y) = blank x && blank y.
Proof. apply forallb_app. Qed.

Lemma blank_trimStart (s : jsstring) : blank (trimStart s) = blank s.
Proof.
  induction s as [|c s IH]; simpl; [reflexivity|].
  destruct (is_space c) eqn:E; simpl; [exact IH|]. now rewrite E.
Qed.

Lemma trimEnd_nil_iff (s : jsstring) : trimEnd s = [] <-> blank s = true.
Proof.
  unfold trimEnd. rewrite <- blank_rev, <- trimStart_nil_iff.
  split; intros H; [|now rewrite H].
  apply (f_equal (@rev N)) in H. now rewrite rev_involutive in H.
Qed.

Lemma trim_nil_iff (s : jsstring) : trim s = [] <-> blank s = true.
Proof. unfold trim. now rewrite trimEnd_nil_iff, blank_trimStart. Qed.

Lemma trimEnd_idem (s : jsstring) : trimEnd (trimEnd s) = trimEnd s.
Proof. unfold trimEnd. now rewrite rev_involutive, trimStart_idem. Qed.

Lemma trimEnd_trim (s : jsstring) : trimEnd (trim s) = trim s.
Proof. apply trimEnd_idem. Qed.

(** Appending text keeps what [trimEnd] leaves of the front. *)
Lemma trimEnd_app (a z : jsstring) :
  exists t, trimEnd (a ++ z) = trimEnd a ++ t.
Proof.
  unfold trimEnd. rewrite rev_app_distr.
  destruct (blank (rev z)) eqn:E.
  - rewrite trimStart_app_blank by exact E. exists []. now rewrite app_nil_r.
  - rewrite trimStart_app_nonblank by exact E.
    rewrite rev_app_distr, rev_involutive.
    destruct (trimStart_suffix (rev a)) as [t Ht].
    exists (rev t ++ rev (trimStart (rev z))).
    rewrite app_assoc. f_equal.
    rewrite <- rev_app_distr, <- Ht. now rewrite rev_involutive.
Qed.

(** A string that [trimEnd] leaves alone has only suffixes that it leaves
    alone. *)
Lemma trimEnd_fixed_suffix (u w : jsstring) :
  trimEnd (u ++ w) = u ++ w -> trimEnd w = w.
Proof.
  unfold trimEnd. intros H.
  apply (f_equal (@rev N)) in H. rewrite rev_involutive, rev_app_distr in H.
  destruct (rev w) as [|c r] eqn:E.
  - apply (f_equal (@rev N)) in E. rewrite rev_involutive in E.
    now subst.
  - assert (Hc : is_space c = false).
    { destruct (is_space c) eqn:Hc; [|reflexivity]. exfalso.
      simpl in H. rewrite Hc in H.
      destruct (trimStart_suffix (r ++ rev u)) as [t Ht].
      rewrite H in Ht. apply (f_equal (@length N)) in Ht.
      rewrite (length_app t) in Ht. simpl in Ht. lia. }
    rewrite trimStart_fixed by exact Hc.
    rewrite <- E. apply rev_involutive.
Qed.

Lemma slice_last_suffix (n : nat) (s : jsstring) :
  exists u, s = u ++ slice_last n s.
Proof.
  exists (firstn (length s - n) s). unfold slice_last.
  now rewrite firstn_skipn.
Qed.

(** The seed of a new buffer survives [trim] up to its leading
    whitespace. *)
Lemma seed_prefix (n : nat) (prev y : jsstring) :
  trimEnd prev = prev ->
  starts_with (trimStart (slice_last n prev))
              (trim (slice_last n prev ++ y)) = true.
Proof.
  intros Hprev. set (w := slice_last n prev).
  destruct (blank w) eqn:E.
  - apply trimStart_nil_iff in E. now rewrite E.
  - unfold trim. rewrite trimStart_app_nonblank by exact E.
    destruct (trimEnd_app (trimStart w) y) as [t ->].
    assert (Hw : trimEnd (trimStart w) = trimStart w).
    { destruct (slice_last_suffix n prev) as [u Hu]. fold w in Hu.
      destruct (trimStart_suffix w) as [v Hv].
      apply (@trimEnd_fixed_suffix (u ++ v)).
      rewrite <- app_assoc, <- Hv, <- Hu. exact Hprev. }
    rewrite Hw. apply starts_with_app.
Qed.

(** *** The model on small inputs *)

Example normalize_ex :
  normalize (lit "a" ++ [13; 10]%N ++ lit "b" ++ [13]%N ++ lit "c")
  = lit "a" ++ [10]%N ++ lit "b" ++ [10]%N ++ lit "c".
Proof. reflexivity. Qed.

Example split_sentences_ex :
  split_sentences (lit "Hi there.  How? ok!x. " ++ [10]%N)
  = [lit "Hi there."; lit "How?"; lit "ok!x."; lit ""].
Proof. reflexivity. Qed.

Example split_sentences_no_boundary_ex :
  split_sentences (lit " v1.2 is out ") = [lit " v1.2 is out "].
Proof. reflexivity. Qed.

Example trim_ex :
  trim ([160; 9]%N ++ lit " a b " ++ [10; 65279]%N) = lit "a b".
Proof. reflexivity. Qed.

Example splitByCharacter_ex :
  splitByCharacter (lit "abcdefg") 3 1
  = Some [lit "abc"; lit "cde"; lit "efg"; lit "g"].
Proof. reflexivity. Qed.

Example splitByCharacter_hangs_ex :
  splitByCharacter (lit "abcdefg") 3 3 = None.
Proof. reflexivity. Qed.

Example chunkText_ex :
  chunkText (lit "One two. Three four. Five six seven.") 20 4
  = Some [lit "One two. Three four."; lit "our. Five six seven."].
Proof. vm_compute. reflexivity. Qed.

(** *** Sentences *)

Lemma is_terminator_not_space c :
  is_terminator c = true -> is_space c = false.
Proof.
  unfold is_terminator. rewrite !orb_true_iff, !N.eqb_eq.
  intros [[-> | ->] | ->]; reflexivity.
Qed.

(** Every sentence but the last holds a character that is not
    whitespace. *)
Fixpoint all_but_last_nonblank (l : list jsstring) : Prop :=
  match l with
  | [] => True
  | x :: rest =>
      match rest with
      | [] => True
      | _ :: _ => blank x = false /\ all_but_last_nonblank rest
      end
  end.

Lemma split_scan_nonempty m piece s : split_scan m piece s <> [].
Proof.
  revert m piece; induction s as [|c s IH]; intros m piece; simpl;
    [discriminate|].
  destruct (is_space c); [destruct m|]; auto; discriminate.
Qed.

Lemma split_scan_nonblank s : forall m piece,
  (m = AfterTerminator -> blank piece = false) ->
  all_but_last_nonblank (split_scan m piece s).
Proof.
  induction s as [|c s IH]; intros m piece Hm; simpl; [exact I|].
  destruct (is_space c) eqn:Ec.
  - destruct m.
    + apply IH; discriminate.
    + pose proof (@split_scan_nonempty InSeparator [] s) as Hne.
      pose proof (IH InSeparator []) as IH'.
      destruct (split_scan InSeparator [] s) as [|y l]; [congruence|].
      split; [rewrite blank_rev; auto | apply IH'; discriminate].
    + apply IH; discriminate.
  - apply IH. intros _. simpl. now rewrite Ec.
Qed.

Lemma split_sentences_nonblank text :
  all_but_last_nonblank (split_sentences text).
Proof. apply split_scan_nonblank; discriminate. Qed.

Lemma split_scan_blank s : forall piece,
  blank s = true -> split_scan Plain piece s = [rev piece ++ s].
Proof.
  induction s as [|c s IH]; intros piece H; simpl.
  - now rewrite app_nil_r.
  - simpl in H. apply andb_true_iff in H as [-> H].
    rewrite IH by exact H. simpl. now rewrite <- app_assoc.
Qed.

(** *** The character window *)

Lemma length_slice (start end_ : nat) (s : jsstring) :
  length (slice start end_ s) = Nat.min (end_ - start) (length s - start).
Proof. unfold slice. now rewrite length_firstn, length_skipn. Qed.

Lemma splitByCharacter_loop_total text chunkSize overlap :
  overlap < chunkSize ->
  forall fuel start,
    length text - start < fuel ->
    exists parts,
      splitByCharacter_loop fuel text chunkSize overlap start = Some parts
      /\ Forall (fun p => p <> [] /\ length p <= chunkSize) parts
      /\ (start < length text -> parts <> []).
Proof.
  intros Hov. induction fuel as [|fuel IH]; intros start Hfuel; [lia|].
  simpl. destruct (start <? length text) eqn:E.
  - apply Nat.ltb_lt in E.
    destruct (IH (start + (chunkSize - overlap))) as (parts & -> & HF & _);
      [lia|].
    eexists; split; [reflexivity|]. split; [|discriminate].
    constructor; [|exact HF].
    assert (Hlen := length_slice start
                      (Nat.min (start + chunkSize) (length text)) text).
    split; [|lia].
    intros Hnil. rewrite Hnil in Hlen. simpl in Hlen. lia.
  - apply Nat.ltb_ge in E. exists []. repeat split; auto. lia.
Qed.

Lemma splitByCharacter_total text chunkSize overlap :
  overlap < chunkSize ->
  exists parts,
    splitByCharacter text chunkSize overlap = Some parts
    /\ Forall (fun p => p <> [] /\ length p <= chunkSize) parts
    /\ (text <> [] -> parts <> []).
Proof.
  intros Hov.
  destruct (@splitByCharacter_loop_total text _ _ Hov (S (length text)) 0)
    as (parts & H1 & H2 & H3); [lia|].
  exists parts. repeat split; auto.
  intros Hne. apply H3. destruct text; [congruence | simpl; lia].
Qed.

(** *** The loop and its origins *)

Lemma flush_erase tc cur :
  map snd (flush_prov tc cur) = flush (map snd tc) cur.
Proof.
  unfold flush_prov, flush. destruct (truthy cur); [|reflexivity].
  now rewrite map_app.
Qed.

Lemma chunk_loop_erase size ov sentences : forall tc cur,
  chunk_loop size ov sentences (map snd tc) cur
  = option_map (fun r => (map snd (fst r), snd r))
               (chunk_loop_prov size ov sentences tc cur).
Proof.
  induction sentences as [|sentence rest IH]; intros tc cur; simpl;
    [reflexivity|].
  destruct (size <? length sentence).
  - destruct (splitByCharacter sentence size ov) as [parts|]; [|reflexivity].
    rewrite <- IH, map_app, flush_erase, map_map, map_id. reflexivity.
  - destruct (size <? length cur + length sentence).
    + rewrite <- IH, flush_erase.
      now rewrite <- (length_map snd (flush_prov tc cur)), flush_erase.
    + now rewrite <- IH.
Qed.

Lemma filter_erase (l : list (origin * jsstring)) :
  filter (fun chunk => 0 <? length chunk) (map snd l)
  = map snd (filter (fun chunk => 0 <? length (snd chunk)) l).
Proof.
  induction l as [|[o c] l IH]; simpl; [reflexivity|].
  destruct (0 <? length c); simpl; now rewrite IH.
Qed.

(** Forgetting the origins gives [chunkText]. *)
Lemma chunkText_erase text size ov :
  chunkText text size ov = option_map (map snd) (chunkText_prov text size ov).
Proof.
  unfold chunkText, chunkText_prov.
  change (@nil jsstring) with (map snd (@nil (origin * jsstring))) at 1.
  rewrite chunk_loop_erase.
  destruct (chunk_loop_prov size ov _ [] []) as [[tc cur]|]; simpl;
    [|reflexivity].
  destruct (truthy (trim cur)); simpl.
  - now rewrite <- filter_erase, map_app.
  - now rewrite <- filter_erase.
Qed.

Section Overlap.
Variables size ov : nat.

(** What a chunk carries over into the chunk after it. *)
Definition carried (a : jsstring) : jsstring :=
  trimStart (slice_last ov a).

Definition pair_ok (x y : origin * jsstring) : Prop :=
  match x, y with
  | (Accumulated, a), (Accumulated, b) => starts_with (carried a) b = true
  | _, _ => True
  end.

Fixpoint adjacent_ok (l : list (origin * jsstring)) : Prop :=
  match l with
  | [] => True
  | x :: rest =>
      match rest with
      | [] => True
      | y :: _ => pair_ok x y /\ adjacent_ok rest
      end
  end.

Definition no_chunk : origin * jsstring := (CharSplit, []).

Lemma adjacent_ok_snoc l y :
  adjacent_ok (l ++ [y]) <-> adjacent_ok l /\ pair_ok (last l no_chunk) y.
Proof.
  induction l as [|x l IH]; simpl.
  - unfold pair_ok, no_chunk. tauto.
  - destruct l as [|x' l]; simpl in *; [tauto|]. tauto.
Qed.

Lemma adjacent_ok_app_split l parts :
  adjacent_ok l ->
  adjacent_ok (l ++ map (pair CharSplit) parts).
Proof.
  revert l; induction parts as [|p parts IH]; intros l H; simpl.
  - now rewrite app_nil_r.
  - change (l ++ (CharSplit, p) :: map (pair CharSplit) parts)
      with (l ++ [(CharSplit, p)] ++ map (pair CharSplit) parts).
    rewrite app_assoc. apply IH. apply adjacent_ok_snoc. split; [exact H|].
    unfold pair_ok. now destruct (last l no_chunk) as [[|] ?].
Qed.

Lemma adjacent_ok_nth l : adjacent_ok l ->
  forall i x y, nth_error l i = Some x -> nth_error l (S i) = Some y ->
                pair_ok x y.
Proof.
  induction l as [|x0 l IH]; intros H i x y Hx Hy; [destruct i; discriminate|].
  destruct l as [|y0 l]; [destruct i; discriminate|].
  destruct H as [H0 H]. destruct i as [|i].
  - simpl in Hx, Hy. now injection Hx as <-; injection Hy as <-.
  - apply (IH H i); assumption.
Qed.

Lemma last_in (l : list (origin * jsstring)) a :
  last l no_chunk = (Accumulated, a) -> In (Accumulated, a) l.
Proof.
  induction l as [|x l IH]; [discriminate|].
  destruct l as [|y l]; simpl in *; [intros ->; auto|]. auto.
Qed.

Lemma last_app_split (l : list (origin * jsstring)) parts :
  parts <> [] ->
  fst (last (l ++ map (pair CharSplit) parts) no_chunk) = CharSplit.
Proof.
  intros Hne. destruct (exists_last Hne) as (q & p & ->).
  rewrite map_app, app_assoc. simpl. now rewrite last_last.
Qed.

(** The invariant of the loop: chunks of the sentence path are trimmed
    and not empty, neighbours on that path overlap, and a buffer that
    follows such a chunk starts with what the chunk carries over. *)
Record loop_inv (tc : list (origin * jsstring)) (cur : jsstring) : Prop := {
  inv_trimmed : Forall (fun p => fst p = Accumulated ->
                                 trimEnd (snd p) = snd p) tc;
  inv_adjacent : adjacent_ok tc;
  inv_seeded : forall prev, last tc no_chunk = (Accumulated, prev) ->
                            exists y, cur = slice_last ov prev ++ y;
  inv_nonempty : Forall (fun p => snd p <> []) tc
}.

Lemma push_buffer tc cur :
  loop_inv tc cur -> blank cur = false ->
  loop_inv (tc ++ [(Accumulated, trim cur)])
           (slice_last ov (trim cur) ++ [32%N]).
Proof.
  intros [H1 H2 H3 H4] Hb. split.
  - apply Forall_app. split; [exact H1|].
    constructor; [|constructor]. intros _. apply trimEnd_trim.
  - apply adjacent_ok_snoc. split; [exact H2|].
    destruct (last tc no_chunk) as [[|] prev] eqn:E; simpl; [|exact I].
    destruct (H3 _ eq_refl) as [y ->].
    apply seed_prefix.
    rewrite Forall_forall in H1. apply (H1 _ (last_in _ E)). reflexivity.
  - intros prev. rewrite last_last. intros [= <-]. now exists [32%N].
  - apply Forall_app. split; [exact H4|].
    constructor; [|constructor]. simpl.
    rewrite trim_nil_iff. congruence.
Qed.

Lemma loop_inv_extend tc cur y :
  loop_inv tc cur -> loop_inv tc (cur ++ y).
Proof.
  intros [H1 H2 H3 H4]. split; auto.
  intros prev E. destruct (H3 _ E) as [z ->]. exists (z ++ y).
  now rewrite app_assoc.
Qed.

Lemma loop_inv_flush tc cur :
  loop_inv tc cur -> (cur = [] \/ blank cur = false) ->
  forall parts, parts <> [] -> Forall (fun p => p <> []) parts ->
  loop_inv (flush_prov tc cur ++ map (pair CharSplit) parts) [].
Proof.
  intros Hinv Hcur parts Hne Hparts.
  assert (Hf : exists c, loop_inv (flush_prov tc cur) c).
  { unfold flush_prov. destruct cur as [|c cur]; simpl.
    - now exists [].
    - destruct Hcur as [|Hb]; [discriminate|].
      eexists. apply (push_buffer Hinv Hb). }
  destruct Hf as [c [H1 H2 _ H4]]. split.
  - apply Forall_app. split; [exact H1|].
    apply Forall_forall. intros [o q] Hin. apply in_map_iff in Hin.
    destruct Hin as (q' & [= <- <-] & _). discriminate.
  - now apply adjacent_ok_app_split.
  - intros prev E. pose proof (last_app_split (flush_prov tc cur) Hne) as L.
    assert (X : Accumulated = CharSplit)
      by (etransitivity; [symmetry; exact (f_equal fst E) | exact L]).
    discriminate.
  - apply Forall_app. split; [exact H4|].
    apply Forall_forall. intros [o q] Hin. apply in_map_iff in Hin.
    destruct Hin as (q' & [= <- <-] & Hq).
    rewrite Forall_forall in Hparts. now apply Hparts.
Qed.

Hypothesis ov_positive : 0 < ov.
Hypothesis ov_below_size : ov < size.

Lemma chunk_loop_prov_inv sentences : forall tc cur,
  all_but_last_nonblank sentences ->
  loop_inv tc cur ->
  (sentences <> [] -> cur = [] \/ blank cur = false) ->
  exists tc' cur',
    chunk_loop_prov size ov sentences tc cur = Some (tc', cur')
    /\ loop_inv tc' cur'.
Proof.
  induction sentences as [|sentence rest IH]; intros tc cur Hs Hinv Hcur.
  - now exists tc, cur.
  - assert (Hrest : all_but_last_nonblank rest)
      by (destruct rest; [exact I | apply Hs]).
    assert (Hsent : rest <> [] -> blank sentence = false)
      by (destruct rest; [congruence | intros _; apply Hs]).
    specialize (Hcur ltac:(discriminate)).
    cbn [chunk_loop_prov].
    destruct (size <? length sentence) eqn:Ebig.
    + apply Nat.ltb_lt in Ebig.
      destruct (@splitByCharacter_total sentence size ov ov_below_size)
        as (parts & -> & Hparts & Hne).
      apply IH; [exact Hrest | | now left].
      apply loop_inv_flush; auto.
      * apply Hne. destruct sentence; [simpl in Ebig; lia | discriminate].
      * eapply Forall_impl; [|exact Hparts]. now intros p [? _].
    + apply Nat.ltb_ge in Ebig.
      destruct (size <? length cur + length sentence) eqn:Eover.
      * apply Nat.ltb_lt in Eover.
        destruct cur as [|c cur]; [simpl in Eover; lia|].
        destruct Hcur as [|Hb]; [discriminate|].
        unfold flush_prov. cbn [truthy].
        rewrite length_app, Nat.add_comm. cbn [length Nat.add].
        replace (0 <? ov) with true by (symmetry; now apply Nat.ltb_lt).
        cbn [Nat.ltb Nat.leb andb].
        rewrite map_app. cbn [map]. rewrite last_last. cbn [snd].
        apply IH; [exact Hrest | |].
        -- rewrite app_assoc. apply loop_inv_extend.
           now apply push_buffer.
        -- intros Hr. right. rewrite !blank_app, (Hsent Hr).
           now rewrite !andb_false_r.
      * apply IH; [exact Hrest | |].
        -- now apply loop_inv_extend.
        -- intros Hr. right. rewrite !blank_app, (Hsent Hr).
           now rewrite !andb_false_r.
Qed.

End Overlap.

End ChunkerFacts.

(** *** What does hold of the sizes *)

Lemma length_trimStart (s : jsstring) :
  length (Chunker.trimStart s) <= length s.
Proof.
  destruct (trimStart_suffix s) as [t Ht].
  rewrite Ht at 2. rewrite length_app. lia.
Qed.

Lemma length_trim (s : jsstring) : length (Chunker.trim s) <= length s.
Proof.
  unfold Chunker.trim, Chunker.trimEnd. rewrite length_rev.
  etransitivity; [apply length_trimStart|].
  rewrite length_rev. apply length_trimStart.
Qed.

Lemma length_slice_last n (s : jsstring) : length (slice_last n s) <= n.
Proof. unfold slice_last. rewrite length_skipn. lia. Qed.

Lemma chunk_loop_bound size ov sentences :
  ov < size ->
  forall chunks cur,
    Forall (fun c => length c <= size + ov + 1) chunks ->
    length cur <= size + ov + 1 ->
    exists chunks' cur',
      Chunker.chunk_loop size ov sentences chunks cur = Some (chunks', cur')
      /\ Forall (fun c => length c <= size + ov + 1) chunks'
      /\ length cur' <= size + ov + 1.
Proof.
  intros Hov. induction sentences as [|sentence rest IH];
    intros chunks cur Hchunks Hcur.
  - now exists chunks, cur.
  - assert (Hflush : Forall (fun c => length c <= size + ov + 1)
                            (Chunker.flush chunks cur)).
    { unfold Chunker.flush. destruct (truthy cur); [|exact Hchunks].
      apply Forall_app. split; [exact Hchunks|].
      constructor; [|constructor]. pose proof (length_trim cur). lia. }
    cbn [Chunker.chunk_loop].
    destruct (size <? length sentence) eqn:Ebig.
    + destruct (@splitByCharacter_total sentence size ov Hov)
        as (parts & -> & Hparts & _).
      apply IH; [|simpl; lia].
      apply Forall_app. split; [exact Hflush|].
      eapply Forall_impl; [|exact Hparts]. intros p [_ Hp]. lia.
    + apply Nat.ltb_ge in Ebig.
      destruct (size <? length cur + length sentence) eqn:Eover.
      * apply IH; [exact Hflush|].
        destruct ((0 <? length (Chunker.flush chunks cur)) && (0 <? ov))%bool;
          [|lia].
        rewrite !length_app. simpl.
        pose proof (length_slice_last ov
                      (last (Chunker.flush chunks cur) [])). lia.
      * apply Nat.ltb_ge in Eover. apply IH; [exact Hchunks|].
        rewrite !length_app. destruct (truthy cur); simpl; lia.
Qed.

(** For [chunkOverlap < chunkSize], [chunkText] returns, and no chunk is
    longer than [chunkSize + chunkOverlap + 1]. *)
Lemma chunkText_total text size ov :
  ov < size ->
  exists chunks,
    Chunker.chunkText text size ov = Some chunks
    /\ Forall (fun c => length c <= size + ov + 1) chunks.
Proof.
  intros Hov. unfold Chunker.chunkText.
  destruct (@chunk_loop_bound size ov
              (Chunker.split_sentences (Chunker.normalize text)) Hov
              (@nil jsstring) (@nil N))
    as (chunks & cur & -> & Hchunks & Hcur); [constructor | simpl; lia |].
  eexists. split; [reflexivity|].
  apply Forall_forall. intros c Hin. apply filter_In in Hin as [Hin _].
  destruct (truthy (Chunker.trim cur)).
  - apply in_app_or in Hin as [Hin | [<- | []]].
    + rewrite Forall_forall in Hchunks. auto.
    + pose proof (length_trim cur). lia.
  - rewrite Forall_forall in Hchunks. auto.
Qed.

(** *** Whitespace-only text *)

Lemma replace_crlf_blank_aux n : forall s,
  length s <= n -> blank s = true ->
  blank (Chunker.replace_crlf s) = true
  /\ length (Chunker.replace_crlf s) <= length s.
Proof.
  induction n as [|n IH]; intros s Hn Hs.
  - destruct s; [auto | simpl in Hn; lia].
  - destruct s as [|c [|d s]]; simpl; auto.
    simpl in Hs, Hn.
    apply andb_true_iff in Hs as [Hc Hs].
    destruct (N.eqb c 13 && N.eqb d 10)%bool.
    + apply andb_true_iff in Hs as [_ Hs].
      destruct (IH s) as [H1 H2]; [lia | exact Hs |].
      simpl. split; [exact H1 | lia].
    + destruct (IH (d :: s)) as [H1 H2]; [simpl; lia | exact Hs |].
      cbn [blank forallb] in *. rewrite Hc. simpl in *. split; [exact H1 | lia].
Qed.

Lemma normalize_blank s :
  blank s = true ->
  blank (Chunker.normalize s) = true
  /\ length (Chunker.normalize s) <= length s.
Proof.
  intros Hs. destruct (@replace_crlf_blank_aux (length s) s) as [H1 H2]; auto.
  unfold Chunker.normalize, Chunker.replace_cr.
  rewrite length_map. split; [|exact H2].
  unfold blank in *. rewrite forallb_forall in *.
  intros c Hc. apply in_map_iff in Hc as (c' & <- & Hc').
  destruct (N.eqb_spec c' 13); [reflexivity | auto].
Qed.

(** Whitespace-only text that fits in one chunk gives no chunk. *)
Lemma chunkText_blank_fits text size ov :
  blank text = true -> length text <= size ->
  Chunker.chunkText text size ov = Some [].
Proof.
  intros Hb Hlen. destruct (normalize_blank text Hb) as [Hb' Hlen'].
  unfold Chunker.chunkText, Chunker.split_sentences.
  rewrite split_scan_blank by exact Hb'. simpl.
  replace (size <? length (Chunker.normalize text)) with false
    by (symmetry; apply Nat.ltb_ge; lia).
  simpl. apply trim_nil_iff in Hb'. now rewrite Hb'.
Qed.

(** C10. The text of three spaces is whitespace only, and with
    [chunkSize = 2] and [chunkOverlap = 0] [chunkText] returns two chunks
    of spaces: the single sentence is longer than [chunkSize], and the
    pieces of [splitByCharacter] are pushed without the [trim] and the
    emptiness test that the sentence path applies. *)
Theorem chunkText_blank_text_is_chunked :
  blank (lit "   ") = true
  /\ 0 <= 0 < 2
  /\ Chunker.split_sentences (Chunker.normalize (lit "   ")) = [lit "   "]
  /\ Chunker.chunkText (lit "   ") 2 0 = Some [lit "  "; lit " "]
  /\ blank (lit "  ") = true /\ blank (lit " ") = true.
Proof. repeat split; try lia; vm_compute; reflexivity. Qed.

(** *** Sizes of chunks *)

(** C3. With [chunkSize = 10] and [chunkOverlap = 0], the text
    ["abcd. efgh."] has two sentences of five characters, none longer
    than [chunkSize]; the test [currentChunk.length + sentence.length >
    chunkSize] does not count the joining space, and the only chunk, from
    the sentence path, has eleven characters. On the other path, the
    pieces of a single unit of twelve characters with [chunkSize = 10]
    and [chunkOverlap = 8] have lengths 10, 10, 8, 6, 4 and 2: four
    pieces after the first short one. *)
Theorem chunkText_chunk_exceeds_chunkSize :
  0 <= 0 < 10
  /\ Chunker.split_sentences (Chunker.normalize (lit "abcd. efgh."))
     = [lit "abcd."; lit "efgh."]
  /\ Chunker.chunkText_prov (lit "abcd. efgh.") 10 0
     = Some [(Chunker.Accumulated, lit "abcd. efgh.")]
  /\ Chunker.chunkText (lit "abcd. efgh.") 10 0 = Some [lit "abcd. efgh."]
  /\ length (lit "abcd. efgh.") = 11
  /\ 0 <= 8 < 10
  /\ Chunker.chunkText_prov (lit "abcdefghijkl") 10 8
     = Some (map (pair Chunker.CharSplit)
                 [lit "abcdefghij"; lit "cdefghijkl"; lit "efghijkl";
                  lit "ghijkl"; lit "ijkl"; lit "kl"]).
Proof. repeat split; try lia; vm_compute; reflexivity. Qed.

(** *** Overlap between neighbours *)

(** The property as the design document words it: the last [ov]
    characters of a chunk of the sentence path start the next one. *)
Definition overlap_verbatim (text : jsstring) (size ov : nat) : Prop :=
  forall tagged i a b,
    Chunker.chunkText_prov text size ov = Some tagged ->
    nth_error tagged i = Some (Chunker.Accumulated, a) ->
    nth_error tagged (S i) = Some (Chunker.Accumulated, b) ->
    starts_with (slice_last ov a) b = true.

(** C6, as stated, fails: with [chunkSize = 10] and [chunkOverlap = 5]
    the chunks of ["aa   bb. ccccccc."] are ["aa   bb."] and
    ["bb. ccccccc."]; the last five characters of the first, ["  bb."],
    start with two spaces that [trim] removed from the second. *)
Lemma overlap_verbatim_fails :
  ~ overlap_verbatim (lit "aa   bb. ccccccc.") 10 5.
Proof.
  intros H.
  specialize (H [(Chunker.Accumulated, lit "aa   bb.");
                 (Chunker.Accumulated, lit "bb. ccccccc.")]
                0 (lit "aa   bb.") (lit "bb. ccccccc.")
                eq_refl eq_refl eq_refl).
  vm_compute in H. discriminate.
Qed.

(** C6, amended. For [0 < chunkOverlap < chunkSize], [chunkText] returns,
    and for every two neighbouring chunks that both come from the
    sentence path, the last [chunkOverlap] characters of the first,
    without their leading whitespace, start the second. *)
Theorem chunkText_overlap_carried (text : jsstring) (size ov : nat) :
  0 < ov -> ov < size ->
  exists tagged,
    Chunker.chunkText_prov text size ov = Some tagged
    /\ Chunker.chunkText text size ov = Some (map snd tagged)
    /\ forall i a b,
        nth_error tagged i = Some (Chunker.Accumulated, a) ->
        nth_error tagged (S i) = Some (Chunker.Accumulated, b) ->
        starts_with (Chunker.trimStart (slice_last ov a)) b = true.
Proof.
  intros Hpos Hlt.
  assert (Hinit : loop_inv ov [] []).
  { split; try constructor. intros prev E. discriminate. }
  destruct (@chunk_loop_prov_inv size ov Hpos Hlt
              (Chunker.split_sentences (Chunker.normalize text)) [] []
              (split_sentences_nonblank _) Hinit (fun _ => or_introl eq_refl))
    as (tc & cur & Hrun & Hinv).
  assert (Hfinal : exists tagged c,
             Chunker.chunkText_prov text size ov = Some tagged
             /\ loop_inv ov tagged c).
  { unfold Chunker.chunkText_prov. rewrite Hrun.
    destruct (Chunker.trim cur) as [|x t] eqn:Et; cbn [truthy].
    - exists tc, cur. split; [|exact Hinv]. f_equal.
      apply forallb_filter_id. apply forallb_forall.
      intros [o c] Hin. destruct Hinv as [_ _ _ Hne].
      rewrite Forall_forall in Hne. specialize (Hne _ Hin). simpl in *.
      destruct c; [congruence | reflexivity].
    - assert (Hb : blank cur = false).
      { destruct (blank cur) eqn:Eb; [|reflexivity].
        apply trim_nil_iff in Eb. congruence. }
      pose proof (push_buffer Hinv Hb) as Hinv'. rewrite Et in Hinv'.
      eexists _, _. split; [|exact Hinv']. f_equal.
      apply forallb_filter_id. apply forallb_forall.
      intros [o c] Hin. destruct Hinv' as [_ _ _ Hne].
      rewrite Forall_forall in Hne. specialize (Hne _ Hin). simpl in *.
      destruct c; [congruence | reflexivity]. }
  destruct Hfinal as (tagged & c & Hrun' & [_ Hadj _ _]).
  exists tagged. split; [exact Hrun'|]. split.
  - rewrite chunkText_erase, Hrun'. reflexivity.
  - intros i a b Ha Hb.
    exact (@adjacent_ok_nth ov tagged Hadj i _ _ Ha Hb).
Qed.

Lemma chunkText_overlap_carried_witness :
  exists tagged,
    Chunker.chunkText_prov (lit "aa   bb. ccccccc.") 10 5 = Some tagged
    /\ Chunker.chunkText (lit "aa   bb. ccccccc.") 10 5
       = Some (map snd tagged)
    /\ forall i a b,
        nth_error tagged i = Some (Chunker.Accumulated, a) ->
        nth_error tagged (S i) = Some (Chunker.Accumulated, b) ->
        starts_with (Chunker.trimStart (slice_last 5 a)) b = true.
Proof.
  apply (@chunkText_overlap_carried (lit "aa   bb. ccccccc.") 10 5); lia.
Defined.

(** ** Embedding client *)

Section EmbedderFacts.
Context {B : Backend}.
Variable embeddings_create
  : jsstring -> list jsstring -> outcome (list (list float)).
Variable merged : RagConfig.

(** The vector the endpoint computes for one text under a model. *)
Variable api_embed : jsstring -> jsstring -> list float.

(** The endpoint answers every request of at most [b] texts with one
    vector per text, in the order of the texts. *)
Definition answers_in_order (b : nat) : Prop :=
  forall m batch,
    batch <> [] -> length batch <= b ->
    embeddings_create m batch = Return (map (api_embed m) batch).

(** [model || config.embeddingModel]. *)
Definition model_used (model : option jsstring) : jsstring :=
  match model with
  | Some m => if truthy m then m else embeddingModel merged
  | None => embeddingModel merged
  end.

(** What one text becomes: its vector, as a [Float32Array]. *)
Definition embedded (m text : jsstring) : list float :=
  map fround (api_embed m text).

(** The naive client of the design document: one [embedOne] per text,
    in order. *)
Fixpoint embedMany_naive (texts : list jsstring) (model : option jsstring)
  : outcome (list (option (list float))) :=
  match texts with
  | [] => Return []
  | text :: rest =>
      let! v := Embedder.generateEmbedding embeddings_create merged
                                           text model in
      let! vs := embedMany_naive rest model in
      Return (v :: vs)
  end.

Lemma generateEmbeddings_loop_spec b m texts :
  0 < b -> answers_in_order b ->
  forall fuel i acc,
    length texts - i < fuel ->
    Embedder.generateEmbeddings_loop embeddings_create fuel b m texts i acc
    = Return (acc ++ map (embedded m) (skipn i texts)).
Proof.
  intros Hb Hapi. induction fuel as [|fuel IH]; intros i acc Hfuel; [lia|].
  simpl. destruct (i <? length texts) eqn:E.
  - apply Nat.ltb_lt in E.
    unfold slice. replace (i + b - i) with b by lia.
    assert (Hlen : length (firstn b (skipn i texts)) = Nat.min b (length texts - i))
      by now rewrite length_firstn, length_skipn.
    rewrite Hapi.
    + simpl. rewrite IH by lia.
      rewrite <- app_assoc. do 2 f_equal.
      rewrite Nat.add_comm, <- skipn_skipn.
      rewrite <- (firstn_skipn b (skipn i texts)) at 3.
      rewrite map_app. f_equal.
      unfold embedded. now rewrite map_map.
    + intros Hnil. rewrite Hnil in Hlen. simpl in Hlen. lia.
    + lia.
  - apply Nat.ltb_ge in E. rewrite skipn_all2 by exact E.
    simpl. now rewrite app_nil_r.
Qed.

Hypothesis has_key : truthy (apiKey merged) = true.
Hypothesis in_order : answers_in_order Embedder.BATCH_SIZE.

Lemma generateEmbeddings_spec texts model :
  Embedder.generateEmbeddings embeddings_create merged texts model
  = Return (map (embedded (model_used model)) texts).
Proof.
  unfold Embedder.generateEmbeddings, Config.getConfig.
  rewrite has_key. cbn [obind].
  assert (Hb : 0 < Embedder.BATCH_SIZE) by (unfold Embedder.BATCH_SIZE; lia).
  rewrite (@generateEmbeddings_loop_spec _ _ texts Hb in_order) by lia.
  reflexivity.
Qed.

Lemma generateEmbedding_spec text model :
  Embedder.generateEmbedding embeddings_create merged text model
  = Return (Some (embedded (model_used model) text)).
Proof.
  unfold Embedder.generateEmbedding. now rewrite generateEmbeddings_spec.
Qed.

(** C7. When the endpoint answers each request of at most 100 texts with
    one vector per text in order, [generateEmbeddings] returns one vector
    per text in the order of the texts, whatever the number of batches;
    [generateEmbedding] returns the first vector of [generateEmbeddings]
    on the one-element list; and the batched client returns what the
    naive one returns. *)
Theorem generateEmbeddings_one_per_text (texts : list jsstring)
        (model : option jsstring) :
  exists vectors,
    Embedder.generateEmbeddings embeddings_create merged texts model
    = Return vectors
    /\ length vectors = length texts
    /\ (forall i text, nth_error texts i = Some text ->
          nth_error vectors i = Some (embedded (model_used model) text))
    /\ (forall text,
          exists one,
            Embedder.generateEmbeddings embeddings_create merged [text]
                                        model = Return one
            /\ Embedder.generateEmbedding embeddings_create merged text
                                          model
               = Return (nth_error one 0)
            /\ nth_error one 0 = Some (embedded (model_used model) text))
    /\ embedMany_naive texts model = Return (map Some vectors).
Proof.
  exists (map (embedded (model_used model)) texts).
  split; [apply generateEmbeddings_spec|].
  split; [apply length_map|].
  split; [intros i text H; now apply map_nth_error|].
  split.
  - intros text. exists [embedded (model_used model) text].
    split; [apply generateEmbeddings_spec|].
    split; [apply generateEmbedding_spec | reflexivity].
  - induction texts as [|text rest IH]; [reflexivity|].
    cbn [embedMany_naive]. rewrite generateEmbedding_spec, IH. reflexivity.
Qed.

End EmbedderFacts.

Lemma generateEmbeddings_one_per_text_witness :
  exists vectors,
    Embedder.generateEmbeddings
      (B := IntBackend)
      (fun _ batch => Return (map (fun t => [Z.of_nat (length t)]) batch))
      {| apiKey := lit "k"; embeddingModel := lit "m";
         chunkSize := 10; chunkOverlap := 2; topK := 5 |}
      [lit "a"; lit "bc"] None
    = Return vectors
    /\ length vectors = 2.
Proof.
  destruct (@generateEmbeddings_one_per_text
              IntBackend
              (fun _ batch =>
                 Return (map (fun t => [Z.of_nat (length t)]) batch))
              {| apiKey := lit "k"; embeddingModel := lit "m";
                 chunkSize := 10; chunkOverlap := 2; topK := 5 |}
              (fun _ t => [Z.of_nat (length t)])
              eq_refl
              (fun m batch _ _ => eq_refl)
              [lit "a"; lit "bc"] None)
    as (vectors & H1 & H2 & _).
  exists vectors. split; [exact H1 | exact H2].
Defined.

(** ** Vector store *)

Section StoreFacts.
Context {B : Backend}.
Import VectorStore VectorStore.Notations.

(** *** Running the monad *)

Lemma bind_return {A C} (m : DB A) (k : A -> DB C) c c1 a :
  m c = (c1, Return a) -> bind m k c = k a c1.
Proof. unfold bind. now intros ->. Qed.

Lemma bind_throw {A C} (m : DB A) (k : A -> DB C) c c1 e :
  m c = (c1, Throw e) -> bind m k c = (c1, Throw e).
Proof. unfold bind. now intros ->. Qed.

Lemma bind_hang {A C} (m : DB A) (k : A -> DB C) c c1 :
  m c = (c1, Hang) -> bind m k c = (c1, Hang).
Proof. unfold bind. now intros ->. Qed.

(** *** insertChunk *)

(** The vector of the chunk has the length the table declares. *)
Definition fits (dim : nat) (chunk : DocumentChunk) : bool :=
  match chunk_embedding chunk with
  | Some e => length e =? dim
  | None => true
  end.

(** [d'] is [d] after the two statements of [insertChunk]. *)
Definition stored_by (d : Database) (chunk : DocumentChunk)
           (d' : Database) : Prop :=
  dimension d' = dimension d
  /\ exists row,
      chunks d'
      = filter (fun r => negb (same_key (filePath chunk)
                                        (chunk_hash chunk) r))
               (chunks d) ++ [row]
      /\ file_path row = filePath chunk
      /\ content row = chunk_content chunk
      /\ hash row = chunk_hash chunk
      /\ match chunk_embedding chunk with
         | Some e =>
             exists r,
               vec_rowid row = Some r
               /\ vec_chunks d'
                  = vec_chunks d ++ [{| rowid := r; embedding := e |}]
         | None => vec_rowid row = None /\ vec_chunks d' = vec_chunks d
         end.

Lemma insertChunk_fits chunk c :
  fits (dimension (db c)) chunk = true ->
  exists c' i,
    insertChunk chunk c = (c', Return i)
    /\ stored_by (db c) chunk (db c')
    /\ in_transaction c' = in_transaction c
    /\ (in_transaction c = true -> committed c' = committed c).
Proof.
  unfold fits, insertChunk. intros Hfit.
  destruct (chunk_embedding chunk) as [e|] eqn:Ee.
  - unfold bind, Date_now, exec, insert_vec, ret, with_db; cbn.
    rewrite Hfit. cbn. do 2 eexists. split; [reflexivity|]. cbn.
    split; [|split; [reflexivity|]].
    + split; [reflexivity|]. eexists. split; [reflexivity|]. cbn.
      rewrite Ee. repeat split. eexists. split; reflexivity.
    + intros ->. reflexivity.
  - unfold bind, Date_now, exec, ret, with_db; cbn.
    do 2 eexists. split; [reflexivity|]. cbn.
    split; [|split; [reflexivity|]].
    + split; [reflexivity|]. eexists. split; [reflexivity|]. cbn.
      rewrite Ee. repeat split.
    + intros ->. reflexivity.
Qed.

Lemma insertChunk_refused chunk c :
  fits (dimension (db c)) chunk = false ->
  exists c',
    insertChunk chunk c = (c', Throw SqliteError)
    /\ db c' = db c
    /\ in_transaction c' = in_transaction c
    /\ committed c' = committed c.
Proof.
  unfold fits, insertChunk. intros Hfit.
  destruct (chunk_embedding chunk) as [e|] eqn:Ee; [|discriminate].
  unfold bind, Date_now, exec, insert_vec, ret, with_db; cbn.
  rewrite Hfit. cbn. eexists. split; [reflexivity|]. cbn. auto.
Qed.

(** The database holds the chunk: a row with its source, content and
    fingerprint which, when the chunk has a vector, refers to a row of
    the vector index that holds this vector. *)
Definition written (d : Database) (chunk : DocumentChunk) : Prop :=
  exists row,
    In row (chunks d)
    /\ file_path row = filePath chunk
    /\ content row = chunk_content chunk
    /\ hash row = chunk_hash chunk
    /\ match chunk_embedding chunk with
       | Some e =>
           exists r, vec_rowid row = Some r
                     /\ In {| rowid := r; embedding := e |} (vec_chunks d)
       | None => vec_rowid row = None
       end.

(** The database holds, under the source and fingerprint of the chunk, a
    chunk of the batch. (Two chunks of a batch with the same source and
    fingerprint share one row: the later replaces the earlier.) *)
Definition present (batch : list DocumentChunk) (d : Database)
           (chunk : DocumentChunk) : Prop :=
  exists chunk',
    In chunk' batch
    /\ filePath chunk' = filePath chunk
    /\ chunk_hash chunk' = chunk_hash chunk
    /\ written d chunk'.

Lemma stored_written d x d' : stored_by d x d' -> written d' x.
Proof.
  intros (_ & row & Hc & Hf & Hco & Hh & Hv).
  exists row. rewrite Hc. split; [apply in_or_app; right; now left|].
  repeat split; auto.
  destruct (chunk_embedding x) as [e|]; [|tauto].
  destruct Hv as (r & Hr & ->). exists r. split; [exact Hr|].
  apply in_or_app; right; now left.
Qed.

Lemma stored_keeps batch d x d' chunk :
  stored_by d x d' -> In x batch ->
  present batch d chunk -> present batch d' chunk.
Proof.
  intros Hst Hx (chunk' & Hin & Hf & Hh & row & Hrow & Rf & Rc & Rh & Rv).
  destruct (same_key (filePath x) (chunk_hash x) row) eqn:K.
  - unfold same_key in K. apply andb_true_iff in K as [K1 K2].
    apply str_eqb_eq in K1, K2.
    exists x. repeat split; try congruence.
    now apply stored_written with (d := d).
  - destruct Hst as (_ & new & Hc & _ & _ & _ & Hv).
    exists chunk'. repeat split; auto.
    exists row. split.
    { rewrite Hc. apply in_or_app; left. apply filter_In.
      split; [exact Hrow | now rewrite K]. }
    repeat split; auto.
    destruct (chunk_embedding chunk') as [e|]; [|exact Rv].
    destruct Rv as (r & Hr & Hvin). exists r. split; [exact Hr|].
    destruct (chunk_embedding x) as [e'|].
    + destruct Hv as (r' & _ & ->). apply in_or_app; now left.
    + destruct Hv as [_ ->]. exact Hvin.
Qed.

(** No statement of [insertChunk] deletes from [vec_chunks]. *)
Lemma insertChunk_keeps_vectors chunk c c' i :
  insertChunk chunk c = (c', Return i) ->
  incl (vec_chunks (db c)) (vec_chunks (db c')).
Proof.
  intros Hrun. destruct (fits (dimension (db c)) chunk) eqn:Hfit.
  - destruct (insertChunk_fits _ _ Hfit)
      as (c1 & i1 & Hrun1 & (_ & row & _ & _ & _ & _ & Hv) & _).
    rewrite Hrun in Hrun1. injection Hrun1 as <- <-.
    intros v Hin. destruct (chunk_embedding chunk).
    + destruct Hv as (r & _ & ->). apply in_or_app. now left.
    + destruct Hv as [_ ->]. exact Hin.
  - destruct (insertChunk_refused _ _ Hfit) as (c1 & Hrun1 & _).
    rewrite Hrun in Hrun1. discriminate.
Qed.

(** *** insertChunks *)

Lemma insert_loop batch chunks : forall c,
  in_transaction c = true ->
  incl chunks batch ->
  exists c' o,
    for_each chunks (fun chunk => insertChunk chunk ;;; ret tt) c = (c', o)
    /\ in_transaction c' = true
    /\ committed c' = committed c
    /\ if forallb (fits (dimension (db c))) chunks
       then o = Return tt
            /\ dimension (db c') = dimension (db c)
            /\ forall chunk,
                present batch (db c) chunk \/ In chunk chunks ->
                present batch (db c') chunk
       else o = Throw SqliteError.
Proof.
  induction chunks as [|x rest IH]; intros c Htx Hincl.
  - exists c, (Return tt). cbn. repeat split; auto. intros chunk [H|[]]; auto.
  - cbn [for_each forallb].
    destruct (fits (dimension (db c)) x) eqn:Hfit.
    + destruct (insertChunk_fits _ _ Hfit) as (c1 & i & Hrun & Hst & Ht & Hlog).
      rewrite Htx in Ht. specialize (Hlog Htx).
      destruct (IH c1) as (c' & o & Hrest & Ht' & Hlog' & Hres);
        [exact Ht | intros y Hy; apply Hincl; now right |].
      exists c', o.
      split.
      { rewrite (bind_return _ _ _ (c1 := c1) (a := tt)); [exact Hrest|].
        rewrite (bind_return _ _ _ Hrun). reflexivity. }
      split; [exact Ht'|]. split; [congruence|].
      destruct Hst as [Hdim Hst']. rewrite Hdim in Hres. cbn [andb].
      destruct (forallb (fits (dimension (db c))) rest); [|exact Hres].
      destruct Hres as (-> & Hdim' & Hall). split; [reflexivity|].
      split; [congruence|].
      assert (Hx : In x batch) by (apply Hincl; now left).
      assert (Hst : stored_by (db c) x (db c1)) by (split; assumption).
      intros chunk [Hp | [<- | Hin]]; apply Hall.
      * left. eapply stored_keeps; eauto.
      * left. exists x. repeat split; auto. eapply stored_written; eauto.
      * now right.
    + destruct (insertChunk_refused _ _ Hfit) as (c1 & Hrun & Hdb & Ht & Hlog).
      exists c1, (Throw SqliteError). cbn [andb].
      split.
      { apply bind_throw. now apply bind_throw. }
      repeat split; congruence.
Qed.

(** C4. [insertChunks], called outside a transaction, either throws and
    leaves the database and the committed snapshots as they were, or
    returns after a single commit, and then the database holds every
    chunk of the batch with its vector (under the source and fingerprint
    of two chunks of the batch that share them, the later one). It throws
    exactly when the vector of some chunk of the batch has not the
    declared length. *)
Theorem insertChunks_atomic (batch : list DocumentChunk) (c c' : Conn)
        (o : outcome unit) :
  in_transaction c = false ->
  insertChunks batch c = (c', o) ->
  match o with
  | Return _ =>
      committed c' = db c' :: committed c
      /\ forallb (fits (dimension (db c))) batch = true
      /\ (forall chunk, In chunk batch -> present batch (db c') chunk)
      /\ ((forall x y, In x batch -> In y batch ->
                       filePath x = filePath y ->
                       chunk_hash x = chunk_hash y -> x = y) ->
          forall chunk, In chunk batch -> written (db c') chunk)
  | Throw _ =>
      db c' = db c
      /\ committed c' = committed c
      /\ forallb (fits (dimension (db c))) batch = false
  | Hang => False
  end.
Proof.
  intros Htx. unfold insertChunks, transaction.
  set (c0 := {| db := db c; committed := committed c;
                in_transaction := true;
                clock := clock c; ticks := ticks c |}).
  destruct (@insert_loop batch batch c0 eq_refl (incl_refl _))
    as (c1 & o1 & Hrun & _ & _ & Hres).
  rewrite Hrun, Htx. change (db c0) with (db c) in Hres.
  destruct (forallb (fits (dimension (db c))) batch).
  - destruct Hres as (-> & _ & Hall). intros [= <- <-]. cbn.
    repeat split; auto.
    intros Hkeys chunk Hin.
    destruct (Hall chunk (or_intror Hin)) as (x & Hx & Hf & Hh & Hw).
    now rewrite <- (Hkeys x chunk Hx Hin Hf Hh).
  - rewrite Hres. intros [= <- <-]. cbn. auto.
Qed.

(** *** deleteChunksByFile *)

Lemma filter_filter {A} (f g : A -> bool) (l : list A) :
  filter f (filter g l) = filter (fun x => g x && f x) l.
Proof.
  induction l as [|x l IH]; simpl; [reflexivity|].
  destruct (g x); simpl; [destruct (f x)|]; now rewrite IH.
Qed.

Definition not_among (ids : list nat) (v : VecRow) : bool :=
  negb (existsb (Nat.eqb (rowid v)) ids).

Lemma delete_vec_loop ids : forall c,
  exists c',
    for_each ids (fun id => exec (delete_vec id)) c = (c', Return tt)
    /\ chunks (db c') = chunks (db c)
    /\ vec_chunks (db c') = filter (not_among ids) (vec_chunks (db c))
    /\ dimension (db c') = dimension (db c)
    /\ in_transaction c' = in_transaction c
    /\ (in_transaction c = true -> committed c' = committed c).
Proof.
  induction ids as [|id ids IH]; intros c.
  - exists c. cbn. repeat split; auto.
    unfold not_among; cbn. now rewrite filter_true.
  - set (c1 := fst (exec (delete_vec id) c)).
    destruct (IH c1) as (c' & Hrun & Hch & Hv & Hd & Ht & Hlog).
    exists c'. split; [|repeat split].
    + cbn [for_each]. erewrite bind_return; [exact Hrun|].
      reflexivity.
    + rewrite Hch. reflexivity.
    + rewrite Hv. cbn. rewrite filter_filter. apply filter_ext.
      intros v. unfold not_among. cbn. now rewrite negb_orb.
    + rewrite Hd. reflexivity.
    + rewrite Ht. reflexivity.
    + intros Htx. rewrite Hlog by (rewrite <- Htx; reflexivity).
      cbn. now rewrite Htx.
Qed.

(** What [deleteChunksByFile] does: it returns; the rows of the source
    are gone from [chunks] and the vectors they referred to are gone
    from [vec_chunks]; outside a transaction there are two commits, and
    the first snapshot still has every row of [chunks]. *)
Lemma deleteChunksByFile_run f c :
  exists c',
    deleteChunksByFile f c = (c', Return tt)
    /\ chunks (db c')
       = filter (fun row => negb (str_eqb (file_path row) f))
                (chunks (db c))
    /\ vec_chunks (db c')
       = filter (not_among (select_vec_rowids f (chunks (db c))))
                (vec_chunks (db c))
    /\ dimension (db c') = dimension (db c)
    /\ in_transaction c' = in_transaction c
    /\ (in_transaction c = false ->
        exists mid,
          committed c' = db c' :: mid :: committed c
          /\ chunks mid = chunks (db c)
          /\ vec_chunks mid = vec_chunks (db c')).
Proof.
  unfold deleteChunksByFile.
  set (ids := select_vec_rowids f (chunks (db c))).
  set (c0 := {| db := db c; committed := committed c;
                in_transaction := true;
                clock := clock c; ticks := ticks c |}).
  destruct (delete_vec_loop ids c0) as (c1 & Hrun & Hch & Hv & Hd & Ht & Hlog).
  unfold bind at 1. unfold query at 1. fold ids.
  unfold bind, transaction. fold c0. rewrite Hrun.
  unfold exec, delete_chunks, with_db. cbn.
  eexists. split; [reflexivity|]. cbn.
  split; [now rewrite Hch|]. split; [exact Hv|]. split; [exact Hd|].
  split; [reflexivity|].
  intros Htx. rewrite Htx. eexists. split; [reflexivity|].
  split; [exact Hch | reflexivity].
Qed.

Lemma select_vec_rowids_In f rows r :
  In r (select_vec_rowids f rows)
  <-> exists row, In row rows /\ file_path row = f
                  /\ vec_rowid row = Some r.
Proof.
  induction rows as [|row rows IH]; simpl.
  - split; [tauto | intros (? & [] & _)].
  - destruct (vec_rowid row) as [r'|] eqn:Ev.
    + destruct (str_eqb (file_path row) f) eqn:Ef.
      * apply str_eqb_eq in Ef. simpl. rewrite IH. split.
        -- intros [<- | (row' & H1 & H2)]; [exists row; auto|].
           exists row'; tauto.
        -- intros (row' & [<- | H1] & H2 & H3);
             [left; congruence | right; exists row'; auto].
      * apply str_eqb_neq in Ef. rewrite IH. split.
        -- intros (row' & H1 & H2); exists row'; tauto.
        -- intros (row' & [<- | H1] & H2 & H3);
             [congruence | exists row'; auto].
    + rewrite IH. split.
      * intros (row' & H1 & H2); exists row'; tauto.
      * intros (row' & [<- | H1] & H2 & H3);
          [congruence | exists row'; auto].
Qed.

(** *** similaritySearch *)

Definition closer (a b : SearchRow) : Prop :=
  sql_leb (distance a) (distance b) = true.

Lemma order_by_distance_perm l : Permutation (order_by_distance l) l.
Proof. apply sql_order_by_perm. Qed.

Lemma order_by_distance_sorted l : StronglySorted closer (order_by_distance l).
Proof. apply (sql_order_by_sorted distance l). Qed.

(** The vectors of the joined pairs have the length of [q]. *)
Definition fitting (q : list float) (joined : list (VecRow * ChunkRow))
  : Prop :=
  Forall (fun vc => length (embedding (fst vc)) = length q) joined.

Lemma rows_of_fitting q joined :
  fitting q joined -> rows_of (Some q) joined = inr (map (search_row q) joined).
Proof.
  induction 1 as [|vc rest Hvc _ IH]; [reflexivity|].
  cbn [rows_of row_of map]. apply Nat.eqb_eq in Hvc. now rewrite Hvc, IH.
Qed.

Lemma rows_of_inr q joined rows :
  rows_of q joined = inr rows ->
  (joined = [] /\ rows = [])
  \/ exists q', q = Some q' /\ fitting q' joined
                /\ rows = map (search_row q') joined.
Proof.
  destruct q as [q'|].
  - intros H. right. exists q'. split; [reflexivity|]. revert rows H.
    induction joined as [|vc rest IH]; intros rows.
    + intros [= <-]. split; [constructor | reflexivity].
    + cbn [rows_of row_of].
      destruct (length (embedding (fst vc)) =? length q') eqn:E;
        [|discriminate].
      destruct (rows_of (Some q') rest) as [e|rows']; [discriminate|].
      intros [= <-]. destruct (IH _ eq_refl) as [Hfit ->].
      apply Nat.eqb_eq in E. split; [now constructor | reflexivity].
  - destruct joined as [|vc rest]; [|discriminate].
    intros [= <-]. now left.
Qed.

Lemma rows_of_inl q joined e :
  rows_of q joined = inl e ->
  e = SqliteError /\ joined <> []
  /\ forall q', q = Some q' -> ~ fitting q' joined.
Proof.
  intros H. split; [|split].
  - induction joined as [|vc rest IH]; [discriminate|].
    cbn [rows_of] in H.
    destruct (row_of q vc) as [e'|row] eqn:Er.
    + injection H as <-. unfold row_of in Er. destruct q as [q'|].
      * destruct (_ =? _); [discriminate | now injection Er as <-].
      * now injection Er as <-.
    + destruct (rows_of q rest) as [e'|rows]; [|discriminate].
      injection H as <-. now apply IH.
  - intros ->. discriminate.
  - intros q' -> Hfit. rewrite (rows_of_fitting Hfit) in H. discriminate.
Qed.

Lemma in_join_tables d v ch :
  In (v, ch) (join_tables d)
  <-> In v (vec_chunks d) /\ In ch (chunks d)
      /\ vec_rowid ch = Some (rowid v).
Proof.
  unfold join_tables. rewrite in_flat_map. split.
  - intros (v' & Hv & Hin). apply in_map_iff in Hin as (c' & Heq & Hc).
    injection Heq as -> ->.
    apply filter_In in Hc as [Hc Hr]. repeat split; auto.
    unfold references in Hr. destruct (vec_rowid ch); [|discriminate].
    apply Nat.eqb_eq in Hr. now subst.
  - intros (Hv & Hc & Hr). exists v. split; [exact Hv|].
    apply in_map. apply filter_In. split; [exact Hc|].
    unfold references. rewrite Hr. apply Nat.eqb_refl.
Qed.

(** Every vector is referred to by one row of [chunks]. *)
Definition one_chunk_per_vector (d : Database) : bool :=
  forallb (fun v => length (filter (references v) (chunks d)) =? 1)
          (vec_chunks d).

Lemma length_join_tables d :
  one_chunk_per_vector d = true ->
  length (join_tables d) = length (vec_chunks d).
Proof.
  unfold one_chunk_per_vector, join_tables.
  induction (vec_chunks d) as [|v l IH]; [reflexivity|].
  cbn [forallb flat_map length]. intros H.
  apply andb_true_iff in H as [Hv Hl]. apply Nat.eqb_eq in Hv.
  rewrite length_app, length_map, Hv, IH by exact Hl. reflexivity.
Qed.

(** [results.map(row => ({..., similarity: 1 - row.distance}))]. *)
Definition to_context (row : SearchRow) : ContextChunk :=
  {| ctx_content := row_content row;
     ctx_filePath := row_file_path row;
     similarity := one_minus (distance row) |}.

Lemma select_nearest_joined q k d rows row :
  select_nearest q k d = inr rows -> In row rows ->
  exists q' v ch, q = Some q'
                  /\ In v (vec_chunks d) /\ In ch (chunks d)
                  /\ vec_rowid ch = Some (rowid v)
                  /\ row = search_row q' (v, ch).
Proof.
  unfold select_nearest. destruct (k =? 0); [intros [= <-] []|].
  destruct (rows_of q (join_tables d)) as [e|all] eqn:E; [discriminate|].
  intros [= <-] Hin.
  assert (Hin' : In row all).
  { apply (Permutation_in _ (order_by_distance_perm _)).
    rewrite <- (firstn_skipn k (order_by_distance _)).
    apply in_or_app. now left. }
  apply rows_of_inr in E as [[_ ->] | (q' & -> & _ & ->)]; [destruct Hin'|].
  apply in_map_iff in Hin' as ([v ch] & <- & Hj).
  apply in_join_tables in Hj. exists q', v, ch. tauto.
Qed.

Lemma rows_of_refused q joined :
  joined <> [] ->
  (forall q', q = Some q' -> ~ fitting q' joined) ->
  rows_of q joined = inl SqliteError.
Proof.
  intros Hne Hq. destruct (rows_of q joined) as [e|rows] eqn:E.
  - apply rows_of_inl in E as [-> _]. reflexivity.
  - apply rows_of_inr in E as [[-> _] | (q' & -> & Hfit & _)];
      [congruence|].
    now destruct (Hq q' eq_refl).
Qed.

(** The stored vectors have the length of [q]. *)
Definition stored_length (q : list float) (d : Database) : Prop :=
  Forall (fun v => length (embedding v) = length q) (vec_chunks d).

Lemma stored_length_fitting q d :
  stored_length q d -> fitting q (join_tables d).
Proof.
  unfold stored_length, fitting. rewrite !Forall_forall.
  intros H [v ch] Hin. apply in_join_tables in Hin as (Hv & _). cbn. auto.
Qed.

(** A search with a vector of the length of the joined ones returns the
    first [k] of the joined rows in the order of the engine. *)
Lemma similaritySearch_fitting q k c :
  fitting q (join_tables (db c)) ->
  similaritySearch (Some q) k c
  = (c, Return (map to_context
                    (firstn k (order_by_distance
                                 (map (search_row q)
                                      (join_tables (db c))))))).
Proof.
  intros Hfit. unfold similaritySearch, bind, select, ret, select_nearest.
  rewrite (rows_of_fitting Hfit).
  destruct (Nat.eqb_spec k 0) as [->|_]; reflexivity.
Qed.

(** A search leaves the connection as it is; when it returns, its
    results are those of the statement, and what it throws is the
    refusal of the statement. *)
Lemma similaritySearch_outcome q k c :
  match similaritySearch q k c with
  | (c', Return results) =>
      c' = c
      /\ exists rows, select_nearest q k (db c) = inr rows
                      /\ results = map to_context rows
  | (c', Throw e) =>
      c' = c /\ e = SqliteError /\ 0 < k /\ join_tables (db c) <> []
      /\ forall q', q = Some q' -> ~ fitting q' (join_tables (db c))
  | (c', Hang) => False
  end.
Proof.
  unfold similaritySearch, bind, select, ret.
  destruct (select_nearest q k (db c)) as [e|rows] eqn:E.
  - split; [reflexivity|]. unfold select_nearest in E.
    destruct (Nat.eqb_spec k 0) as [->|Hk]; [discriminate|].
    destruct (rows_of q (join_tables (db c))) as [e'|all] eqn:Er;
      [|discriminate].
    injection E as <-. apply rows_of_inl in Er as (He & Hne & Hq).
    repeat split; auto. lia.
  - split; [reflexivity|]. exists rows. auto.
Qed.

(** C5, amended. In a database where every vector is referred to by one
    row of [chunks], a search with a query vector of the length of the
    stored vectors returns [min(k, totalVectors)] results. They are the
    first [k] of the joined rows ranked by ascending distance to the
    query; each carries the content and source of a chunk and [1 -
    distance] of the vector this chunk refers to. *)
Theorem similaritySearch_nearest (c : Conn) (q : list float) (k : nat) :
  one_chunk_per_vector (db c) = true ->
  stored_length q (db c) ->
  exists ranked,
    similaritySearch (Some q) k c
    = (c, Return (map to_context (firstn k ranked)))
    /\ length (map to_context (firstn k ranked))
       = Nat.min k (length (vec_chunks (db c)))
    /\ Permutation ranked (map (search_row q) (join_tables (db c)))
    /\ StronglySorted closer ranked
    /\ (forall row, In row ranked ->
          exists v ch,
            In v (vec_chunks (db c)) /\ In ch (chunks (db c))
            /\ vec_rowid ch = Some (rowid v)
            /\ row_content row = content ch
            /\ row_file_path row = file_path ch
            /\ similarity (to_context row)
               = one_minus (vec_distance_cosine (embedding v) q)).
Proof.
  intros Hone Hlen.
  exists (order_by_distance (map (search_row q) (join_tables (db c)))).
  split; [apply similaritySearch_fitting, stored_length_fitting, Hlen|].
  split.
  { rewrite length_map, length_firstn.
    rewrite (Permutation_length (order_by_distance_perm _)).
    now rewrite length_map, length_join_tables. }
  split; [apply order_by_distance_perm|].
  split; [apply order_by_distance_sorted|].
  intros row Hin.
  apply (Permutation_in _ (order_by_distance_perm _)) in Hin.
  apply in_map_iff in Hin as ([v ch] & <- & Hj).
  apply in_join_tables in Hj. exists v, ch. cbn. tauto.
Qed.

(** After [deleteChunksByFile] no row, no vector and no search result of
    the source is left. *)
Lemma deleteChunksByFile_complete f c :
  exists c',
    deleteChunksByFile f c = (c', Return tt)
    /\ fileExists f c' = (c', Return false)
    /\ (forall row, In row (chunks (db c')) -> file_path row <> f)
    /\ (forall row r v,
          In row (chunks (db c)) -> file_path row = f ->
          vec_rowid row = Some r ->
          In v (vec_chunks (db c')) -> rowid v <> r)
    /\ (forall q k results,
          similaritySearch q k c' = (c', Return results) ->
          forall r, In r results -> ctx_filePath r <> f).
Proof.
  destruct (deleteChunksByFile_run f c) as (c' & Hrun & Hch & Hv & _).
  assert (Hgone : forall row, In row (chunks (db c')) -> file_path row <> f).
  { intros row Hin. rewrite Hch in Hin. apply filter_In in Hin as [_ Hne].
    apply str_eqb_neq. now destruct (str_eqb (file_path row) f). }
  exists c'. split; [exact Hrun|]. split; [|split; [exact Hgone|split]].
  - unfold fileExists, bind, query, ret, count_by_file.
    replace (filter _ (chunks (db c'))) with (@nil ChunkRow); [reflexivity|].
    symmetry. rewrite Hch, filter_filter. clear.
    induction (chunks (db c)) as [|row l IH]; [reflexivity|]. simpl.
    destruct (str_eqb (file_path row) f); simpl; exact IH.
  - intros row r v Hrow Hf Hr Hin Heq. rewrite Hv in Hin.
    apply filter_In in Hin as [_ Hn]. unfold not_among in Hn.
    apply negb_true_iff in Hn.
    assert (Hex : existsb (Nat.eqb (rowid v))
                          (select_vec_rowids f (chunks (db c))) = true).
    { apply existsb_exists. exists r. split; [|now apply Nat.eqb_eq].
      apply select_vec_rowids_In. exists row. auto. }
    congruence.
  - intros q k results Hrun' r Hin.
    pose proof (similaritySearch_outcome q k c') as Hout.
    rewrite Hrun' in Hout. destruct Hout as (_ & rows & Hsel & ->).
    apply in_map_iff in Hin as (row & <- & Hrow).
    destruct (@select_nearest_joined q k (db c') rows row Hsel Hrow)
      as (q' & v & ch & _ & _ & Hc & _ & ->).
    cbn. now apply Hgone.
Qed.

End StoreFacts.

(** *** On a database of one chunk *)

Definition sample_chunk (e : list Z) : VectorStore.DocumentChunk :=
  {| VectorStore.filePath := lit "a.txt";
     VectorStore.chunk_content := lit "hello";
     VectorStore.chunk_hash := lit "5d41";
     VectorStore.chunk_embedding := Some e |}.

(** The chunk of ["a.txt"] inserted into a new database of dimension 2. *)
Definition indexed_once : VectorStore.Conn :=
  fst (VectorStore.insertChunk
         (sample_chunk [1; 0]%Z)
         (VectorStore.connect (VectorStore.initTables 2) (fun n => n))).

(** The same chunk, with another vector, inserted again. *)
Definition indexed_twice : VectorStore.Conn :=
  fst (VectorStore.insertChunk (sample_chunk [0; 1]%Z) indexed_once).

(** C1. Inserting a chunk whose source and fingerprint are in the
    database replaces the row of [chunks]: one row is left, and it refers
    to the new vector 2. The vector 1 of the replaced row is still in
    [vec_chunks], and no row of [chunks] refers to it. *)
Theorem insertChunk_replace_leaves_vector :
  VectorStore.count_by_file (lit "a.txt") (VectorStore.db indexed_once) = 1
  /\ snd (VectorStore.insertChunk (sample_chunk [0; 1]%Z) indexed_once)
     = Return 2
  /\ map (fun r => (VectorStore.file_path r, VectorStore.hash r,
                    VectorStore.vec_rowid r))
         (VectorStore.chunks (VectorStore.db indexed_twice))
     = [(lit "a.txt", lit "5d41", Some 2)]
  /\ VectorStore.vec_chunks (VectorStore.db indexed_twice)
     = [ {| VectorStore.rowid := 1; VectorStore.embedding := [1; 0]%Z |};
         {| VectorStore.rowid := 2; VectorStore.embedding := [0; 1]%Z |} ]
  /\ filter (fun v => negb (existsb (VectorStore.references v)
                              (VectorStore.chunks
                                 (VectorStore.db indexed_twice))))
            (VectorStore.vec_chunks (VectorStore.db indexed_twice))
     = [ {| VectorStore.rowid := 1; VectorStore.embedding := [1; 0]%Z |} ].
Proof. repeat split; vm_compute; reflexivity. Qed.

(** C2. [deleteChunksByFile] on the database of one chunk, outside a
    transaction, commits twice. The first snapshot, which every reader of
    the file sees until the second statement is committed, has lost the
    vector and still has the row of ["a.txt"], whose [vec_rowid] refers
    to no vector. *)
Theorem deleteChunksByFile_commits_twice :
  let c := VectorStore.connect (VectorStore.db indexed_once) (fun n => n) in
  let c' := fst (VectorStore.deleteChunksByFile (lit "a.txt") c) in
  VectorStore.committed c = []
  /\ exists done mid,
      VectorStore.committed c' = [done; mid]
      /\ VectorStore.chunks done = [] /\ VectorStore.vec_chunks done = []
      /\ VectorStore.count_by_file (lit "a.txt") mid = 1
      /\ map (@VectorStore.vec_rowid) (VectorStore.chunks mid) = [Some 1]
      /\ VectorStore.vec_chunks mid = [].
Proof.
  cbv zeta. split; [reflexivity|].
  do 2 eexists. split; [vm_compute; reflexivity|].
  repeat split; reflexivity.
Qed.

(** A batch whose second chunk has a vector of length 3. *)
Definition refused_batch : list VectorStore.DocumentChunk :=
  [ sample_chunk [1; 0]%Z;
    {| VectorStore.filePath := lit "b.txt";
       VectorStore.chunk_content := lit "world";
       VectorStore.chunk_hash := lit "7d79";
       VectorStore.chunk_embedding := Some [1; 2; 3]%Z |} ].

Lemma insertChunks_atomic_witness :
  let c := VectorStore.connect (VectorStore.initTables 2) (fun n => n) in
  let c' := fst (VectorStore.insertChunks refused_batch c) in
  VectorStore.db c' = VectorStore.db c
  /\ VectorStore.committed c' = VectorStore.committed c
  /\ forallb (fits 2) refused_batch = false.
Proof.
  exact (@insertChunks_atomic
           IntBackend refused_batch
           (VectorStore.connect (VectorStore.initTables 2) (fun n => n))
           _ _ eq_refl (surjective_pairing _)).
Defined.

(** The number of results as the design document states it. *)
Definition search_count_claim (c : VectorStore.Conn) (q : list Z) (k : nat)
  : Prop :=
  forall results,
    VectorStore.similaritySearch (Some q) k c = (c, Return results) ->
    length results
    = Nat.min k (length (VectorStore.vec_chunks (VectorStore.db c))).

(** C5, as stated, fails: after the second insertion [vec_chunks] holds
    two vectors and the join with [chunks] one row; a search for five
    results returns one. *)
Lemma similaritySearch_count_fails :
  ~ search_count_claim indexed_twice [0; 1]%Z 5.
Proof.
  intros H. specialize (H _ eq_refl). vm_compute in H. discriminate.
Qed.

(** A chunk of a second source, ["b.txt"], and the database of one chunk
    with it inserted. *)
Definition other_chunk : VectorStore.DocumentChunk :=
  {| VectorStore.filePath := lit "b.txt";
     VectorStore.chunk_content := lit "world";
     VectorStore.chunk_hash := lit "7d79";
     VectorStore.chunk_embedding := Some [0; 2]%Z |}.

Definition indexed_both : VectorStore.Conn :=
  fst (VectorStore.insertChunk other_chunk indexed_once).

Lemma similaritySearch_nearest_witness :
  exists results,
    VectorStore.similaritySearch (Some [0; 1]%Z) 5 indexed_both
    = (indexed_both, Return results)
    /\ results
       = [{| VectorStore.ctx_content := lit "world";
             VectorStore.ctx_filePath := lit "b.txt";
             VectorStore.similarity := 0%Z |};
          {| VectorStore.ctx_content := lit "hello";
             VectorStore.ctx_filePath := lit "a.txt";
             VectorStore.similarity := (-1)%Z |}]
    /\ length results = 2.
Proof.
  destruct (@similaritySearch_nearest IntBackend indexed_both [0; 1]%Z 5)
    as (ranked & H1 & H2 & _).
  - reflexivity.
  - repeat constructor.
  - exists (map to_context (firstn 5 ranked)).
    split; [exact H1|]. split; [|exact H2].
    assert (E : VectorStore.similaritySearch (Some [0; 1]%Z) 5 indexed_both
                = (indexed_both,
                   Return
                     [{| VectorStore.ctx_content := lit "world";
                         VectorStore.ctx_filePath := lit "b.txt";
                         VectorStore.similarity := 0%Z |};
                      {| VectorStore.ctx_content := lit "hello";
                         VectorStore.ctx_filePath := lit "a.txt";
                         VectorStore.similarity := (-1)%Z |}]))
      by (vm_compute; reflexivity).
    exact (f_equal (fun run => match snd run with
                               | Return results => results
                               | _ => []
                               end)
                   (eq_trans (eq_sym H1) E)).
Defined.

(** ** Query engine *)

(** The citations in the words of the design document: the distinct
    sources, each where it first occurs. *)
Fixpoint first_occurrences (l : list jsstring) : list jsstring :=
  match l with
  | [] => []
  | x :: rest =>
      x :: filter (fun y => negb (str_eqb y x)) (first_occurrences rest)
  end.

Lemma first_occurrences_In l x : In x (first_occurrences l) <-> In x l.
Proof.
  induction l as [|y l IH]; simpl; [tauto|].
  rewrite filter_In, IH. split.
  - intros [-> | [H _]]; auto.
  - intros [-> | H]; auto.
    destruct (str_eqb x y) eqn:E; [left; symmetry; now apply str_eqb_eq|].
    right. split; [exact H | reflexivity].
Qed.

Lemma NoDup_filter {A} (f : A -> bool) (l : list A) :
  NoDup l -> NoDup (filter f l).
Proof.
  induction 1 as [|x l Hx Hl IH]; simpl; [constructor|].
  destruct (f x); [constructor|]; auto.
  rewrite filter_In. tauto.
Qed.

Lemma first_occurrences_NoDup l : NoDup (first_occurrences l).
Proof.
  induction l as [|x l IH]; simpl; constructor.
  - rewrite filter_In, str_eqb_refl. intros [_ H]. discriminate.
  - now apply NoDup_filter.
Qed.

Lemma JsSet_fold l : forall acc,
  fold_left JsSet.add l acc
  = acc ++ filter (fun y => negb (JsSet.has acc y)) (first_occurrences l).
Proof.
  induction l as [|x l IH]; intros acc; simpl.
  - now rewrite app_nil_r.
  - rewrite IH. unfold JsSet.add. destruct (JsSet.has acc x) eqn:E; simpl.
    + f_equal. rewrite filter_filter. apply filter_ext_in.
      intros y _. destruct (str_eqb y x) eqn:Ey; simpl; [|reflexivity].
      apply str_eqb_eq in Ey. subst. now rewrite E.
    + rewrite <- app_assoc. simpl. do 2 f_equal.
      rewrite filter_filter. apply filter_ext.
      intros y. unfold JsSet.has. rewrite existsb_app. simpl.
      now rewrite orb_false_r, negb_orb, andb_comm.
Qed.

(** [[...new Set(l)]] lists the distinct values of [l] where they first
    occur. *)
Lemma JsSet_of_list_spec l : JsSet.of_list l = first_occurrences l.
Proof.
  unfold JsSet.of_list. rewrite JsSet_fold. simpl. apply filter_true.
Qed.

Lemma map_indexed_from_nth {A C} (f : A -> nat -> C) l :
  forall k i,
    nth_error (map_indexed_from f k l) i
    = option_map (fun x => f x (k + i)) (nth_error l i).
Proof.
  induction l as [|x l IH]; intros k [|i]; simpl; auto.
  - now rewrite Nat.add_0_r.
  - rewrite IH. now rewrite Nat.add_succ_r.
Qed.

Lemma map_indexed_from_length {A C} (f : A -> nat -> C) l :
  forall k, length (map_indexed_from f k l) = length l.
Proof. induction l; intros k; simpl; auto. Qed.

Section QueryFacts.
Context {B : Backend}.
Import VectorStore VectorStore.Notations.
Variable embeddings_create
  : jsstring -> list jsstring -> outcome (list (list float)).
Variable merged : RagConfig.

(** The block of the chunk at rank [i], counted from one. *)
Definition block (i : nat) (chunk : ContextChunk) : jsstring :=
  lit "[" ++ Number_toString i ++ lit "] " ++ ctx_content chunk.

Lemma contextText_of_spec (contextChunks : list ContextChunk) :
  exists blocks,
    Query.contextText_of contextChunks = join [10%N; 10%N] blocks
    /\ length blocks = length contextChunks
    /\ forall i chunk,
        nth_error contextChunks i = Some chunk ->
        nth_error blocks i = Some (block (S i) chunk).
Proof.
  exists (map_indexed (@Query.label B) contextChunks).
  split; [reflexivity|]. split; [apply map_indexed_from_length|].
  intros i chunk H. unfold map_indexed.
  rewrite map_indexed_from_nth, H. simpl.
  unfold Query.label, block. now rewrite Nat.add_1_r.
Qed.

Lemma citations_of_spec (contextChunks : list ContextChunk) :
  Query.citations_of contextChunks
  = first_occurrences (map (@ctx_filePath _) contextChunks).
Proof. apply JsSet_of_list_spec. Qed.

(** C9. A result of [queryRag] holds the chunks of one search of the
    store, which it leaves as it was; its text is the blocks ["[i] " ++
    content] of these chunks, in rank order from [i = 1], joined by a
    blank line; its citations are their distinct sources, each where it
    first occurs. *)
Theorem queryRag_context_and_citations
        (question : jsstring) (options_topK : option nat)
        (c c' : Conn) (r : Query.QueryResult) :
  Query.queryRag embeddings_create merged question options_topK c
  = (c', Return r) ->
  c' = c
  /\ (exists q k, similaritySearch q k c = (c, Return (Query.context r)))
  /\ (exists blocks,
        Query.text r = join [10%N; 10%N] blocks
        /\ length blocks = length (Query.context r)
        /\ forall i chunk,
            nth_error (Query.context r) i = Some chunk ->
            nth_error blocks i = Some (block (S i) chunk))
  /\ Query.citations r
     = first_occurrences (map (@ctx_filePath _) (Query.context r))
  /\ NoDup (Query.citations r)
  /\ (forall p, In p (Query.citations r)
                <-> exists chunk, In chunk (Query.context r)
                                  /\ ctx_filePath chunk = p).
Proof.
  unfold Query.queryRag. unfold bind at 1, lift at 1.
  destruct (Config.getConfig merged) as [config| |]; try discriminate.
  unfold bind at 1, lift at 1.
  destruct (Embedder.generateEmbedding _ _ _ _) as [q| |];
    try discriminate.
  set (k := match options_topK with Some (S k) => S k | _ => topK config end).
  unfold bind at 1.
  pose proof (similaritySearch_outcome q k c) as Hout.
  destruct (similaritySearch q k c) as [c1 [results| |]] eqn:Hsearch;
    try discriminate.
  destruct Hout as [-> _].
  unfold bind, close, ret.
  intros [= <- <-]. cbn [Query.text Query.context Query.citations].
  split; [reflexivity|].
  split; [exists q, k; exact Hsearch|].
  split; [apply contextText_of_spec|].
  rewrite citations_of_spec.
  split; [reflexivity|]. split; [apply first_occurrences_NoDup|].
  intros p. rewrite first_occurrences_In, in_map_iff.
  split; intros (chunk & H1 & H2); exists chunk; auto.
Qed.

(** With an API key and an endpoint that answers with vectors of the
    length of the stored ones, [queryRag] returns. *)
Lemma queryRag_returns (api_embed : jsstring -> jsstring -> list float)
      (question : jsstring) (options_topK : option nat) (c : Conn) :
  truthy (apiKey merged) = true ->
  answers_in_order embeddings_create api_embed Embedder.BATCH_SIZE ->
  fitting (embedded api_embed (model_used merged None) question)
          (join_tables (db c)) ->
  exists r,
    Query.queryRag embeddings_create merged question options_topK c
    = (c, Return r).
Proof.
  intros Hkey Hapi Hfit. unfold Query.queryRag.
  unfold bind at 1, lift at 1. unfold Config.getConfig at 1. rewrite Hkey.
  unfold bind at 1, lift at 1.
  rewrite (@generateEmbedding_spec B embeddings_create merged api_embed
                                   Hkey Hapi).
  unfold bind at 1. rewrite (similaritySearch_fitting _ _ Hfit).
  eexists. reflexivity.
Qed.

End QueryFacts.

Lemma Number_toString_12 : Number_toString 12 = lit "12".
Proof. reflexivity. Qed.

Lemma queryRag_context_and_citations_witness :
  exists r,
    snd (Query.queryRag
           (B := IntBackend)
           (fun _ batch => Return (map (fun _ => [0; 1]%Z) batch))
           {| apiKey := lit "k"; embeddingModel := lit "m";
              chunkSize := 10; chunkOverlap := 2; topK := 5 |}
           (lit "hello?") None indexed_twice)
    = Return r
    /\ Query.text r = lit "[1] hello"
    /\ Query.citations r = [lit "a.txt"]
    /\ NoDup (Query.citations r).
Proof.
  assert (E : exists c' r,
             Query.queryRag
               (B := IntBackend)
               (fun _ batch => Return (map (fun _ => [0; 1]%Z) batch))
               {| apiKey := lit "k"; embeddingModel := lit "m";
                  chunkSize := 10; chunkOverlap := 2; topK := 5 |}
               (lit "hello?") None indexed_twice
             = (c', Return r)
             /\ Query.text r = lit "[1] hello"
             /\ Query.citations r = [lit "a.txt"]).
  { do 2 eexists. split; [vm_compute; reflexivity|]. split; reflexivity. }
  destruct E as (c' & r & E & Ht & Hc).
  destruct (queryRag_context_and_citations _ _ _ _ _ E)
    as (_ & _ & _ & _ & Hnd & _).
  exists r. rewrite E. repeat split; assumption.
Defined.

(** ** Indexing pipeline *)

Section IndexerFacts.
Context {B : Backend}.
Import VectorStore VectorStore.Notations.
Variable embeddings_create
  : jsstring -> list jsstring -> outcome (list (list float)).
Variable merged : RagConfig.
Variable fs : FileSystem.

(** No row of [chunks] belongs to the source. *)
Definition absent (s : jsstring) (d : Database) : Prop :=
  forall row, In row (chunks d) -> file_path row <> s.

Lemma absent_fileExists s c :
  absent s (db c) -> fileExists s c = (c, Return false).
Proof.
  intros H. unfold fileExists, bind, query, ret, count_by_file.
  replace (filter _ (chunks (db c))) with (@nil ChunkRow); [reflexivity|].
  symmetry. unfold absent in H.
  induction (chunks (db c)) as [|row l IH]; [reflexivity|]. simpl.
  destruct (str_eqb (file_path row) s) eqn:E.
  - apply str_eqb_eq in E. exfalso. apply (H row); [now left | exact E].
  - apply IH. intros r Hr. apply H. now right.
Qed.

Lemma deleteChunksByFile_absent f c :
  exists c',
    deleteChunksByFile f c = (c', Return tt)
    /\ absent f (db c')
    /\ forall s, absent s (db c) -> absent s (db c').
Proof.
  destruct (deleteChunksByFile_run f c) as (c' & Hrun & Hch & _).
  exists c'. split; [exact Hrun|]. unfold absent. rewrite Hch. split.
  - intros row Hin. apply filter_In in Hin as [_ Hne].
    apply str_eqb_neq. now destruct (str_eqb (file_path row) f).
  - intros s Hs row Hin. apply filter_In in Hin as [Hin _]. auto.
Qed.

(** The rows after a run of the insertion loop are rows of before or
    rows of the chunks it went through. *)
Lemma insert_loop_rows chunks : forall c c' o,
  for_each chunks (fun chunk => insertChunk chunk ;;; ret tt) c = (c', o) ->
  o = Return tt ->
  forall row, In row (VectorStore.chunks (db c')) ->
              In row (VectorStore.chunks (db c))
              \/ exists x, In x chunks /\ file_path row = filePath x.
Proof.
  induction chunks as [|x rest IH]; intros c c' o Hrun Ho row Hin.
  - cbn in Hrun. injection Hrun as <- _. now left.
  - cbn [for_each] in Hrun.
    destruct (fits (dimension (db c)) x) eqn:Hfit.
    + destruct (insertChunk_fits _ _ Hfit)
        as (c1 & i & Hx & (_ & new & Hc & Hf & _) & _).
      rewrite (bind_return _ _ _ (c1 := c1) (a := tt)) in Hrun
        by (rewrite (bind_return _ _ _ Hx); reflexivity).
      destruct (IH _ _ _ Hrun Ho row Hin) as [H1 | (y & Hy & Hrow)].
      * rewrite Hc in H1. apply in_app_or in H1 as [H1 | [<- | []]].
        -- left. now apply filter_In in H1.
        -- right. exists x. split; [now left | exact Hf].
      * right. exists y. split; [now right | exact Hrow].
    + destruct (insertChunk_refused _ _ Hfit) as (c1 & Hx & _).
      rewrite (bind_throw _ _ _ (c1 := c1) (e := SqliteError)) in Hrun
        by (now apply bind_throw).
      injection Hrun as _ <-. discriminate.
Qed.

Lemma insertChunks_rows batch c c' o :
  insertChunks batch c = (c', o) ->
  forall row, In row (chunks (db c')) ->
              In row (chunks (db c))
              \/ exists x, In x batch /\ file_path row = filePath x.
Proof.
  unfold insertChunks, transaction.
  destruct (for_each batch _ _) as [c1 o1] eqn:Hrun.
  destruct o1 as [[]| |]; intros [= <- <-] row Hin; cbn in Hin; auto.
  apply (insert_loop_rows _ _ Hrun eq_refl) in Hin. exact Hin.
Qed.

Lemma map_indexed_from_In {A C} (f : A -> nat -> C) l y :
  forall k, In y (map_indexed_from f k l) ->
            exists x i, In x l /\ y = f x i.
Proof.
  induction l as [|x l IH]; intros k; simpl; [tauto|].
  intros [<- | H].
  - exists x, k. auto.
  - destruct (IH _ H) as (x' & i & Hx & ->). exists x', i. auto.
Qed.

Lemma chunk_embed_insert_absent config filePath relativePath c c' o s :
  Indexer.chunk_embed_insert embeddings_create merged fs config
                             filePath relativePath c = (c', o) ->
  relativePath <> s ->
  absent s (db c) -> absent s (db c').
Proof.
  unfold Indexer.chunk_embed_insert, bind, lift, ret.
  destruct (readFileSync fs filePath) as [content| |];
    try (intros [= <- _]; auto; fail).
  destruct (Indexer.call_chunkText content config) as [pieces| |];
    try (intros [= <- _]; auto; fail).
  destruct (length pieces =? 0); [intros [= <- _]; auto|].
  destruct (Embedder.generateEmbeddings _ _ _ _) as [embeddings| |];
    try (intros [= <- _]; auto; fail).
  destruct (insertChunks _ c) as [c1 o1] eqn:Hins.
  intros Hrun Hne Habs.
  assert (Hc1 : absent s (db c1)).
  { intros row Hin.
    destruct (insertChunks_rows _ _ Hins row Hin) as [H | (x & Hx & Hrow)];
      [now apply Habs|].
    apply map_indexed_from_In in Hx as (piece & i & _ & ->).
    cbn in Hrow. congruence. }
  destruct o1; injection Hrun as <- _; exact Hc1.
Qed.

(** A whitespace-only file that fits in one chunk is skipped at
    [if (chunks.length === 0) continue]: nothing is embedded or stored. *)
Lemma chunk_embed_insert_skips_blank config filePath relativePath content c :
  readFileSync fs filePath = Return content ->
  blank content = true ->
  length content <= chunkSize config ->
  Indexer.chunk_embed_insert embeddings_create merged fs config
                             filePath relativePath c = (c, Return None).
Proof.
  intros Hread Hblank Hlen.
  unfold Indexer.chunk_embed_insert, bind, lift, ret. rewrite Hread.
  unfold Indexer.call_chunkText.
  now rewrite (chunkText_blank_fits _ (chunkOverlap config) Hblank Hlen).
Qed.

(** A source of the index whose file is gone. *)
Definition removed (s : jsstring) : bool :=
  negb (existsSync fs (join_cwd fs s)).

Lemma remove_deleted_loop_spec existing : forall n c,
  exists c',
    Indexer.remove_deleted_loop fs existing n c
    = (c', Return (n + length (filter removed existing)))
    /\ (forall s, absent s (db c) -> absent s (db c'))
    /\ (forall s, In s existing -> removed s = true -> absent s (db c')).
Proof.
  induction existing as [|f rest IH]; intros n c.
  - exists c. cbn. rewrite Nat.add_0_r. repeat split; auto.
    intros s [].
  - cbn [Indexer.remove_deleted_loop filter]. fold (removed f).
    destruct (removed f) eqn:Ef.
    + destruct (deleteChunksByFile_absent f c) as (c1 & Hdel & Hf & Hkeep).
      destruct (IH (S n) c1) as (c' & Hrun & Hkeep' & Hgone).
      exists c'. rewrite (bind_return _ _ _ Hdel), Hrun.
      cbn [length]. rewrite Nat.add_succ_r. split; [reflexivity|].
      split; [auto|].
      intros s [<- | Hin] Hs; auto.
    + destruct (IH n c) as (c' & Hrun & Hkeep' & Hgone).
      exists c'. split; [exact Hrun|]. split; [exact Hkeep'|].
      intros s [<- | Hin] Hs; [congruence | auto].
Qed.

Lemma reindex_loop_spec config existing files :
  forall u t c c' u' t',
    Indexer.reindex_loop embeddings_create merged fs config existing
                         files u t c = (c', Return (u', t')) ->
    u <= u'
    /\ forall s,
        (forall f, In f files -> existsSync fs f = true ->
                   relative_to_cwd fs f <> s) ->
        absent s (db c) -> absent s (db c').
Proof.
  induction files as [|f rest IH]; intros u t c c' u' t' Hrun.
  - cbn in Hrun. injection Hrun as <- <- <-. auto.
  - cbn [Indexer.reindex_loop] in Hrun.
    unfold bind at 1 in Hrun. unfold lift at 1, Indexer.statSync in Hrun.
    destruct (existsSync fs f) eqn:Ex; [|discriminate].
    set (rel := relative_to_cwd fs f) in *.
    assert (Hupd : negb
              (if negb (negb (JsSet.has existing rel))
                    && JsSet.has existing rel
               then true else negb (JsSet.has existing rel)) = false)
      by (destruct (JsSet.has existing rel); reflexivity).
    rewrite Hupd in Hrun. clear Hupd.
    unfold bind at 1 in Hrun.
    destruct ((if JsSet.has existing rel
               then deleteChunksByFile rel else ret tt) c)
      as [c1 o1] eqn:Hdel.
    assert (Hc1 : o1 = Return tt
                  /\ forall s, absent s (db c) -> absent s (db c1)).
    { destruct (JsSet.has existing rel).
      - destruct (deleteChunksByFile_absent rel c) as (c2 & H2 & _ & Hk).
        rewrite H2 in Hdel. injection Hdel as <- <-. auto.
      - cbn in Hdel. injection Hdel as <- <-. auto. }
    destruct Hc1 as [-> Hk1].
    unfold bind at 1 in Hrun.
    destruct (Indexer.chunk_embed_insert _ _ _ _ _ _ c1)
      as [c2 o2] eqn:Hins.
    assert (Hk2 : forall s, rel <> s -> absent s (db c1) -> absent s (db c2))
      by (intros s; apply (chunk_embed_insert_absent _ _ _ Hins)).
    destruct o2 as [[n|]| |]; try discriminate.
    + destruct (IH _ _ _ _ _ _ Hrun) as [Hle Hk3]. split; [lia|].
      intros s Hs Ha.
      apply Hk3; [intros f0 Hf0 He; apply Hs; [now right | exact He]|].
      apply Hk2; [apply Hs; [now left | exact Ex]|]. auto.
    + destruct (IH _ _ _ _ _ _ Hrun) as [Hle Hk3]. split; [lia|].
      intros s Hs Ha.
      apply Hk3; [intros f0 Hf0 He; apply Hs; [now right | exact He]|].
      apply Hk2; [apply Hs; [now left | exact Ex]|]. auto.
Qed.

Lemma has_In (l : list jsstring) x : JsSet.has l x = true <-> In x l.
Proof.
  unfold JsSet.has. rewrite existsb_exists. split.
  - intros (y & Hy & E). apply str_eqb_eq in E. now subst.
  - intros H. exists x. split; [exact H | apply str_eqb_refl].
Qed.

Lemma select_distinct_files_In d s :
  In s (select_distinct_files d)
  <-> exists row, In row (chunks d) /\ file_path row = s.
Proof.
  unfold select_distinct_files. rewrite sql_distinct_In, in_map_iff.
  split; intros (row & H1 & H2); exists row; auto.
Qed.

Lemma select_distinct_files_NoDup d : NoDup (select_distinct_files d).
Proof. apply sql_distinct_NoDup. Qed.

Lemma first_occurrences_NoDup_id l :
  NoDup l -> first_occurrences l = l.
Proof.
  induction 1 as [|x l Hx Hl IH]; simpl; [reflexivity|].
  rewrite IH. f_equal. apply forallb_filter_id. apply forallb_forall.
  intros y Hy. apply negb_true_iff. apply str_eqb_neq. congruence.
Qed.

(** Files that the walk finds are, for [path.join(process.cwd(),
    path.relative(process.cwd(), p))], the files they are for [p]. *)
Definition paths_agree : Prop :=
  forall f, In f (found_files fs) -> existsSync fs f = true ->
            existsSync fs (join_cwd fs (relative_to_cwd fs f)) = true.

(** *** The pipeline returns

    With an API key, an endpoint that answers in order with vectors of the
    declared length, [chunkOverlap < chunkSize] and files that exist and
    can be read, nothing throws and every loop ends. *)
Section Returns.
Variable api_embed : jsstring -> jsstring -> list float.
Variable dim : nat.
Hypothesis has_key : truthy (apiKey merged) = true.
Hypothesis in_order :
  answers_in_order embeddings_create api_embed Embedder.BATCH_SIZE.
Hypothesis right_length : forall m t, length (api_embed m t) = dim.
Hypothesis overlap_below_size : chunkOverlap merged < chunkSize merged.
Hypothesis files_exist :
  forall f, In f (found_files fs) -> existsSync fs f = true.
Hypothesis files_readable :
  forall f, In f (found_files fs) ->
            exists content, readFileSync fs f = Return content.

Lemma insertChunks_returns batch c :
  forallb (fits (dimension (db c))) batch = true ->
  exists c',
    insertChunks batch c = (c', Return tt)
    /\ dimension (db c') = dimension (db c).
Proof.
  intros Hfits. unfold insertChunks, transaction.
  set (c0 := {| db := db c; committed := committed c;
                in_transaction := true;
                clock := clock c; ticks := ticks c |}).
  destruct (@insert_loop B batch batch c0 eq_refl (incl_refl _))
    as (c1 & o1 & Hrun & _ & _ & Hres).
  rewrite Hrun. change (db c0) with (db c) in Hres. rewrite Hfits in Hres.
  destruct Hres as (-> & Hdim & _). eexists. split; [reflexivity|].
  exact Hdim.
Qed.

Lemma chunk_embed_insert_returns f rel c :
  In f (found_files fs) -> dimension (db c) = dim ->
  exists c' n,
    Indexer.chunk_embed_insert embeddings_create merged fs merged f rel c
    = (c', Return n)
    /\ dimension (db c') = dim.
Proof.
  intros Hf Hdim. unfold Indexer.chunk_embed_insert, bind, lift, ret.
  destruct (files_readable f Hf) as [content ->].
  unfold Indexer.call_chunkText.
  destruct (@chunkText_total content _ _ overlap_below_size)
    as (pieces & -> & _).
  destruct (length pieces =? 0); [now exists c, None|].
  rewrite (@generateEmbeddings_spec B embeddings_create merged api_embed
                                    has_key in_order).
  match goal with
  | |- context [insertChunks ?batch c] =>
      destruct (@insertChunks_returns batch c) as (c' & -> & Hdim')
  end.
  - apply forallb_forall. intros x Hx.
    apply map_indexed_from_In in Hx as (piece & i & _ & ->).
    unfold fits. cbn [chunk_embedding].
    destruct (nth_error _ i) as [e|] eqn:Ee; [|reflexivity].
    apply nth_error_In, in_map_iff in Ee as (p' & <- & _).
    apply Nat.eqb_eq. unfold embedded. rewrite length_map. congruence.
  - eexists _, _. split; [reflexivity | congruence].
Qed.

Lemma remove_deleted_loop_dimension existing : forall n c c' o,
  Indexer.remove_deleted_loop fs existing n c = (c', o) ->
  dimension (db c') = dimension (db c).
Proof.
  induction existing as [|f rest IH]; intros n c c' o Hrun.
  - cbn in Hrun. now injection Hrun as <- _.
  - cbn [Indexer.remove_deleted_loop] in Hrun.
    destruct (negb (existsSync fs (join_cwd fs f))).
    + destruct (deleteChunksByFile_run f c) as (c1 & Hdel & _ & _ & Hd & _).
      rewrite (bind_return _ _ _ Hdel) in Hrun.
      rewrite (IH _ _ _ _ Hrun). exact Hd.
    + now apply IH in Hrun.
Qed.

Lemma reindex_loop_returns existing files :
  incl files (found_files fs) ->
  forall u t c,
    dimension (db c) = dim ->
    exists c' counts,
      Indexer.reindex_loop embeddings_create merged fs merged existing
                           files u t c = (c', Return counts).
Proof.
  induction files as [|f rest IH]; intros Hincl u t c Hdim.
  - now exists c, (u, t).
  - assert (Hf : In f (found_files fs)) by (apply Hincl; now left).
    assert (Hrest : incl rest (found_files fs))
      by (intros x Hx; apply Hincl; now right).
    cbn [Indexer.reindex_loop].
    unfold bind at 1. unfold lift at 1, Indexer.statSync.
    rewrite (files_exist f Hf).
    set (rel := relative_to_cwd fs f).
    assert (Hupd : negb
              (if negb (negb (JsSet.has existing rel))
                    && JsSet.has existing rel
               then true else negb (JsSet.has existing rel)) = false)
      by (destruct (JsSet.has existing rel); reflexivity).
    rewrite Hupd. clear Hupd.
    assert (Hdel : exists c1,
               (if JsSet.has existing rel
                then deleteChunksByFile rel else ret tt) c = (c1, Return tt)
               /\ dimension (db c1) = dim).
    { destruct (JsSet.has existing rel).
      - destruct (deleteChunksByFile_run rel c) as (c1 & H1 & _ & _ & Hd & _).
        exists c1. split; [exact H1 | congruence].
      - now exists c. }
    destruct Hdel as (c1 & Hdel & Hdim1).
    rewrite (bind_return _ _ _ Hdel).
    destruct (chunk_embed_insert_returns f rel c1 Hf Hdim1)
      as (c2 & n & Hins & Hdim2).
    rewrite (bind_return _ _ _ Hins).
    destruct n as [n|]; now apply IH.
Qed.

(** [reindexDocuments] returns. *)
Lemma reindexDocuments_returns c :
  dimension (db c) = dim ->
  exists c' r,
    Indexer.reindexDocuments embeddings_create merged fs c = (c', Return r).
Proof.
  intros Hdim. unfold Indexer.reindexDocuments.
  unfold bind at 1, lift at 1, Config.getConfig. rewrite has_key.
  unfold bind at 1, getAllFiles, query.
  unfold bind at 1.
  destruct (Indexer.remove_deleted_loop fs _ 0 c) as [c1 o1] eqn:Hdel.
  pose proof (remove_deleted_loop_dimension _ _ _ Hdel) as Hdim1.
  destruct (remove_deleted_loop_spec
              (JsSet.of_list (select_distinct_files (db c))) 0 c)
    as (c1' & Hdel' & _).
  rewrite Hdel in Hdel'. injection Hdel' as <- ->.
  unfold bind at 1.
  match goal with
  | |- context [Indexer.reindex_loop _ _ _ _ ?e ?f ?u ?t ?cc] =>
      destruct (@reindex_loop_returns e f (incl_refl _) u t cc)
        as (c2 & counts & Hloop); [congruence|]
  end.
  rewrite Hloop.
  eexists _, _. reflexivity.
Qed.

End Returns.

End IndexerFacts.

(** A working directory ["/w"] that holds ["b.txt"] only, while the index
    holds ["a.txt"]. *)
Definition disk : FileSystem :=
  {| found_files := [lit "/w/b.txt"];
     relative_to_cwd := skipn 3;
     join_cwd := fun p => lit "/w/" ++ p;
     existsSync := fun p => str_eqb p (lit "/w/b.txt");
     readFileSync := fun _ => Return (lit "Hi there.") |}.

(** * Further properties *)

(** ** Line endings *)

Section NormalizeFacts.
Import Chunker.

(** No carriage return. *)
Definition no_cr (s : jsstring) : bool :=
  forallb (fun c => negb (N.eqb c 13)) s.

Lemma replace_cr_no_cr s : no_cr (replace_cr s) = true.
Proof.
  unfold no_cr, replace_cr. apply forallb_forall.
  intros c Hc. apply in_map_iff in Hc as (c' & <- & _).
  destruct (N.eqb_spec c' 13) as [->|Hne]; [reflexivity|].
  apply negb_true_iff. now apply N.eqb_neq.
Qed.

Lemma replace_cr_fixed s : no_cr s = true -> replace_cr s = s.
Proof.
  unfold no_cr, replace_cr. induction s as [|c s IH]; simpl; [reflexivity|].
  intros H. apply andb_true_iff in H as [Hc Hs].
  apply negb_true_iff in Hc. rewrite Hc, IH by exact Hs. reflexivity.
Qed.

Lemma replace_crlf_facts n : forall s,
  length s <= n ->
  length (replace_crlf s) <= length s
  /\ (no_cr s = true -> replace_crlf s = s).
Proof.
  induction n as [|n IH]; intros s Hn.
  - destruct s; [simpl; auto | simpl in Hn; lia].
  - destruct s as [|c [|d s]]; simpl; auto.
    simpl in Hn.
    destruct (N.eqb c 13) eqn:Ec; simpl.
    + destruct (N.eqb d 10); simpl.
      * destruct (IH s) as [H1 _]; [lia|]. split; [lia | discriminate].
      * destruct (IH (d :: s)) as [H1 _]; [simpl; lia|].
        split; [simpl in H1; lia | discriminate].
    + destruct (IH (d :: s)) as [H1 H2]; [simpl; lia|].
      split; [simpl in H1; lia|].
      intros H. f_equal. apply H2. exact H.
Qed.

Lemma length_normalize text : length (normalize text) <= length text.
Proof.
  unfold normalize, replace_cr. rewrite length_map.
  apply (@replace_crlf_facts (length text) text (le_n _)).
Qed.

(** X1. The normalized text holds no carriage return and is not longer
    than the text; a text without carriage return is left as it is, so
    normalizing twice is normalizing once. *)
Theorem normalize_no_carriage_return (text : jsstring) :
  ~ In 13%N (normalize text)
  /\ length (normalize text) <= length text
  /\ (~ In 13%N text -> normalize text = text)
  /\ normalize (normalize text) = normalize text.
Proof.
  assert (Hno : no_cr (normalize text) = true) by apply replace_cr_no_cr.
  assert (Hfix : forall s, no_cr s = true -> normalize s = s).
  { intros s Hs. unfold normalize.
    rewrite (proj2 (@replace_crlf_facts (length s) s (le_n _)) Hs).
    now apply replace_cr_fixed. }
  split; [|split; [|split]].
  - intros Hin. unfold no_cr in Hno. rewrite forallb_forall in Hno.
    specialize (Hno _ Hin). discriminate.
  - unfold normalize, replace_cr. rewrite length_map.
    apply (@replace_crlf_facts (length text) text (le_n _)).
  - intros Hnot. apply Hfix. apply forallb_forall.
    intros c Hc. apply negb_true_iff, N.eqb_neq. congruence.
  - now apply Hfix.
Qed.

End NormalizeFacts.

(** ** Sentences, again *)

Section SplitFacts.
Import Chunker.

(** The characters of a text that are not whitespace, in order. *)
Definition nonspace (s : jsstring) : jsstring :=
  filter (fun c => negb (is_space c)) s.

(** [P] holds of every element but the last. *)
Fixpoint all_but_last {A} (P : A -> Prop) (l : list A) : Prop :=
  match l with
  | [] => True
  | x :: rest =>
      match rest with
      | [] => True
      | _ :: _ => P x /\ all_but_last P rest
      end
  end.

Definition ends_with_terminator (s : jsstring) : Prop :=
  exists t c, s = t ++ [c] /\ is_terminator c = true.

Lemma nonspace_app a b : nonspace (a ++ b) = nonspace a ++ nonspace b.
Proof. apply filter_app. Qed.

Lemma nonspace_rev a : nonspace (rev a) = rev (nonspace a).
Proof. apply filter_rev. Qed.

Lemma split_scan_nonspace s : forall m piece,
  nonspace (concat (split_scan m piece s)) = nonspace (rev piece ++ s).
Proof.
  induction s as [|c s IH]; intros m piece; simpl.
  - now rewrite !app_nil_r.
  - destruct (is_space c) eqn:Ec.
    + assert (Hdrop : nonspace (rev piece ++ c :: s)
                      = nonspace (rev piece ++ s)).
      { rewrite !nonspace_app. simpl. now rewrite Ec. }
      destruct m.
      * rewrite IH. simpl. rewrite <- app_assoc. reflexivity.
      * simpl. rewrite nonspace_app, IH, Hdrop. simpl.
        now rewrite nonspace_app.
      * rewrite IH. symmetry. exact Hdrop.
    + rewrite IH. simpl. now rewrite <- app_assoc.
Qed.

Lemma split_scan_terminated s : forall m piece,
  (m = AfterTerminator ->
   exists c t, piece = c :: t /\ is_terminator c = true) ->
  all_but_last ends_with_terminator (split_scan m piece s).
Proof.
  induction s as [|c s IH]; intros m piece Hm; simpl; [exact I|].
  destruct (is_space c) eqn:Ec.
  - destruct m.
    + apply IH; discriminate.
    + pose proof (@split_scan_nonempty InSeparator [] s) as Hne.
      pose proof (IH InSeparator []) as IH'.
      destruct (split_scan InSeparator [] s) as [|y l]; [congruence|].
      split; [|apply IH'; discriminate].
      destruct (Hm eq_refl) as (c0 & t & -> & Hc0).
      exists (rev t), c0. split; [reflexivity | exact Hc0].
    + apply IH; discriminate.
  - apply IH. destruct (is_terminator c) eqn:Et; [|discriminate].
    intros _. now exists c, piece.
Qed.

Lemma split_scan_lengths s : forall m piece,
  list_sum (map (@length N) (split_scan m piece s))
  + (length (split_scan m piece s) - 1)
  <= length piece + length s.
Proof.
  induction s as [|c s IH]; intros m piece; simpl.
  - rewrite length_rev. lia.
  - destruct (is_space c).
    + destruct m.
      * specialize (IH Plain (c :: piece)). simpl in IH. lia.
      * specialize (IH InSeparator []).
        pose proof (@split_scan_nonempty InSeparator [] s) as Hne.
        destruct (split_scan InSeparator [] s) as [|y l]; [congruence|].
        simpl in *. rewrite length_rev. lia.
      * specialize (IH InSeparator piece). lia.
    + specialize (IH (if is_terminator c then AfterTerminator else Plain)
                     (c :: piece)).
      simpl in IH. lia.
Qed.

Lemma split_sentences_nonempty text : split_sentences text <> [].
Proof. apply split_scan_nonempty. Qed.

Lemma split_sentences_nonspace text :
  nonspace (concat (split_sentences text)) = nonspace text.
Proof. apply split_scan_nonspace. Qed.

Lemma split_sentences_lengths text :
  list_sum (map (@length N) (split_sentences text))
  + (length (split_sentences text) - 1) <= length text.
Proof. apply split_scan_lengths. Qed.

(** X2. [split(/(?<=[.!?])\s+/)] gives at least one sentence; every
    sentence but the last ends with [.], [!] or [?]; only whitespace is
    dropped (the characters that are not whitespace are those of the
    text, in order); and the sentences with one separator between
    neighbours are not longer than the text. *)
Theorem split_sentences_structure (text : jsstring) :
  split_sentences text <> []
  /\ all_but_last ends_with_terminator (split_sentences text)
  /\ nonspace (concat (split_sentences text)) = nonspace text
  /\ list_sum (map (@length N) (split_sentences text))
     + (length (split_sentences text) - 1) <= length text.
Proof.
  unfold split_sentences. split; [apply split_scan_nonempty|].
  split; [apply split_scan_terminated; discriminate|].
  split; [apply split_scan_nonspace | apply split_scan_lengths].
Qed.

End SplitFacts.

(** ** The character window, again *)

Section WindowFacts.
Import Chunker.

Lemma splitByCharacter_loop_nth text size ov : forall fuel start parts,
  splitByCharacter_loop fuel text size ov start = Some parts ->
  forall i,
    nth_error parts i
    = if start + i * (size - ov) <? length text
      then Some (slice (start + i * (size - ov))
                       (Nat.min (start + i * (size - ov) + size)
                                (length text)) text)
      else None.
Proof.
  induction fuel as [|fuel IH]; intros start parts Hrun i; [discriminate|].
  simpl in Hrun. destruct (start <? length text) eqn:E.
  - destruct (splitByCharacter_loop fuel text size ov _) as [rest|] eqn:Hrest;
      [|discriminate].
    injection Hrun as <-. destruct i as [|i]; simpl.
    + rewrite Nat.add_0_r, E. reflexivity.
    + rewrite (IH _ _ Hrest i). set (s := size - ov).
      replace (start + s + i * s) with (start + (s + i * s)) by lia.
      reflexivity.
  - injection Hrun as <-. apply Nat.ltb_ge in E. set (s := size - ov).
    replace (start + i * s <? length text) with false
      by (symmetry; apply Nat.ltb_ge; lia).
    now destruct i.
Qed.

Lemma firstn_min_length {A} n (l : list A) :
  firstn (Nat.min n (length l)) l = firstn n l.
Proof.
  destruct (Nat.le_ge_cases n (length l)) as [H|H].
  - now rewrite Nat.min_l.
  - rewrite Nat.min_r by exact H. now rewrite firstn_all, firstn_all2.
Qed.

Lemma splitByCharacter_loop_concat text size : forall fuel start parts,
  splitByCharacter_loop fuel text size 0 start = Some parts ->
  concat parts = skipn start text.
Proof.
  induction fuel as [|fuel IH]; intros start parts Hrun; [discriminate|].
  simpl in Hrun. destruct (start <? length text) eqn:E.
  - destruct (splitByCharacter_loop fuel text size 0 _) as [rest|] eqn:Hrest;
      [|discriminate].
    injection Hrun as <-. simpl. rewrite (IH _ _ Hrest).
    apply Nat.ltb_lt in E. unfold slice.
    replace (Nat.min (start + size) (length text) - start)
      with (Nat.min size (length (skipn start text)))
      by (rewrite length_skipn; lia).
    rewrite firstn_min_length, Nat.sub_0_r.
    rewrite (Nat.add_comm start size), <- skipn_skipn.
    apply firstn_skipn.
  - injection Hrun as <-. apply Nat.ltb_ge in E.
    now rewrite skipn_all2.
Qed.

(** X3. For [overlap < chunkSize], [splitByCharacter] returns the windows
    of the text at the multiples of the stride [chunkSize - overlap], as
    long as the start is inside the text; with [overlap = 0] the pieces
    put together are the text; and the last [overlap] characters of a
    piece of full length are the first [overlap] characters of the next
    piece. *)
Theorem splitByCharacter_windows (text : jsstring) (size ov : nat) :
  ov < size ->
  exists parts,
    splitByCharacter text size ov = Some parts
    /\ (forall i,
          nth_error parts i
          = if i * (size - ov) <? length text
            then Some (slice (i * (size - ov))
                             (Nat.min (i * (size - ov) + size)
                                      (length text)) text)
            else None)
    /\ (ov = 0 -> concat parts = text)
    /\ (forall i p q,
          nth_error parts i = Some p -> nth_error parts (S i) = Some q ->
          length p = size -> slice_last ov p = firstn ov q).
Proof.
  intros Hov.
  destruct (@splitByCharacter_total text size ov Hov) as (parts & Hrun & _).
  exists parts. split; [exact Hrun|].
  pose proof (splitByCharacter_loop_nth _ _ _ _ _ Hrun) as Hnth.
  cbn [Nat.add] in Hnth.
  split; [exact Hnth|]. split.
  - intros ->. exact (@splitByCharacter_loop_concat _ _ _ _ _ Hrun).
  - intros i p q Hp Hq Hlen.
    rewrite Hnth in Hp, Hq. set (s := size - ov) in *.
    destruct (i * s <? length text) eqn:Ei; [|discriminate].
    destruct (S i * s <? length text) eqn:Ei'; [|discriminate].
    injection Hp as <-. injection Hq as <-.
    apply Nat.ltb_lt in Ei, Ei'. simpl in Ei'.
    rewrite length_slice in Hlen.
    unfold slice_last, slice. rewrite length_firstn, length_skipn.
    replace (Nat.min (Nat.min (i * s + size) (length text) - i * s)
                     (length text - i * s)) with size by lia.
    replace (Nat.min (i * s + size) (length text) - i * s) with size by lia.
    rewrite skipn_firstn_comm, skipn_skipn, firstn_firstn.
    replace (size - (size - ov)) with ov by lia.
    simpl. replace (size - ov + i * s) with (s + i * s) by (unfold s; lia).
    f_equal. unfold s in *. lia.
Qed.

Lemma splitByCharacter_loop_hangs text size ov :
  size <= ov ->
  forall fuel start,
    start < length text ->
    splitByCharacter_loop fuel text size ov start = None.
Proof.
  intros Hov. induction fuel as [|fuel IH]; intros start Hs; [reflexivity|].
  simpl. replace (start <? length text) with true
    by (symmetry; now apply Nat.ltb_lt).
  replace (size - ov) with 0 by lia. rewrite Nat.add_0_r.
  now rewrite IH.
Qed.

Lemma chunk_loop_hangs size ov sentences :
  size <= ov ->
  forall chunks cur,
    (exists s, In s sentences /\ size < length s) ->
    chunk_loop size ov sentences chunks cur = None.
Proof.
  intros Hov. induction sentences as [|sentence rest IH];
    intros chunks cur (s & Hin & Hs); [destruct Hin|].
  cbn [chunk_loop]. destruct (size <? length sentence) eqn:E.
  - unfold splitByCharacter.
    rewrite splitByCharacter_loop_hangs; [reflexivity | exact Hov |].
    apply Nat.ltb_lt in E. lia.
  - destruct Hin as [-> | Hin].
    + apply Nat.ltb_ge in E. lia.
    + destruct (size <? length cur + length sentence);
        apply IH; exists s; auto.
Qed.

Lemma chunk_loop_no_split size ov sentences :
  forall chunks cur,
    (forall s, In s sentences -> length s <= size) ->
    exists r, chunk_loop size ov sentences chunks cur = Some r.
Proof.
  induction sentences as [|sentence rest IH]; intros chunks cur Hall.
  - eexists. reflexivity.
  - cbn [chunk_loop].
    replace (size <? length sentence) with false
      by (symmetry; apply Nat.ltb_ge, Hall; now left).
    destruct (size <? length cur + length sentence);
      apply IH; intros s Hs; apply Hall; now right.
Qed.

(** X4. With [chunkOverlap >= chunkSize] the stride of [splitByCharacter]
    is not positive and its loop never ends on a text that is not empty.
    [chunkText] then comes back exactly when no sentence is longer than
    [chunkSize]. *)
Theorem chunkText_returns_iff_no_split (text : jsstring) (size ov : nat) :
  size <= ov ->
  (forall t, t <> [] -> splitByCharacter t size ov = None)
  /\ (chunkText text size ov = None
      <-> exists s, In s (split_sentences (normalize text))
                    /\ size < length s).
Proof.
  intros Hov. split.
  - intros t Ht. unfold splitByCharacter.
    apply splitByCharacter_loop_hangs; [exact Hov|].
    destruct t; [congruence | simpl; lia].
  - unfold chunkText. split.
    + intros Hnone.
      destruct (existsb (fun s => size <? length s)
                        (split_sentences (normalize text))) eqn:E.
      * apply existsb_exists in E as (s & Hin & Hs).
        exists s. split; [exact Hin | now apply Nat.ltb_lt].
      * destruct (@chunk_loop_no_split size ov
                    (split_sentences (normalize text))
                    (@nil jsstring) (@nil N)) as [[chunks cur] Hr].
        { intros s Hs. apply Nat.ltb_ge.
          destruct (size <? length s) eqn:Es; [|reflexivity].
          assert (Hex : existsb (fun s => size <? length s)
                          (split_sentences (normalize text)) = true)
            by (apply existsb_exists; exists s; auto).
          congruence. }
        rewrite Hr in Hnone. discriminate.
    + intros Hex.
      now rewrite (@chunk_loop_hangs size ov _ Hov (@nil jsstring) (@nil N)
                                     Hex).
Qed.

Lemma chunkText_returns_iff_no_split_witness :
  chunkText (lit "abcdef gh") 4 4 = None
  <-> exists s, In s (split_sentences (normalize (lit "abcdef gh")))
                /\ 4 < length s.
Proof.
  apply (@chunkText_returns_iff_no_split (lit "abcdef gh") 4 4). lia.
Defined.

End WindowFacts.

Lemma splitByCharacter_windows_witness :
  exists parts,
    Chunker.splitByCharacter (lit "abcdefg") 3 1 = Some parts
    /\ (1 = 0 -> concat parts = lit "abcdefg").
Proof.
  destruct (@splitByCharacter_windows (lit "abcdefg") 3 1) as (p & H1 & _ & H3 & _);
    [lia|].
  exists p. split; assumption.
Defined.

(** ** What the chunks hold *)

Section ContentFacts.
Import Chunker.

Lemma nonspace_trimStart s : nonspace (trimStart s) = nonspace s.
Proof.
  induction s as [|c s IH]; simpl; [reflexivity|].
  destruct (is_space c) eqn:E; simpl; try rewrite E; simpl; auto.
Qed.

Lemma nonspace_trim s : nonspace (trim s) = nonspace s.
Proof.
  unfold trim, trimEnd.
  now rewrite nonspace_rev, nonspace_trimStart, <- nonspace_rev,
    rev_involutive, nonspace_trimStart.
Qed.

Lemma nonspace_replace_crlf n : forall s,
  length s <= n -> nonspace (replace_crlf s) = nonspace s.
Proof.
  induction n as [|n IH]; intros s Hn.
  - destruct s; [reflexivity | simpl in Hn; lia].
  - destruct s as [|c [|d s]]; [reflexivity | reflexivity |].
    simpl in Hn. cbn [replace_crlf].
    destruct (N.eqb c 13 && N.eqb d 10)%bool eqn:E.
    + apply andb_true_iff in E as [Ec Ed].
      apply N.eqb_eq in Ec, Ed. subst.
      cbn. apply IH. lia.
    + change (nonspace (c :: replace_crlf (d :: s))
              = nonspace (c :: d :: s)).
      unfold nonspace. cbn [filter]. fold (nonspace (replace_crlf (d :: s))).
      fold (nonspace (d :: s)).
      rewrite IH by (simpl; lia). reflexivity.
Qed.

Lemma nonspace_normalize s : nonspace (normalize s) = nonspace s.
Proof.
  unfold normalize. rewrite <- (@nonspace_replace_crlf (length s) s (le_n _)).
  generalize (replace_crlf s). intros l. unfold replace_cr.
  induction l as [|c l IH]; [reflexivity|]. simpl.
  destruct (N.eqb_spec c 13) as [->|Hne]; simpl; [exact IH|].
  destruct (is_space c); simpl; now rewrite IH.
Qed.

Lemma nonspace_concat_flush chunks cur :
  nonspace (concat (flush chunks cur))
  = nonspace (concat chunks) ++ nonspace cur.
Proof.
  unfold flush. destruct cur as [|c cur]; cbn [truthy].
  - simpl. now rewrite app_nil_r.
  - rewrite concat_app, nonspace_app. simpl. rewrite app_nil_r.
    now rewrite nonspace_trim.
Qed.

Lemma chunk_loop_content size sentences : forall chunks cur chunks' cur',
  chunk_loop size 0 sentences chunks cur = Some (chunks', cur') ->
  nonspace (concat chunks') ++ nonspace cur'
  = nonspace (concat chunks) ++ nonspace cur ++ nonspace (concat sentences).
Proof.
  induction sentences as [|sentence rest IH];
    intros chunks cur chunks' cur' Hrun.
  - injection Hrun as <- <-. simpl. now rewrite app_nil_r.
  - cbn [chunk_loop] in Hrun. simpl concat. rewrite nonspace_app.
    destruct (size <? length sentence).
    + destruct (splitByCharacter sentence size 0) as [parts|] eqn:Hs;
        [|discriminate].
      apply IH in Hrun. rewrite Hrun.
      rewrite concat_app, nonspace_app, nonspace_concat_flush.
      rewrite (@splitByCharacter_loop_concat _ _ _ _ _ Hs). simpl.
      now rewrite <- !app_assoc.
    + destruct (size <? length cur + length sentence).
      * rewrite andb_false_r in Hrun. apply IH in Hrun. rewrite Hrun.
        rewrite nonspace_concat_flush. now rewrite <- !app_assoc.
      * apply IH in Hrun. rewrite Hrun. rewrite !nonspace_app.
        destruct (truthy cur); simpl; now rewrite <- !app_assoc.
Qed.

Lemma concat_filter_nonempty (l : list jsstring) :
  concat (filter (fun chunk => 0 <? length chunk) l) = concat l.
Proof.
  induction l as [|[|c x] l IH]; simpl; [reflexivity | exact IH |].
  now rewrite IH.
Qed.

(** X5. Without overlap nothing is lost and nothing is repeated: for
    [chunkOverlap = 0 < chunkSize], [chunkText] returns, and the
    characters of the chunks that are not whitespace are, in order, those
    of the text. *)
Theorem chunkText_keeps_content (text : jsstring) (size : nat) :
  0 < size ->
  exists chunks,
    chunkText text size 0 = Some chunks
    /\ nonspace (concat chunks) = nonspace text.
Proof.
  intros Hsize.
  destruct (@chunkText_total text size 0 Hsize) as (chunks & Hrun & _).
  exists chunks. split; [exact Hrun|].
  unfold chunkText in Hrun.
  destruct (chunk_loop size 0 _ [] []) as [[cs cur]|] eqn:Hloop;
    [|discriminate].
  injection Hrun as <-. rewrite concat_filter_nonempty.
  apply chunk_loop_content in Hloop. simpl in Hloop.
  pose proof (split_sentences_nonspace (normalize text)) as Hsplit.
  rewrite Hsplit, nonspace_normalize in Hloop. rewrite <- Hloop.
  destruct (truthy (trim cur)) eqn:Et.
  - rewrite concat_app, nonspace_app. cbn [concat]. rewrite app_nil_r.
    now rewrite nonspace_trim.
  - assert (Hc : nonspace cur = []).
    { rewrite <- nonspace_trim. now destruct (trim cur). }
    now rewrite Hc, app_nil_r.
Qed.

Lemma chunkText_keeps_content_witness :
  exists chunks,
    chunkText (lit "One two. Three four. Five six seven.") 20 0 = Some chunks
    /\ nonspace (concat chunks)
       = nonspace (lit "One two. Three four. Five six seven.").
Proof.
  apply (@chunkText_keeps_content
           (lit "One two. Three four. Five six seven.") 20). lia.
Defined.

End ContentFacts.

Section ShapeFacts.
Import Chunker.

Lemma trimEnd_prefix (s : jsstring) : exists u, s = trimEnd s ++ u.
Proof.
  unfold trimEnd. destruct (trimStart_suffix (rev s)) as [t Ht].
  exists (rev t). rewrite <- rev_app_distr, <- Ht. now rewrite rev_involutive.
Qed.

Lemma trimStart_trim (s : jsstring) : trimStart (trim s) = trim s.
Proof.
  unfold trim. destruct (trimStart s) as [|c t] eqn:E; [reflexivity|].
  pose proof (trimStart_head _ E) as Hc.
  destruct (trimEnd_prefix (c :: t)) as [u Hu].
  destruct (trimEnd (c :: t)) as [|c' t'] eqn:Ee.
  - reflexivity.
  - injection Hu as <- _. now apply trimStart_fixed.
Qed.

(** A chunk of the sentence path neither starts nor ends with
    whitespace. *)
Definition trimmed (p : origin * jsstring) : Prop :=
  fst p = Accumulated ->
  trimStart (snd p) = snd p /\ trimEnd (snd p) = snd p.

Lemma trimmed_push x : trimmed (Accumulated, trim x).
Proof. intros _. split; [apply trimStart_trim | apply trimEnd_trim]. Qed.

Lemma flush_prov_trimmed tc cur :
  Forall trimmed tc -> Forall trimmed (flush_prov tc cur).
Proof.
  intros H. unfold flush_prov. destruct (truthy cur); [|exact H].
  apply Forall_app. split; [exact H|].
  constructor; [apply trimmed_push | constructor].
Qed.

Lemma chunk_loop_prov_trimmed size ov sentences : forall tc cur tc' cur',
  chunk_loop_prov size ov sentences tc cur = Some (tc', cur') ->
  Forall trimmed tc -> Forall trimmed tc'.
Proof.
  induction sentences as [|sentence rest IH]; intros tc cur tc' cur' Hrun H.
  - now injection Hrun as <- _.
  - cbn [chunk_loop_prov] in Hrun.
    destruct (size <? length sentence).
    + destruct (splitByCharacter sentence size ov) as [parts|];
        [|discriminate].
      apply IH in Hrun; [exact Hrun|].
      apply Forall_app. split; [now apply flush_prov_trimmed|].
      apply Forall_forall. intros p Hp.
      apply in_map_iff in Hp as (q & <- & _). intros [=].
    + destruct (size <? length cur + length sentence);
        apply IH in Hrun; auto using flush_prov_trimmed.
Qed.

(** X6. Every chunk that [chunkText] pushes from [currentChunk] is not
    empty and neither starts nor ends with whitespace; no chunk at all is
    empty. *)
Theorem chunkText_chunks_trimmed (text : jsstring) (size ov : nat)
        (tagged : list (origin * jsstring)) :
  chunkText_prov text size ov = Some tagged ->
  chunkText text size ov = Some (map snd tagged)
  /\ Forall (fun p => snd p <> []) tagged
  /\ forall c, In (Accumulated, c) tagged ->
               trimStart c = c /\ trimEnd c = c.
Proof.
  intros Hrun. split; [now rewrite chunkText_erase, Hrun|].
  unfold chunkText_prov in Hrun.
  destruct (chunk_loop_prov size ov _ [] []) as [[tc cur]|] eqn:Hloop;
    [|discriminate].
  injection Hrun as <-.
  apply chunk_loop_prov_trimmed in Hloop; [|constructor].
  split.
  - apply Forall_forall. intros [o c] Hin. apply filter_In in Hin as [_ Hc].
    simpl in *. destruct c; [discriminate | discriminate].
  - intros c Hin. apply filter_In in Hin as [Hin _].
    assert (Hall : Forall trimmed
                     (if truthy (trim cur)
                      then tc ++ [(Accumulated, trim cur)] else tc)).
    { destruct (truthy (trim cur)); [|exact Hloop].
      apply Forall_app. split; [exact Hloop|].
      constructor; [apply trimmed_push | constructor]. }
    rewrite Forall_forall in Hall. now apply (Hall _ Hin).
Qed.

Lemma chunkText_chunks_trimmed_witness :
  chunkText (lit "aa   bb. ccccccc.") 10 5
  = Some [lit "aa   bb."; lit "bb. ccccccc."]
  /\ trimStart (lit "aa   bb.") = lit "aa   bb."
  /\ trimEnd (lit "aa   bb.") = lit "aa   bb.".
Proof.
  destruct (@chunkText_chunks_trimmed (lit "aa   bb. ccccccc.") 10 5 _
                                      eq_refl) as (Hrun & _ & Htrim).
  split; [exact Hrun|]. apply Htrim. left. reflexivity.
Defined.

Lemma chunk_loop_short size ov total sentences : forall cur,
  total <= size ->
  length cur + list_sum (map (@length N) sentences) + length sentences
  <= total + (if truthy cur then 0 else 1) ->
  exists cur',
    chunk_loop size ov sentences [] cur = Some ([], cur')
    /\ (truthy cur' = true -> length cur' <= total).
Proof.
  induction sentences as [|sentence rest IH]; intros cur Hsize Hinv.
  - exists cur. split; [reflexivity|]. intros Ht. rewrite Ht in Hinv.
    simpl in Hinv. lia.
  - cbn [chunk_loop]. simpl in Hinv.
    replace (size <? length sentence) with false
      by (symmetry; apply Nat.ltb_ge; destruct (truthy cur); lia).
    replace (size <? length cur + length sentence) with false
      by (symmetry; apply Nat.ltb_ge; destruct (truthy cur); lia).
    apply IH; [exact Hsize|].
    destruct cur as [|c cur]; cbn [truthy] in *.
    + cbn [app length] in *. destruct (truthy sentence); lia.
    + rewrite !length_app. cbn [truthy app length] in *. lia.
Qed.

(** X7. A text that is not longer than [chunkSize] gives at most one
    chunk, whatever the overlap, and this chunk is not longer than the
    text. *)
Theorem chunkText_short_text (text : jsstring) (size ov : nat) :
  length text <= size ->
  exists chunks,
    chunkText text size ov = Some chunks
    /\ length chunks <= 1
    /\ Forall (fun c => length c <= length text) chunks.
Proof.
  intros Hlen.
  pose proof (length_normalize text) as Hn.
  pose proof (split_sentences_nonempty (normalize text)) as Hne.
  pose proof (split_sentences_lengths (normalize text)) as Hsum.
  destruct (@chunk_loop_short size ov (length (normalize text))
              (split_sentences (normalize text)) [])
    as (cur & Hrun & Hcur); [lia | |].
  { cbn [truthy length]. destruct (split_sentences (normalize text));
      [congruence | simpl in *; unfold jsstring in *; lia]. }
  unfold chunkText. rewrite Hrun.
  destruct (truthy (trim cur)) eqn:Et.
  - assert (Htc : truthy cur = true).
    { destruct cur; [discriminate | reflexivity]. }
    specialize (Hcur Htc). pose proof (length_trim cur) as Htrim.
    cbn [app filter]. eexists. split; [reflexivity|].
    destruct (0 <? length (trim cur)); simpl; split; auto.
    constructor; [lia | constructor].
  - exists []. repeat split; auto.
Qed.

Lemma chunkText_short_text_witness :
  exists chunks,
    chunkText (lit " Hi. Ok? ") 9 9 = Some chunks /\ length chunks <= 1.
Proof.
  destruct (@chunkText_short_text (lit " Hi. Ok? ") 9 9) as (l & H1 & H2 & _);
    [simpl; lia|].
  exists l. split; assumption.
Defined.

End ShapeFacts.

(** ** Requests of the embedding client *)

(** The list cut into runs of [b] elements, the last one shorter when the
    length is not a multiple of [b]. *)
Fixpoint batches_of {A} (fuel b : nat) (l : list A) : list (list A) :=
  match fuel with
  | 0 => []
  | S fuel' =>
      match l with
      | [] => []
      | _ :: _ => firstn b l :: batches_of fuel' b (skipn b l)
      end
  end.

Definition batches {A} (b : nat) (l : list A) : list (list A) :=
  batches_of (length l) b l.

Section BatchFacts.
Context {B : Backend}.
Variable embeddings_create
  : jsstring -> list jsstring -> outcome (list (list float)).
Variable merged : RagConfig.

(** One request per batch, in order; the first rejection ends the
    call. *)
Fixpoint send_all (m : jsstring) (bs : list (list jsstring))
  : outcome (list (list float)) :=
  match bs with
  | [] => Return []
  | batch :: rest =>
      let! data := embeddings_create m batch in
      let! more := send_all m rest in
      Return (map (map fround) data ++ more)
  end.

Lemma batches_of_fuel {A} (b : nat) : 0 < b ->
  forall fuel fuel' (l : list A),
    length l <= fuel -> length l <= fuel' ->
    batches_of fuel b l = batches_of fuel' b l.
Proof.
  intros Hb. induction fuel as [|fuel IH]; intros fuel' l Hl Hl'.
  - destruct l; [now destruct fuel' | simpl in Hl; lia].
  - destruct l as [|x l]; [now destruct fuel'|].
    destruct fuel' as [|fuel']; [simpl in Hl'; lia|].
    cbn [batches_of]. f_equal.
    apply IH; rewrite length_skipn; cbn [length] in *; lia.
Qed.

Lemma batches_of_facts {A} (b : nat) : 0 < b ->
  forall fuel (l : list A),
    length l <= fuel ->
    concat (batches_of fuel b l) = l
    /\ Forall (fun batch => batch <> [] /\ length batch <= b)
              (batches_of fuel b l)
    /\ all_but_last (fun batch => length batch = b) (batches_of fuel b l).
Proof.
  intros Hb. induction fuel as [|fuel IH]; intros l Hl.
  - destruct l; [simpl; auto | simpl in Hl; lia].
  - destruct l as [|x l]; [simpl; auto|].
    cbn [batches_of].
    destruct (IH (skipn b (x :: l))) as (Hc & Hf & Ha).
    { rewrite length_skipn. cbn [length] in *. lia. }
    split; [|split].
    + cbn [concat]. rewrite Hc. apply firstn_skipn.
    + constructor; [|exact Hf]. split.
      * destruct b; [lia | discriminate].
      * apply firstn_le_length.
    + cbn [all_but_last].
      destruct (batches_of fuel b (skipn b (x :: l))) as [|y r] eqn:E;
        [exact I|].
      split; [|exact Ha].
      rewrite length_firstn. apply Nat.min_l.
      destruct (Nat.le_gt_cases b (length (x :: l))) as [H|H]; [exact H|].
      rewrite skipn_all2 in E by lia.
      destruct fuel; discriminate.
Qed.

Lemma generateEmbeddings_loop_batches b m texts :
  0 < b ->
  forall fuel i acc,
    length texts - i < fuel ->
    Embedder.generateEmbeddings_loop embeddings_create fuel b m texts i acc
    = let! more := send_all m (batches b (skipn i texts)) in
      Return (acc ++ more).
Proof.
  intros Hb. induction fuel as [|fuel IH]; intros i acc Hfuel; [lia|].
  cbn [Embedder.generateEmbeddings_loop].
  destruct (i <? length texts) eqn:E.
  - apply Nat.ltb_lt in E.
    assert (Hlen : length (skipn i texts) = length texts - i)
      by apply length_skipn.
    unfold batches. destruct (skipn i texts) as [|x rest] eqn:Es;
      [simpl in Hlen; lia|].
    cbn [batches_of length send_all].
    unfold slice. replace (i + b - i) with b by lia. rewrite Es.
    destruct (embeddings_create m (firstn b (x :: rest))) as [data| |];
      cbn [obind]; try reflexivity.
    rewrite IH by lia.
    rewrite (Nat.add_comm i b), <- skipn_skipn, Es.
    unfold batches.
    rewrite (@batches_of_fuel _ b Hb (length rest)
                              (length (skipn b (x :: rest)))
                              (skipn b (x :: rest)))
      by (rewrite ?length_skipn; cbn [length]; lia).
    destruct (send_all m _) as [more| |]; cbn [obind]; try reflexivity.
    now rewrite app_assoc.
  - apply Nat.ltb_ge in E. rewrite skipn_all2 by exact E.
    cbn. now rewrite app_nil_r.
Qed.

(** X8. With an API key, [generateEmbeddings] sends the texts in runs of
    100, in order, one request per run (none for no text), and returns the
    vectors of the answers put together as they come, whatever their
    number; the first rejected request rejects the call, and nothing is
    returned. *)
Theorem generateEmbeddings_requests (texts : list jsstring)
        (model : option jsstring) :
  truthy (apiKey merged) = true ->
  Embedder.generateEmbeddings embeddings_create merged texts model
  = send_all (model_used merged model) (batches Embedder.BATCH_SIZE texts)
  /\ concat (batches Embedder.BATCH_SIZE texts) = texts
  /\ Forall (fun batch => batch <> []
                          /\ length batch <= Embedder.BATCH_SIZE)
            (batches Embedder.BATCH_SIZE texts)
  /\ all_but_last (fun batch => length batch = Embedder.BATCH_SIZE)
                  (batches Embedder.BATCH_SIZE texts).
Proof.
  intros Hkey.
  assert (Hb : 0 < Embedder.BATCH_SIZE) by (unfold Embedder.BATCH_SIZE; lia).
  split.
  - unfold Embedder.generateEmbeddings, Config.getConfig.
    rewrite Hkey. cbn [obind].
    rewrite (@generateEmbeddings_loop_batches _ _ texts Hb) by lia.
    cbn [skipn]. unfold model_used.
    destruct (send_all _ _); reflexivity.
  - apply (batches_of_facts Hb). apply le_n.
Qed.

End BatchFacts.

Lemma generateEmbeddings_requests_witness :
  Embedder.generateEmbeddings
    (B := IntBackend)
    (fun _ batch => if length batch =? 2 then Throw ApiError
                    else Return [])
    {| apiKey := lit "k"; embeddingModel := lit "m";
       chunkSize := 10; chunkOverlap := 2; topK := 5 |}
    [lit "a"; lit "b"] None
  = Throw ApiError.
Proof.
  rewrite (proj1 (@generateEmbeddings_requests
                    IntBackend
                    (fun _ batch => if length batch =? 2 then Throw ApiError
                                    else Return [])
                    {| apiKey := lit "k"; embeddingModel := lit "m";
                       chunkSize := 10; chunkOverlap := 2; topK := 5 |}
                    [lit "a"; lit "b"] None eq_refl)).
  reflexivity.
Defined.

(** ** The vector store, again *)

Section StoreSteps.
Context {B : Backend}.
Import VectorStore VectorStore.Notations.

(** The database after the statements of a successful [insertChunk] at
    time [now]. *)
Definition db_after_insert (chunk : DocumentChunk) (now : nat)
           (d : Database) : Database :=
  let i := S (Nat.max (chunks_seq d) (list_max (map id (chunks d)))) in
  let kept := filter (fun row => negb (same_key (filePath chunk)
                                                (chunk_hash chunk) row))
                     (chunks d) in
  match chunk_embedding chunk with
  | Some e =>
      let r := next_rowid d in
      {| dimension := dimension d;
         chunks := kept ++ [{| id := i; file_path := filePath chunk;
                               content := chunk_content chunk;
                               hash := chunk_hash chunk;
                               vec_rowid := Some r; created_at := now |}];
         chunks_seq := i;
         vec_chunks := vec_chunks d ++ [{| rowid := r; embedding := e |}];
         vec_seq := r |}
  | None =>
      {| dimension := dimension d;
         chunks := kept ++ [{| id := i; file_path := filePath chunk;
                               content := chunk_content chunk;
                               hash := chunk_hash chunk;
                               vec_rowid := None; created_at := now |}];
         chunks_seq := i;
         vec_chunks := vec_chunks d;
         vec_seq := vec_seq d |}
  end.

(** The database after [deleteChunksByFile]. *)
Definition db_after_delete (f : jsstring) (d : Database) : Database :=
  {| dimension := dimension d;
     chunks := filter (fun row => negb (str_eqb (file_path row) f))
                      (chunks d);
     chunks_seq := chunks_seq d;
     vec_chunks := filter (not_among (select_vec_rowids f (chunks d)))
                          (vec_chunks d);
     vec_seq := vec_seq d |}.

Lemma insertChunk_db chunk c :
  fits (dimension (db c)) chunk = true ->
  exists c' i,
    insertChunk chunk c = (c', Return i)
    /\ db c' = db_after_insert chunk (clock c (ticks c)) (db c)
    /\ in_transaction c' = in_transaction c.
Proof.
  unfold fits, insertChunk, db_after_insert. intros Hfit.
  destruct (chunk_embedding chunk) as [e|] eqn:Ee.
  - unfold bind, Date_now, exec, insert_vec, ret, with_db; cbn.
    rewrite Hfit. cbn. do 2 eexists. split; [reflexivity|].
    split; reflexivity.
  - unfold bind, Date_now, exec, ret, with_db; cbn.
    do 2 eexists. split; [reflexivity|]. split; reflexivity.
Qed.

(** What every successful [insertChunk] keeps, the loop of [insertChunks]
    keeps, as far as it gets. *)
Lemma insert_loop_keeps (P : Database -> Prop) :
  (forall chunk now d,
      P d -> fits (dimension d) chunk = true ->
      P (db_after_insert chunk now d)) ->
  forall batch c c' o,
    for_each batch (fun chunk => insertChunk chunk ;;; ret tt) c = (c', o) ->
    P (db c) -> P (db c').
Proof.
  intros Hstep batch. induction batch as [|x rest IH]; intros c c' o Hrun HP.
  - cbn in Hrun. now injection Hrun as <- _.
  - cbn [for_each] in Hrun.
    destruct (fits (dimension (db c)) x) eqn:Hfit.
    + destruct (insertChunk_db _ _ Hfit) as (c1 & i & Hx & Hdb & _).
      rewrite (bind_return _ _ _ (c1 := c1) (a := tt)) in Hrun
        by (rewrite (bind_return _ _ _ Hx); reflexivity).
      apply (IH _ _ _ Hrun). rewrite Hdb. now apply Hstep.
    + destruct (insertChunk_refused _ _ Hfit) as (c1 & Hx & Hdb & _).
      rewrite (bind_throw _ _ _ (c1 := c1) (e := SqliteError)) in Hrun
        by (now apply bind_throw).
      injection Hrun as <- _. now rewrite Hdb.
Qed.

Lemma insertChunks_keeps (P : Database -> Prop) :
  (forall chunk now d,
      P d -> fits (dimension d) chunk = true ->
      P (db_after_insert chunk now d)) ->
  forall batch c c' o,
    insertChunks batch c = (c', o) -> P (db c) -> P (db c').
Proof.
  intros Hstep batch c c' o. unfold insertChunks, transaction.
  destruct (for_each batch _ _) as [c1 o1] eqn:Hrun.
  intros Heq HP.
  assert (H1 : P (db c1)).
  { apply (@insert_loop_keeps P Hstep _ _ _ _ Hrun). exact HP. }
  destruct o1; injection Heq as <- _; cbn; assumption.
Qed.

Lemma filter_not_among_nil (l : list VecRow) :
  filter (not_among []) l = l.
Proof. unfold not_among. cbn. apply filter_true. Qed.

Lemma delete_vec_loop_db ids : forall c,
  exists c',
    for_each ids (fun id => exec (delete_vec id)) c = (c', Return tt)
    /\ db c'
       = {| dimension := dimension (db c); chunks := chunks (db c);
            chunks_seq := chunks_seq (db c);
            vec_chunks := filter (not_among ids) (vec_chunks (db c));
            vec_seq := vec_seq (db c) |}.
Proof.
  induction ids as [|id ids IH]; intros c.
  - exists c. split; [reflexivity|]. rewrite filter_not_among_nil.
    now destruct (db c).
  - set (c1 := fst (exec (delete_vec id) c)).
    destruct (IH c1) as (c' & Hrun & Hdb).
    exists c'. split.
    + cbn [for_each]. erewrite bind_return; [exact Hrun | reflexivity].
    + rewrite Hdb. cbn. f_equal. rewrite filter_filter. apply filter_ext.
      intros v. unfold not_among. cbn. now rewrite negb_orb.
Qed.

Lemma deleteChunksByFile_db f c :
  exists c',
    deleteChunksByFile f c = (c', Return tt)
    /\ db c' = db_after_delete f (db c)
    /\ in_transaction c' = in_transaction c.
Proof.
  unfold deleteChunksByFile.
  set (ids := select_vec_rowids f (chunks (db c))).
  set (c0 := {| db := db c; committed := committed c;
                in_transaction := true;
                clock := clock c; ticks := ticks c |}).
  destruct (delete_vec_loop_db ids c0) as (c1 & Hrun & Hdb).
  unfold bind at 1. unfold query at 1. fold ids.
  unfold bind, transaction. fold c0. rewrite Hrun.
  unfold exec, delete_chunks, with_db. cbn.
  eexists. split; [reflexivity|]. cbn. rewrite Hdb. cbn.
  split; reflexivity.
Qed.

End StoreSteps.

Section StoreInvariant.
Context {B : Backend}.
Import VectorStore VectorStore.Notations.

Definition chunk_key (row : ChunkRow) : jsstring * jsstring :=
  (file_path row, hash row).

(** The vector rowids that rows of [chunks] refer to. *)
Definition refs (rows : list ChunkRow) : list nat :=
  flat_map (fun row => match vec_rowid row with
                       | Some r => [r]
                       | None => []
                       end) rows.

(** What the schema and the methods intend: [(file_path, hash)] and [id]
    are unique in [chunks], [rowid] is unique in [vec_chunks], every
    [vec_rowid] is the rowid of a vector, and no two rows share one. *)
Record well_formed (d : Database) : Prop := {
  wf_keys : NoDup (map chunk_key (chunks d));
  wf_ids : NoDup (map id (chunks d));
  wf_rowids : NoDup (map rowid (vec_chunks d));
  wf_refs : incl (refs (chunks d)) (map rowid (vec_chunks d));
  wf_unshared : NoDup (refs (chunks d))
}.

Lemma NoDup_map_filter {A C} (f : A -> C) (p : A -> bool) l :
  NoDup (map f l) -> NoDup (map f (filter p l)).
Proof.
  induction l as [|x l IH]; simpl; [auto|].
  intros H. inversion H as [|? ? Hx Hl]; subst.
  destruct (p x); simpl; [constructor|]; auto.
  intros Hin. apply Hx. apply in_map_iff in Hin as (y & Hy & Hin).
  apply filter_In in Hin as [Hin _]. apply in_map_iff. eauto.
Qed.

Lemma refs_app l1 l2 : refs (l1 ++ l2) = refs l1 ++ refs l2.
Proof. apply flat_map_app. Qed.

Lemma refs_In rows r :
  In r (refs rows) <-> exists row, In row rows /\ vec_rowid row = Some r.
Proof.
  unfold refs. rewrite in_flat_map. split.
  - intros (row & Hin & Hr). exists row. split; [exact Hin|].
    destruct (vec_rowid row) as [r'|]; [|destruct Hr].
    destruct Hr as [-> | []]. reflexivity.
  - intros (row & Hin & Hr). exists row. split; [exact Hin|].
    rewrite Hr. now left.
Qed.

Lemma refs_filter_incl p rows : incl (refs (filter p rows)) (refs rows).
Proof.
  intros r Hr. apply refs_In in Hr as (row & Hin & Hrow).
  apply filter_In in Hin as [Hin _]. apply refs_In. eauto.
Qed.

Lemma refs_cons row rows :
  refs (row :: rows)
  = match vec_rowid row with
    | Some r => r :: refs rows
    | None => refs rows
    end.
Proof. unfold refs. cbn. now destruct (vec_rowid row). Qed.

Lemma refs_filter_NoDup p rows :
  NoDup (refs rows) -> NoDup (refs (filter p rows)).
Proof.
  induction rows as [|row rows IH]; [auto|].
  rewrite refs_cons. cbn [filter]. intros H.
  destruct (vec_rowid row) as [r|] eqn:Er.
  - inversion H as [|? ? Hr Hrest]; subst.
    destruct (p row); [|auto].
    rewrite refs_cons, Er. constructor; [|auto].
    intros Hin. apply Hr. now apply (refs_filter_incl p).
  - destruct (p row); [|auto]. rewrite refs_cons, Er. auto.
Qed.

Lemma list_max_ge l x : In x l -> x <= list_max l.
Proof.
  intros Hin. pose proof (proj1 (list_max_le l (list_max l)) (le_n _)) as H.
  rewrite Forall_forall in H. auto.
Qed.

Lemma same_key_iff f h row :
  same_key f h row = true <-> chunk_key row = (f, h).
Proof.
  unfold same_key, chunk_key. rewrite andb_true_iff, !str_eqb_eq.
  split; [intros [-> ->]; reflexivity | intros [= -> ->]; auto].
Qed.

Lemma well_formed_initTables dim : well_formed (initTables dim).
Proof. split; cbn; try constructor. intros x []. Qed.

Lemma well_formed_insert chunk now d :
  well_formed d -> well_formed (db_after_insert chunk now d).
Proof.
  intros [Hk Hi Hr Hrefs Hu].
  set (kept := filter (fun row => negb (same_key (filePath chunk)
                                                 (chunk_hash chunk) row))
                      (chunks d)).
  assert (Hkeys : forall v t,
             NoDup (map chunk_key
                        (kept ++ [{| id := S (Nat.max (chunks_seq d)
                                               (list_max (map id (chunks d))));
                                     file_path := filePath chunk;
                                     content := chunk_content chunk;
                                     hash := chunk_hash chunk;
                                     vec_rowid := v; created_at := t |}]))).
  { intros v t. rewrite map_app. apply NoDup_app;
      [now apply NoDup_map_filter | repeat constructor; intros [] |].
    intros k Hin [<- | []]. apply in_map_iff in Hin as (row & Hrow & Hin).
    apply filter_In in Hin as [_ Hne]. apply negb_true_iff in Hne.
    unfold chunk_key at 2 in Hrow. cbn in Hrow.
    apply same_key_iff in Hrow. congruence. }
  assert (Hids : forall v t,
             NoDup (map id
                        (kept ++ [{| id := S (Nat.max (chunks_seq d)
                                               (list_max (map id (chunks d))));
                                     file_path := filePath chunk;
                                     content := chunk_content chunk;
                                     hash := chunk_hash chunk;
                                     vec_rowid := v; created_at := t |}]))).
  { intros v t. rewrite map_app. apply NoDup_app;
      [now apply NoDup_map_filter | repeat constructor; intros [] |].
    intros k Hin [<- | []]. apply in_map_iff in Hin as (row & Hrow & Hin).
    apply filter_In in Hin as [Hin _].
    assert (Hle : id row <= list_max (map id (chunks d)))
      by (apply list_max_ge, in_map; exact Hin).
    cbn in Hrow. lia. }
  assert (Hkept : incl (refs kept) (refs (chunks d)))
    by apply refs_filter_incl.
  assert (Hkept' : NoDup (refs kept)) by now apply refs_filter_NoDup.
  unfold db_after_insert. fold kept.
  destruct (chunk_embedding chunk) as [e|]; split;
    cbn [chunks vec_chunks]; auto.
  - rewrite map_app. cbn [map rowid].
    apply NoDup_app; [exact Hr | repeat constructor; intros [] |].
    intros r Hin [<- | []].
    apply list_max_ge in Hin. unfold next_rowid in Hin. lia.
  - rewrite refs_app, map_app. cbn [map rowid]. intros r Hin.
    apply in_or_app. apply in_app_or in Hin as [Hin | Hin].
    + left. apply Hrefs, Hkept, Hin.
    + right. exact Hin.
  - rewrite refs_app.
    apply NoDup_app; [exact Hkept' | repeat constructor; intros [] |].
    intros r Hin [<- | []].
    apply Hkept, Hrefs, list_max_ge in Hin.
    unfold next_rowid in Hin. lia.
  - rewrite refs_app. cbn [refs flat_map vec_rowid app].
    rewrite app_nil_r. intros r Hin. apply Hrefs, Hkept, Hin.
  - rewrite refs_app. cbn [refs flat_map vec_rowid app].
    rewrite app_nil_r. exact Hkept'.
Qed.

End StoreInvariant.

Section StoreInvariantKept.
Context {B : Backend}.
Import VectorStore VectorStore.Notations.

Lemma refs_unshared rows : NoDup (refs rows) ->
  forall row row' r,
    In row rows -> In row' rows ->
    vec_rowid row = Some r -> vec_rowid row' = Some r -> row = row'.
Proof.
  induction rows as [|x rows IH]; intros H row row' r Hin Hin' Hr Hr';
    [destruct Hin|].
  rewrite refs_cons in H.
  assert (Hrest : NoDup (refs rows)).
  { destruct (vec_rowid x); [now inversion H | exact H]. }
  assert (Hx : forall y, In y rows -> vec_rowid x = Some r ->
                         vec_rowid y = Some r -> False).
  { intros y Hy Hxr Hyr. rewrite Hxr in H. inversion H as [|? ? Hn _]; subst.
    apply Hn. apply refs_In. eauto. }
  destruct Hin as [<- | Hin], Hin' as [<- | Hin'].
  - reflexivity.
  - exfalso. eauto.
  - exfalso. eauto.
  - eapply IH; eauto.
Qed.

Lemma well_formed_delete f d :
  well_formed d -> well_formed (db_after_delete f d).
Proof.
  intros [Hk Hi Hr Hrefs Hu]. split; cbn [db_after_delete chunks vec_chunks].
  - now apply NoDup_map_filter.
  - now apply NoDup_map_filter.
  - now apply NoDup_map_filter.
  - intros r Hin. apply refs_In in Hin as (row & Hin & Hrow).
    apply filter_In in Hin as [Hin Hne].
    assert (Hv : In r (map rowid (vec_chunks d)))
      by (apply Hrefs, refs_In; eauto).
    apply in_map_iff in Hv as (v & <- & Hv).
    apply in_map. apply filter_In. split; [exact Hv|].
    unfold not_among. apply negb_true_iff.
    destruct (existsb _ _) eqn:E; [|reflexivity]. exfalso.
    apply existsb_exists in E as (r' & Hr' & Heq).
    apply Nat.eqb_eq in Heq. subst r'.
    apply select_vec_rowids_In in Hr' as (row' & Hin' & Hf & Hrow').
    assert (row = row') by (eapply refs_unshared; eauto). subst row'.
    rewrite Hf, str_eqb_refl in Hne. discriminate.
  - now apply refs_filter_NoDup.
Qed.

(** X9. A new database is well formed, and [insertChunk], [insertChunks]
    and [deleteChunksByFile] keep a database well formed, whether they
    return or throw: source and fingerprint stay unique, every [vec_rowid]
    is the rowid of a vector, and no two rows share a vector. *)
Theorem store_stays_well_formed :
  (forall dim, well_formed (initTables dim))
  /\ (forall chunk c c' o,
        insertChunk chunk c = (c', o) ->
        well_formed (db c) -> well_formed (db c'))
  /\ (forall batch c c' o,
        insertChunks batch c = (c', o) ->
        well_formed (db c) -> well_formed (db c'))
  /\ (forall f c c' o,
        deleteChunksByFile f c = (c', o) ->
        well_formed (db c) -> well_formed (db c')).
Proof.
  split; [apply well_formed_initTables|]. split; [|split].
  - intros chunk c c' o Hrun Hwf.
    destruct (fits (dimension (db c)) chunk) eqn:Hfit.
    + destruct (insertChunk_db _ _ Hfit) as (c1 & i & Hx & Hdb & _).
      rewrite Hx in Hrun. injection Hrun as <- _.
      rewrite Hdb. now apply well_formed_insert.
    + destruct (insertChunk_refused _ _ Hfit) as (c1 & Hx & Hdb & _).
      rewrite Hx in Hrun. injection Hrun as <- _. now rewrite Hdb.
  - intros batch c c' o Hrun.
    apply (@insertChunks_keeps B well_formed) with (batch := batch) (o := o);
      [|exact Hrun].
    intros chunk now d Hd _. now apply well_formed_insert.
  - intros f c c' o Hrun Hwf.
    destruct (deleteChunksByFile_db f c) as (c1 & Hx & Hdb & _).
    rewrite Hx in Hrun. injection Hrun as <- _.
    rewrite Hdb. now apply well_formed_delete.
Qed.

End StoreInvariantKept.

Lemma store_stays_well_formed_witness :
  well_formed (VectorStore.db indexed_twice).
Proof.
  destruct (@store_stays_well_formed IntBackend) as (Hinit & Hins & _).
  unfold indexed_twice.
  eapply Hins; [apply surjective_pairing|].
  unfold indexed_once.
  eapply Hins; [apply surjective_pairing|].
  apply Hinit.
Defined.

Section StoreRoundTrips.
Context {B : Backend}.
Import VectorStore VectorStore.Notations.

Definition has_vector (row : ChunkRow) : bool :=
  match vec_rowid row with Some _ => true | None => false end.

Lemma length_refs rows : length (refs rows) = length (filter has_vector rows).
Proof.
  induction rows as [|row rows IH]; [reflexivity|].
  rewrite refs_cons. unfold has_vector at 1. cbn [filter].
  destruct (vec_rowid row); simpl; now rewrite IH.
Qed.

Lemma length_join_cons vecs row rows :
  length (flat_map (fun v => map (fun c => (v, c))
                                 (filter (references v) (row :: rows))) vecs)
  = length (filter (fun v => references v row) vecs)
    + length (flat_map (fun v => map (fun c => (v, c)) (filter (references v) rows))
                       vecs).
Proof.
  induction vecs as [|v vecs IH]; [reflexivity|].
  cbn [flat_map]. rewrite !length_app, IH, !length_map.
  cbn [filter].
  destruct (references v row); cbn [length]; lia.
Qed.

Lemma length_join_nil vecs :
  length (flat_map (fun v : VecRow =>
                      map (fun c => (v, c)) (filter (references v) [])) vecs) = 0.
Proof. induction vecs; simpl; auto. Qed.

Lemma count_rowid vecs r :
  NoDup (map rowid vecs) -> In r (map rowid vecs) ->
  length (filter (fun v => r =? rowid v) vecs) = 1.
Proof.
  induction vecs as [|v vecs IH]; intros Hnd Hin; [destruct Hin|].
  cbn [map] in *. inversion Hnd as [|? ? Hv Hrest]; subst.
  cbn [filter]. destruct (Nat.eqb_spec r (rowid v)) as [->|Hne].
  - cbn [length]. f_equal.
    replace (filter _ vecs) with (@nil VecRow); [reflexivity|].
    symmetry. clear IH Hin Hnd Hrest.
    induction vecs as [|w vecs IH]; [reflexivity|]. cbn [filter].
    destruct (Nat.eqb_spec (rowid v) (rowid w)) as [E|E].
    + exfalso. apply Hv. left. now symmetry.
    + apply IH. intros H. apply Hv. now right.
  - destruct Hin as [E|Hin]; [congruence|]. now apply IH.
Qed.

Lemma length_join_well_formed d :
  NoDup (map rowid (vec_chunks d)) ->
  incl (refs (chunks d)) (map rowid (vec_chunks d)) ->
  length (join_tables d) = length (filter has_vector (chunks d)).
Proof.
  unfold join_tables. rewrite <- length_refs. intros Hnd.
  induction (chunks d) as [|row rows IH]; intros Hincl.
  - apply length_join_nil.
  - rewrite length_join_cons, refs_cons. rewrite refs_cons in Hincl.
    unfold references at 1.
    destruct (vec_rowid row) as [r|].
    + rewrite (@count_rowid (vec_chunks d) r Hnd) by (apply Hincl; now left).
      cbn [length Nat.add]. f_equal. apply IH. intros x Hx. apply Hincl.
      now right.
    + rewrite IH by exact Hincl.
      assert (E : forall l : list VecRow, filter (fun _ => false) l = [])
        by (induction l; simpl; auto).
      now rewrite E.
Qed.

(** X10. In a well-formed database a search with a query vector of the
    length of the stored vectors returns exactly [min(k, n)] results, [n]
    the number of rows of [chunks] that have a vector: vectors that no
    row refers to and rows without a vector do not count. *)
Theorem similaritySearch_count (c : Conn) (q : list float) (k : nat) :
  well_formed (db c) ->
  stored_length q (db c) ->
  exists results,
    similaritySearch (Some q) k c = (c, Return results)
    /\ length results
       = Nat.min k (length (filter has_vector (chunks (db c)))).
Proof.
  intros [_ _ Hr Hrefs _] Hlen. eexists.
  split; [apply similaritySearch_fitting, stored_length_fitting, Hlen|].
  rewrite length_map, length_firstn.
  rewrite (Permutation_length (order_by_distance_perm _)), length_map.
  now rewrite length_join_well_formed.
Qed.

Lemma row_fileExists row c :
  In row (chunks (db c)) -> fileExists (file_path row) c = (c, Return true).
Proof.
  intros Hin. unfold fileExists, bind, query, ret, count_by_file.
  assert (Hf : In row (filter (fun r => str_eqb (file_path r) (file_path row))
                              (chunks (db c))))
    by (apply filter_In; split; [exact Hin | apply str_eqb_refl]).
  destruct (filter _ (chunks (db c))); [destruct Hf | reflexivity].
Qed.

Lemma length_select_nearest_eq q k d rows :
  select_nearest q k d = inr rows ->
  length rows = Nat.min k (length (join_tables d)).
Proof.
  unfold select_nearest. destruct (Nat.eqb_spec k 0) as [->|_];
    [intros [= <-]; reflexivity|].
  destruct (rows_of q (join_tables d)) as [e|all] eqn:E; [discriminate|].
  intros [= <-]. rewrite length_firstn.
  rewrite (Permutation_length (order_by_distance_perm _)).
  apply rows_of_inr in E as [[-> ->] | (q' & _ & _ & ->)];
    [reflexivity | now rewrite length_map].
Qed.

Lemma length_select_nearest q k d rows :
  select_nearest q k d = inr rows -> length rows <= k.
Proof. intros H. rewrite (length_select_nearest_eq _ _ _ H). lia. Qed.

(** X11. [similaritySearch] only reads: whatever its outcome, the
    connection is as before. When it returns, it returns at most [k]
    results, each the content and the source of a row of [chunks], so
    [fileExists] holds of its source. It returns for every query vector
    of the length of the joined vectors; it throws exactly for [k > 0]
    on a database with a joined row, when the query is [undefined] or of
    another length than a joined vector. It never hangs. *)
Theorem similaritySearch_reads_the_store (c : Conn)
        (q : option (list float)) (k : nat) :
  match similaritySearch q k c with
  | (c', Return results) =>
      c' = c
      /\ length results <= k
      /\ forall r, In r results ->
           (exists row, In row (chunks (db c))
                        /\ ctx_content r = content row
                        /\ ctx_filePath r = file_path row)
           /\ fileExists (ctx_filePath r) c = (c, Return true)
  | (c', Throw e) =>
      c' = c /\ e = SqliteError /\ 0 < k /\ join_tables (db c) <> []
      /\ forall q', q = Some q' -> ~ fitting q' (join_tables (db c))
  | (_, Hang) => False
  end
  /\ (forall q', fitting q' (join_tables (db c)) ->
       exists results, similaritySearch (Some q') k c = (c, Return results))
  /\ (0 < k -> join_tables (db c) <> [] ->
      (forall q', q = Some q' -> ~ fitting q' (join_tables (db c))) ->
      similaritySearch q k c = (c, Throw SqliteError)).
Proof.
  split; [|split].
  - pose proof (similaritySearch_outcome q k c) as Hout.
    destruct (similaritySearch q k c) as [c' [results|e|]];
      [|exact Hout | exact Hout].
    destruct Hout as (-> & rows & Hsel & ->). split; [reflexivity|].
    split; [rewrite length_map;
            exact (@length_select_nearest q k (db c) rows Hsel)|].
    intros r Hin. apply in_map_iff in Hin as (row & <- & Hrow).
    destruct (@select_nearest_joined B q k (db c) rows row Hsel Hrow)
      as (q' & v & ch & _ & _ & Hc & _ & ->).
    cbn. split; [exists ch; auto | now apply row_fileExists].
  - intros q' Hfit. eexists. now apply similaritySearch_fitting.
  - intros Hk Hne Hq. unfold similaritySearch, bind, select, select_nearest.
    destruct (Nat.eqb_spec k 0) as [->|_]; [lia|].
    now rewrite (rows_of_refused Hne Hq).
Qed.

(** X12. [getAllFiles] lists every source once, and a source is listed
    exactly when [fileExists] holds of it. *)
Theorem getAllFiles_fileExists (c : Conn) :
  exists files,
    getAllFiles c = (c, Return files)
    /\ NoDup files
    /\ forall s, In s files <-> fileExists s c = (c, Return true).
Proof.
  exists (select_distinct_files (db c)). split; [reflexivity|].
  split; [apply sql_distinct_NoDup|].
  intros s. unfold select_distinct_files.
  rewrite sql_distinct_In, in_map_iff. split.
  - intros (row & <- & Hrow). now apply row_fileExists.
  - intros Hex. unfold fileExists, bind, query, ret, count_by_file in Hex.
    destruct (filter _ (chunks (db c))) as [|row l] eqn:E; [discriminate|].
    assert (Hin' : In row (filter (fun r => str_eqb (file_path r) s)
                                  (chunks (db c))))
      by (rewrite E; now left).
    apply filter_In in Hin' as [Hin' Hs]. apply str_eqb_eq in Hs.
    exists row. auto.
Qed.

End StoreRoundTrips.

Lemma indexed_twice_well_formed :
  @well_formed IntBackend (VectorStore.db indexed_twice).
Proof.
  unfold indexed_twice.
  destruct (@insertChunk_db IntBackend (sample_chunk [0; 1]%Z) indexed_once
              eq_refl) as (c2 & i2 & -> & Hdb2 & _).
  cbn [fst]. rewrite Hdb2.
  apply well_formed_insert. unfold indexed_once.
  destruct (@insertChunk_db IntBackend (sample_chunk [1; 0]%Z)
              (VectorStore.connect (VectorStore.initTables 2) (fun n => n))
              eq_refl) as (c1 & i1 & -> & Hdb1 & _).
  cbn [fst]. rewrite Hdb1.
  apply well_formed_insert, well_formed_initTables.
Qed.

Lemma similaritySearch_reads_the_store_witness :
  VectorStore.similaritySearch (Some [1]%Z) 5 indexed_twice
  = (indexed_twice, Throw SqliteError)
  /\ VectorStore.similaritySearch None 5 indexed_twice
     = (indexed_twice, Throw SqliteError).
Proof.
  split.
  - destruct (@similaritySearch_reads_the_store IntBackend indexed_twice
                (Some [1]%Z) 5) as (_ & _ & Hthrow).
    apply Hthrow; [lia | discriminate|].
    intros q' [= <-] Hfit. inversion Hfit as [|? ? Hlen _]. discriminate.
  - destruct (@similaritySearch_reads_the_store IntBackend indexed_twice
                None 5) as (_ & _ & Hthrow).
    apply Hthrow; [lia | discriminate | discriminate].
Defined.

Lemma similaritySearch_count_witness :
  exists results,
    VectorStore.similaritySearch (Some [0; 1]%Z) 5 indexed_twice
    = (indexed_twice, Return results)
    /\ length results = 1.
Proof.
  destruct (@similaritySearch_count IntBackend indexed_twice [0; 1]%Z 5
              indexed_twice_well_formed) as (r & H1 & H2).
  - repeat constructor.
  - exists r. split; [exact H1 | exact H2].
Defined.

Section InsertRoundTrip.
Context {B : Backend}.
Import VectorStore VectorStore.Notations.

Lemma length_join_le d :
  well_formed d -> length (join_tables d) <= length (chunks d).
Proof.
  intros [_ _ Hr Hrefs _]. rewrite length_join_well_formed by assumption.
  pose proof (filter_length has_vector (chunks d)). lia.
Qed.

(** Every stored vector has the declared length, as the column
    [embedding FLOAT[dimension]] has it. *)
Definition dimensioned (d : Database) : Prop :=
  Forall (fun v => length (embedding v) = dimension d) (vec_chunks d).

Lemma dimensioned_initTables dim : dimensioned (initTables dim).
Proof. constructor. Qed.

Lemma dimensioned_insert chunk now d :
  dimensioned d -> fits (dimension d) chunk = true ->
  dimensioned (db_after_insert chunk now d).
Proof.
  unfold dimensioned, fits, db_after_insert. intros Hd Hfit.
  destruct (chunk_embedding chunk) as [e|]; cbn [vec_chunks dimension];
    [|exact Hd].
  apply Forall_app. split; [exact Hd|].
  constructor; [|constructor]. cbn. now apply Nat.eqb_eq.
Qed.

Lemma dimensioned_delete f d :
  dimensioned d -> dimensioned (db_after_delete f d).
Proof.
  unfold dimensioned, db_after_delete. cbn [vec_chunks dimension].
  rewrite !Forall_forall. intros H v Hin.
  apply filter_In in Hin as [Hin _]. auto.
Qed.

Lemma dimensioned_stored_length q d :
  dimensioned d -> length q = dimension d -> stored_length q d.
Proof.
  unfold dimensioned, stored_length. intros H Hq.
  eapply Forall_impl; [|exact H]. cbv beta. intros v Hv. congruence.
Qed.

(** X13. In a well-formed database whose vectors have the declared
    length, a chunk inserted with a vector of that length is found
    again: its source exists and is listed, and a search with a query
    vector of that length that asks for at least as many results as
    there are chunks returns its content under its source, with
    similarity [1 - distance] of its own vector. *)
Theorem insertChunk_then_found (chunk : DocumentChunk) (e : list float)
        (c : Conn) :
  well_formed (db c) ->
  dimensioned (db c) ->
  chunk_embedding chunk = Some e ->
  length e = dimension (db c) ->
  exists c' i,
    insertChunk chunk c = (c', Return i)
    /\ fileExists (filePath chunk) c' = (c', Return true)
    /\ (exists files, getAllFiles c' = (c', Return files)
                      /\ In (filePath chunk) files)
    /\ forall q k,
         length q = dimension (db c) ->
         length (chunks (db c')) <= k ->
         exists results,
           similaritySearch (Some q) k c' = (c', Return results)
           /\ In {| ctx_content := chunk_content chunk;
                    ctx_filePath := filePath chunk;
                    similarity := one_minus (vec_distance_cosine e q) |}
                 results.
Proof.
  intros Hwf Hdim He Hlen.
  assert (Hfit : fits (dimension (db c)) chunk = true)
    by (unfold fits; rewrite He; now apply Nat.eqb_eq).
  destruct (insertChunk_db _ _ Hfit) as (c' & i & Hrun & Hdb & _).
  exists c', i. split; [exact Hrun|].
  pose proof (well_formed_insert chunk (clock c (ticks c)) Hwf) as Hwf'.
  pose proof (dimensioned_insert chunk (clock c (ticks c)) Hdim Hfit)
    as Hdim'.
  rewrite <- Hdb in Hwf', Hdim'.
  assert (Hd' : dimension (db c') = dimension (db c)).
  { rewrite Hdb. unfold db_after_insert.
    now destruct (chunk_embedding chunk). }
  set (r := next_rowid (db c)).
  set (row := {| id := S (Nat.max (chunks_seq (db c))
                                  (list_max (map id (chunks (db c)))));
                 file_path := filePath chunk;
                 content := chunk_content chunk;
                 hash := chunk_hash chunk;
                 vec_rowid := Some r;
                 created_at := clock c (ticks c) |}).
  assert (Hrow : In row (chunks (db c'))).
  { rewrite Hdb. unfold db_after_insert. rewrite He. cbn [chunks].
    apply in_or_app. right. now left. }
  assert (Hvec : In {| rowid := r; embedding := e |} (vec_chunks (db c'))).
  { rewrite Hdb. unfold db_after_insert. rewrite He. cbn [vec_chunks].
    apply in_or_app. right. now left. }
  split; [exact (row_fileExists row c' Hrow)|]. split.
  - exists (select_distinct_files (db c')). split; [reflexivity|].
    unfold select_distinct_files. apply sql_distinct_In.
    apply in_map_iff. exists row. auto.
  - intros q k Hq Hk. eexists.
    split.
    { apply similaritySearch_fitting, stored_length_fitting.
      apply dimensioned_stored_length; [exact Hdim' | congruence]. }
    rewrite firstn_all2.
    + change {| ctx_content := chunk_content chunk;
                ctx_filePath := filePath chunk;
                similarity := one_minus (vec_distance_cosine e q) |}
        with (to_context
                (search_row q ({| rowid := r; embedding := e |}, row))).
      apply (in_map to_context).
      apply (Permutation_in _ (Permutation_sym (order_by_distance_perm _))).
      apply in_map. apply in_join_tables. auto.
    + rewrite (Permutation_length (order_by_distance_perm _)), length_map.
      pose proof (length_join_le Hwf'). lia.
Qed.

Lemma count_same_key f h rows :
  NoDup (map chunk_key rows) ->
  length (filter (same_key f h) rows)
  = if existsb (same_key f h) rows then 1 else 0.
Proof.
  induction rows as [|row rows IH]; [reflexivity|].
  cbn [map filter existsb]. intros Hnd.
  inversion Hnd as [|? ? Hrow Hrest]; subst.
  destruct (same_key f h row) eqn:E; cbn [orb length].
  - apply same_key_iff in E.
    replace (filter (same_key f h) rows) with (@nil ChunkRow);
      [reflexivity|].
    symmetry. clear IH Hnd Hrest.
    induction rows as [|x rows IH]; [reflexivity|]. cbn [filter].
    destruct (same_key f h x) eqn:Ex.
    + apply same_key_iff in Ex. exfalso. apply Hrow. left. congruence.
    + apply IH. intros H. apply Hrow. now right.
  - now apply IH.
Qed.

(** X14. In a well-formed database an accepted [insertChunk] adds one to
    the chunk count when no row holds the chunk's source and fingerprint,
    and leaves the count as it is when one does: indexing the same
    content of the same source again does not grow the table. *)
Theorem insertChunk_count (chunk : DocumentChunk) (c : Conn) :
  well_formed (db c) ->
  fits (dimension (db c)) chunk = true ->
  exists c' i,
    insertChunk chunk c = (c', Return i)
    /\ length (chunks (db c'))
       = if existsb (same_key (filePath chunk) (chunk_hash chunk))
                    (chunks (db c))
         then length (chunks (db c))
         else S (length (chunks (db c))).
Proof.
  intros [Hk _ _ _ _] Hfit.
  destruct (insertChunk_db _ _ Hfit) as (c' & i & Hrun & Hdb & _).
  exists c', i. split; [exact Hrun|]. rewrite Hdb.
  pose proof (filter_length (same_key (filePath chunk) (chunk_hash chunk))
                            (chunks (db c))) as Hlen.
  rewrite (@count_same_key (filePath chunk) (chunk_hash chunk) _ Hk)
    in Hlen.
  assert (Hch : length (chunks (db_after_insert chunk (clock c (ticks c))
                                                (db c)))
                = S (length (filter
                               (fun row => negb (same_key (filePath chunk)
                                                          (chunk_hash chunk)
                                                          row))
                               (chunks (db c))))).
  { unfold db_after_insert.
    destruct (chunk_embedding chunk); cbn [chunks];
      rewrite length_app; cbn [length]; lia. }
  rewrite Hch.
  destruct (existsb _ (chunks (db c))); lia.
Qed.

End InsertRoundTrip.

Lemma indexed_once_well_formed :
  @well_formed IntBackend (VectorStore.db indexed_once).
Proof.
  unfold indexed_once.
  destruct (@insertChunk_db IntBackend (sample_chunk [1; 0]%Z)
              (VectorStore.connect (VectorStore.initTables 2) (fun n => n))
              eq_refl) as (c1 & i1 & -> & Hdb1 & _).
  cbn [fst]. rewrite Hdb1.
  apply well_formed_insert, well_formed_initTables.
Qed.

Lemma indexed_once_dimensioned :
  @dimensioned IntBackend (VectorStore.db indexed_once).
Proof. repeat constructor. Qed.

Lemma insertChunk_then_found_witness :
  exists c' i,
    VectorStore.insertChunk other_chunk indexed_once = (c', Return i)
    /\ VectorStore.fileExists (lit "b.txt") c' = (c', Return true)
    /\ exists results,
        VectorStore.similaritySearch (Some [0; 1]%Z) 5 c'
        = (c', Return results)
        /\ In {| VectorStore.ctx_content := lit "world";
                 VectorStore.ctx_filePath := lit "b.txt";
                 VectorStore.similarity := 0%Z |} results.
Proof.
  destruct (@insertChunk_then_found IntBackend other_chunk [0; 2]%Z
              indexed_once indexed_once_well_formed
              indexed_once_dimensioned eq_refl eq_refl)
    as (c' & i & Hrun & Hex & _ & Hsearch).
  exists c', i. split; [exact Hrun|]. split; [exact Hex|].
  assert (Hk : length (VectorStore.chunks (VectorStore.db c')) <= 5).
  { replace c' with (fst (VectorStore.insertChunk other_chunk indexed_once))
      by (now rewrite Hrun).
    vm_compute. lia. }
  exact (Hsearch [0; 1]%Z 5 eq_refl Hk).
Defined.

Lemma insertChunk_count_witness :
  exists c' i,
    VectorStore.insertChunk (sample_chunk [0; 1]%Z) indexed_once
    = (c', Return i)
    /\ length (VectorStore.chunks (VectorStore.db c')) = 1.
Proof.
  destruct (@insertChunk_count IntBackend (sample_chunk [0; 1]%Z)
              indexed_once indexed_once_well_formed eq_refl)
    as (c' & i & Hrun & Hlen).
  exists c', i. split; [exact Hrun | exact Hlen].
Defined.

Section DeleteFrame.
Context {B : Backend}.
Import VectorStore VectorStore.Notations.

Lemma filter_idem {A} (p : A -> bool) l : filter p (filter p l) = filter p l.
Proof.
  rewrite filter_filter. apply filter_ext. intros a. now destruct (p a).
Qed.

Lemma select_vec_rowids_deleted f rows :
  select_vec_rowids f
    (filter (fun row => negb (str_eqb (file_path row) f)) rows) = [].
Proof.
  destruct (select_vec_rowids f (filter _ rows)) as [|r l] eqn:E;
    [reflexivity|].
  assert (Hin : In r (select_vec_rowids f
                        (filter (fun row => negb (str_eqb (file_path row) f))
                                rows)))
    by (rewrite E; now left).
  apply select_vec_rowids_In in Hin as (row & Hin & Hf & _).
  apply filter_In in Hin as [_ Hne]. subst f.
  now rewrite str_eqb_refl in Hne.
Qed.

Lemma db_after_delete_idem f d :
  db_after_delete f (db_after_delete f d) = db_after_delete f d.
Proof.
  unfold db_after_delete. cbn [dimension chunks chunks_seq vec_chunks].
  rewrite select_vec_rowids_deleted, filter_not_among_nil, filter_idem.
  reflexivity.
Qed.

(** X15. [deleteChunksByFile] removes as many rows as [fileExists]
    counted for the source, leaves the count of every other source as it
    was, and is idempotent: deleting the same source again changes
    nothing. *)
Theorem deleteChunksByFile_accounts (f : jsstring) (c : Conn) :
  exists c',
    deleteChunksByFile f c = (c', Return tt)
    /\ length (chunks (db c')) + count_by_file f (db c)
       = length (chunks (db c))
    /\ (forall s, s <> f -> count_by_file s (db c') = count_by_file s (db c))
    /\ exists c'',
        deleteChunksByFile f c' = (c'', Return tt) /\ db c'' = db c'.
Proof.
  destruct (deleteChunksByFile_db f c) as (c' & Hrun & Hdb & _).
  exists c'. split; [exact Hrun|]. rewrite Hdb. split; [|split].
  - unfold count_by_file. cbn [db_after_delete chunks].
    pose proof (filter_length (fun row => str_eqb (file_path row) f)
                              (chunks (db c))). lia.
  - intros s Hs. unfold count_by_file. cbn [db_after_delete chunks].
    rewrite filter_filter. f_equal. apply filter_ext. intros row.
    destruct (str_eqb (file_path row) s) eqn:E; [|apply andb_false_r].
    apply str_eqb_eq in E. rewrite E.
    apply str_eqb_neq in Hs. now rewrite Hs.
  - destruct (deleteChunksByFile_db f c') as (c'' & Hrun' & Hdb' & _).
    exists c''. split; [exact Hrun'|].
    rewrite Hdb', Hdb. apply db_after_delete_idem.
Qed.

Definition other_source (f : jsstring) (vc : VecRow * ChunkRow) : bool :=
  negb (str_eqb (file_path (snd vc)) f).

Lemma join_after_delete f d :
  well_formed d ->
  join_tables (db_after_delete f d)
  = filter (other_source f) (join_tables d).
Proof.
  intros [_ _ _ _ Hu]. unfold join_tables.
  cbn [db_after_delete chunks vec_chunks].
  induction (vec_chunks d) as [|v vs IH]; [reflexivity|].
  cbn [filter flat_map]. rewrite filter_app, <- IH.
  assert (Hmap : forall rows,
             filter (other_source f) (map (fun c => (v, c)) rows)
             = map (fun c => (v, c))
                   (filter (fun row => negb (str_eqb (file_path row) f))
                           rows)).
  { intros rows. now rewrite filter_map_swap. }
  rewrite Hmap.
  destruct (not_among (select_vec_rowids f (chunks d)) v) eqn:E.
  - cbn [flat_map]. f_equal. f_equal. rewrite !filter_filter.
    apply filter_ext. intros row. apply andb_comm.
  - replace (filter _ (filter (references v) (chunks d)))
      with (@nil ChunkRow); [reflexivity|].
    symmetry.
    destruct (filter _ (filter (references v) (chunks d)))
      as [|row l] eqn:El; [reflexivity|]. exfalso.
    assert (Hin : In row (filter
                            (fun row => negb (str_eqb (file_path row) f))
                            (filter (references v) (chunks d))))
      by (rewrite El; now left).
    apply filter_In in Hin as [Hin Hne].
    apply filter_In in Hin as [Hin Href].
    unfold references in Href.
    destruct (vec_rowid row) as [r|] eqn:Er; [|discriminate].
    apply Nat.eqb_eq in Href. subst r.
    unfold not_among in E. apply negb_false_iff in E.
    apply existsb_exists in E as (r & Hr & Hv). apply Nat.eqb_eq in Hv.
    subst r.
    apply select_vec_rowids_In in Hr as (row' & Hin' & Hf & Hr').
    assert (row = row')
      by (eapply (@refs_unshared (chunks d) Hu); eassumption).
    subst row'. subst f. now rewrite str_eqb_refl in Hne.
Qed.

Lemma Permutation_filter_same {A} (p : A -> bool) (l l' : list A) :
  Permutation l l' -> Permutation (filter p l) (filter p l').
Proof.
  induction 1 as [|x l l' _ IH|x y l|l l' l'' _ IH1 _ IH2]; cbn [filter].
  - constructor.
  - destruct (p x); [now constructor | exact IH].
  - destruct (p x), (p y); try reflexivity. apply perm_swap.
  - now transitivity (filter p l').
Qed.

(** X16. In a well-formed database, deleting a source leaves the search
    results of the other sources as they were: for a query vector of the
    length of the stored vectors and a [k] that covers all chunks, the
    results after the deletion are, up to their order, those of before
    without the results of the deleted source, and they come by
    ascending distance. *)
Theorem deleteChunksByFile_keeps_other_results (f : jsstring) (c : Conn)
        (q : list float) :
  well_formed (db c) ->
  stored_length q (db c) ->
  exists c',
    deleteChunksByFile f c = (c', Return tt)
    /\ forall k, length (chunks (db c)) <= k ->
         exists before ranked,
           similaritySearch (Some q) k c = (c, Return before)
           /\ similaritySearch (Some q) k c'
              = (c', Return (map to_context ranked))
           /\ StronglySorted closer ranked
           /\ Permutation
                (map to_context ranked)
                (filter (fun r => negb (str_eqb (ctx_filePath r) f))
                        before).
Proof.
  intros Hwf Hlen.
  destruct (deleteChunksByFile_db f c) as (c' & Hrun & Hdb & _).
  exists c'. split; [exact Hrun|]. intros k Hk.
  assert (Hlen' : stored_length q (db c')).
  { rewrite Hdb. unfold stored_length, db_after_delete in *.
    cbn [vec_chunks]. rewrite Forall_forall in *. intros v Hin.
    apply filter_In in Hin as [Hin _]. auto. }
  exists (map to_context
              (firstn k (order_by_distance
                           (map (search_row q) (join_tables (db c)))))),
         (order_by_distance (map (search_row q) (join_tables (db c')))).
  split; [apply similaritySearch_fitting, stored_length_fitting, Hlen|].
  split.
  { rewrite (similaritySearch_fitting _ _ (stored_length_fitting Hlen')).
    rewrite firstn_all2; [reflexivity|].
    rewrite (Permutation_length (order_by_distance_perm _)), length_map.
    rewrite Hdb, (join_after_delete f Hwf).
    pose proof (length_join_le Hwf).
    pose proof (filter_length (other_source f) (join_tables (db c))). lia. }
  split; [apply order_by_distance_sorted|].
  rewrite firstn_all2.
  - rewrite Hdb, (join_after_delete f Hwf).
    rewrite (order_by_distance_perm _).
    rewrite filter_map_swap.
    rewrite (Permutation_filter_same _ (order_by_distance_perm _)).
    rewrite filter_map_swap. reflexivity.
  - rewrite (Permutation_length (order_by_distance_perm _)), length_map.
    pose proof (length_join_le Hwf). lia.
Qed.

End DeleteFrame.

Lemma indexed_both_well_formed :
  @well_formed IntBackend (VectorStore.db indexed_both).
Proof.
  unfold indexed_both.
  destruct (@insertChunk_db IntBackend other_chunk indexed_once eq_refl)
    as (c2 & i2 & -> & Hdb2 & _).
  cbn [fst]. rewrite Hdb2.
  apply well_formed_insert, indexed_once_well_formed.
Qed.

Lemma deleteChunksByFile_keeps_other_results_witness :
  exists c',
    VectorStore.deleteChunksByFile (lit "a.txt") indexed_both
    = (c', Return tt)
    /\ exists after,
        VectorStore.similaritySearch (Some [0; 1]%Z) 5 c'
        = (c', Return after)
        /\ Permutation after
                       [{| VectorStore.ctx_content := lit "world";
                           VectorStore.ctx_filePath := lit "b.txt";
                           VectorStore.similarity := 0%Z |}].
Proof.
  destruct (@deleteChunksByFile_keeps_other_results IntBackend
              (lit "a.txt") indexed_both [0; 1]%Z indexed_both_well_formed)
    as (c' & Hrun & Hsearch).
  - repeat constructor.
  - exists c'. split; [exact Hrun|].
    assert (Hk : length (VectorStore.chunks (VectorStore.db indexed_both))
                 <= 5) by (vm_compute; lia).
    destruct (Hsearch 5 Hk) as (before & ranked & Hb & Ha & _ & Hperm).
    exists (map to_context ranked). split; [exact Ha|].
    assert (E : VectorStore.similaritySearch (Some [0; 1]%Z) 5 indexed_both
                = (indexed_both,
                   Return
                     [{| VectorStore.ctx_content := lit "world";
                         VectorStore.ctx_filePath := lit "b.txt";
                         VectorStore.similarity := 0%Z |};
                      {| VectorStore.ctx_content := lit "hello";
                         VectorStore.ctx_filePath := lit "a.txt";
                         VectorStore.similarity := (-1)%Z |}]))
      by (vm_compute; reflexivity).
    pose proof (f_equal (fun run => match snd run with
                                    | Return results => results
                                    | _ => []
                                    end)
                        (eq_trans (eq_sym Hb) E)) as Hbefore.
    cbn [snd] in Hbefore. rewrite Hbefore in Hperm. exact Hperm.
Defined.

Section InsertSteps.
Context {B : Backend}.
Import VectorStore VectorStore.Notations.

(** X17. [insertChunk] throws exactly when the chunk carries a vector
    whose length is not the declared dimension; the database and the
    committed states are then as before. Otherwise it returns the id of
    the new row, which is larger than every id in the table and than the
    id counter [chunks_seq] that the database records, and which is the
    counter afterwards. *)
Theorem insertChunk_outcome (chunk : DocumentChunk) (c : Conn) :
  match insertChunk chunk c with
  | (c', Return i) =>
      fits (dimension (db c)) chunk = true
      /\ chunks_seq (db c) < i
      /\ chunks_seq (db c') = i
      /\ Forall (fun row => id row < i) (chunks (db c))
      /\ exists row, In row (chunks (db c')) /\ id row = i
                     /\ content row = chunk_content chunk
  | (c', Throw e) =>
      e = SqliteError
      /\ fits (dimension (db c)) chunk = false
      /\ db c' = db c /\ committed c' = committed c
  | (_, Hang) => False
  end.
Proof.
  destruct (fits (dimension (db c)) chunk) eqn:Hfit.
  - unfold fits in Hfit. unfold insertChunk.
    assert (Hmax : Forall (fun row => id row
                           < S (Nat.max (chunks_seq (db c))
                                        (list_max (map id (chunks (db c))))))
                          (chunks (db c))).
    { apply Forall_forall. intros row Hin.
      pose proof (list_max_ge (map id (chunks (db c))) (id row)
                              (in_map id _ _ Hin)). lia. }
    destruct (chunk_embedding chunk) as [e|] eqn:Ee.
    + unfold bind, Date_now, exec, insert_vec, ret, with_db; cbn.
      rewrite Hfit. cbn. split; [reflexivity|]. split; [lia|].
      split; [reflexivity|].
      split; [exact Hmax|]. eexists. split.
      * apply in_or_app. right. left. reflexivity.
      * split; reflexivity.
    + unfold bind, Date_now, exec, ret, with_db; cbn.
      split; [reflexivity|]. split; [lia|].
      split; [reflexivity|].
      split; [exact Hmax|]. eexists. split.
      * apply in_or_app. right. left. reflexivity.
      * split; reflexivity.
  - destruct (insertChunk_refused _ _ Hfit) as (c' & -> & Hdb & _ & Hlog).
    auto.
Qed.

(** X18. Outside a transaction [insertChunk] commits twice when the
    chunk has a vector: first a state that holds the new vector, under a
    rowid that no stored vector has and that is larger than the rowid
    counter of the database, beside the rows of before; then the state
    with the new row, which refers to that rowid. Without a vector it
    commits once; inside a transaction it commits nothing. *)
Theorem insertChunk_commits (chunk : DocumentChunk) (c : Conn) :
  fits (dimension (db c)) chunk = true ->
  exists c' i,
    insertChunk chunk c = (c', Return i)
    /\ if in_transaction c then committed c' = committed c
       else match chunk_embedding chunk with
            | Some e =>
                exists mid r,
                  committed c' = db c' :: mid :: committed c
                  /\ chunks mid = chunks (db c)
                  /\ vec_chunks mid
                     = vec_chunks (db c) ++ [{| rowid := r; embedding := e |}]
                  /\ ~ In r (map rowid (vec_chunks (db c)))
                  /\ vec_seq (db c) < r
                  /\ exists row, In row (chunks (db c')) /\ id row = i
                                 /\ vec_rowid row = Some r
            | None => committed c' = db c' :: committed c
            end.
Proof.
  unfold fits, insertChunk. intros Hfit.
  destruct (chunk_embedding chunk) as [e|] eqn:Ee.
  - unfold bind, Date_now, exec, insert_vec, ret, with_db; cbn.
    rewrite Hfit. cbn. do 2 eexists. split; [reflexivity|].
    destruct (in_transaction c) eqn:Et; cbn; [reflexivity|].
    eexists. exists (next_rowid (db c)).
    split; [reflexivity|]. cbn. split; [reflexivity|].
    split; [reflexivity|]. split; [|split].
    + intros Hin. apply list_max_ge in Hin. unfold next_rowid in Hin. lia.
    + unfold next_rowid. lia.
    + eexists. split; [apply in_or_app; right; left; reflexivity|].
      split; reflexivity.
  - unfold bind, Date_now, exec, ret, with_db; cbn.
    do 2 eexists. split; [reflexivity|].
    destruct (in_transaction c); reflexivity.
Qed.

End InsertSteps.

Lemma insertChunk_commits_witness :
  exists c' i mid,
    VectorStore.insertChunk (sample_chunk [0; 1]%Z) indexed_once
    = (c', Return i)
    /\ VectorStore.committed c'
       = VectorStore.db c' :: mid :: VectorStore.committed indexed_once
    /\ length (VectorStore.chunks mid) = 1
    /\ length (VectorStore.vec_chunks mid) = 2.
Proof.
  destruct (@insertChunk_commits IntBackend (sample_chunk [0; 1]%Z)
              indexed_once eq_refl)
    as (c' & i & Hrun & mid & r & Hlog & Hc & Hv & _).
  exists c', i, mid. split; [exact Hrun|]. split; [exact Hlog|].
  rewrite Hc, Hv. split; reflexivity.
Defined.

(** ** The pipelines on the database *)

Section PipelineFacts.
Context {B : Backend}.
Import VectorStore VectorStore.Notations.
Variable embeddings_create
  : jsstring -> list jsstring -> outcome (list (list float)).
Variable merged : RagConfig.
Variable fs : FileSystem.

(** A property of the database that accepted insertions keep. *)
Definition kept_by_insert (P : Database -> Prop) : Prop :=
  forall chunk now d,
    P d -> fits (dimension d) chunk = true -> P (db_after_insert chunk now d).

(** A property of the database that deletions of a source keep. *)
Definition kept_by_delete (P : Database -> Prop) : Prop :=
  forall f d, P d -> P (db_after_delete f d).

Lemma chunk_embed_insert_keeps P config filePath relativePath c c' o :
  kept_by_insert P ->
  Indexer.chunk_embed_insert embeddings_create merged fs config
                             filePath relativePath c = (c', o) ->
  P (db c) -> P (db c').
Proof.
  intros Hins. unfold Indexer.chunk_embed_insert, bind, lift, ret.
  destruct (readFileSync fs filePath) as [content| |];
    try (intros [= <- _]; auto; fail).
  destruct (Indexer.call_chunkText content config) as [pieces| |];
    try (intros [= <- _]; auto; fail).
  destruct (length pieces =? 0); [intros [= <- _]; auto|].
  destruct (Embedder.generateEmbeddings _ _ _ _) as [embeddings| |];
    try (intros [= <- _]; auto; fail).
  destruct (insertChunks _ c) as [c1 o1] eqn:Hrun.
  intros Heq HP.
  assert (H1 : P (db c1)) by (eapply insertChunks_keeps; eassumption).
  destruct o1; injection Heq as <- _; exact H1.
Qed.

Lemma index_loop_keeps P config files :
  kept_by_insert P ->
  forall t c c' o,
    Indexer.index_loop embeddings_create merged fs config files t c
    = (c', o) ->
    P (db c) -> P (db c').
Proof.
  intros Hins. induction files as [|f rest IH]; intros t c c' o Hrun HP.
  - cbn in Hrun. now injection Hrun as <- _.
  - cbn [Indexer.index_loop] in Hrun. unfold bind at 1 in Hrun.
    destruct (Indexer.chunk_embed_insert _ _ _ _ _ _ c) as [c1 o1] eqn:E.
    pose proof (chunk_embed_insert_keeps _ _ _ _ Hins E HP) as H1.
    destruct o1 as [[n|]| |].
    + eapply IH; eassumption.
    + eapply IH; eassumption.
    + now injection Hrun as <- _.
    + now injection Hrun as <- _.
Qed.

Lemma indexDocuments_keeps P c c' o :
  kept_by_insert P ->
  Indexer.indexDocuments embeddings_create merged fs c = (c', o) ->
  P (db c) -> P (db c').
Proof.
  intros Hins. unfold Indexer.indexDocuments.
  unfold bind at 1, lift at 1.
  destruct (Config.getConfig merged) as [config| |];
    try (intros [= <- _]; auto; fail).
  unfold bind at 1.
  destruct (Indexer.index_loop _ _ _ _ _ _ c) as [c1 o1] eqn:E.
  intros Hrun HP.
  pose proof (index_loop_keeps _ _ Hins _ _ E HP) as H1.
  destruct o1; cbn in Hrun; now injection Hrun as <- _.
Qed.

Lemma deleteChunksByFile_keeps P f c c' o :
  kept_by_delete P ->
  deleteChunksByFile f c = (c', o) -> P (db c) -> P (db c').
Proof.
  intros Hdel Hrun HP.
  destruct (deleteChunksByFile_db f c) as (c1 & Hrun1 & Hdb & _).
  rewrite Hrun in Hrun1. injection Hrun1 as -> _. rewrite Hdb. auto.
Qed.

Lemma remove_deleted_loop_keeps P existing :
  kept_by_delete P ->
  forall n c c' o,
    Indexer.remove_deleted_loop fs existing n c = (c', o) ->
    P (db c) -> P (db c').
Proof.
  intros Hdel. induction existing as [|f rest IH]; intros n c c' o Hrun HP.
  - cbn in Hrun. now injection Hrun as <- _.
  - cbn [Indexer.remove_deleted_loop] in Hrun.
    destruct (negb (existsSync fs (join_cwd fs f))).
    + destruct (deleteChunksByFile_db f c) as (c1 & Hrun1 & Hdb & _).
      rewrite (bind_return _ _ _ Hrun1) in Hrun.
      eapply IH; [eassumption|]. rewrite Hdb. auto.
    + eapply IH; eassumption.
Qed.

Lemma reindex_loop_keeps P config existing files :
  kept_by_insert P -> kept_by_delete P ->
  forall u t c c' o,
    Indexer.reindex_loop embeddings_create merged fs config existing
                         files u t c = (c', o) ->
    P (db c) -> P (db c').
Proof.
  intros Hins Hdel.
  induction files as [|f rest IH]; intros u t c c' o Hrun HP.
  - cbn in Hrun. now injection Hrun as <- _.
  - cbn [Indexer.reindex_loop] in Hrun.
    unfold bind at 1 in Hrun. unfold lift at 1 in Hrun.
    destruct (Indexer.statSync fs f) as [[]| |];
      try (now injection Hrun as <- _).
    match type of Hrun with
    | (if negb ?b then _ else _) _ = _ => destruct b
    end; cbn [negb] in Hrun; [|eapply IH; eassumption].
    unfold bind at 1 in Hrun.
    match type of Hrun with
    | match ?m c with _ => _ end = _ => destruct (m c) as [c1 o1] eqn:E1
    end.
    assert (H1 : P (db c1)).
    { destruct (JsSet.has existing (relative_to_cwd fs f)).
      - eapply deleteChunksByFile_keeps; eassumption.
      - cbn in E1. now injection E1 as <- _. }
    destruct o1 as [[]| |]; try (now injection Hrun as <- _).
    unfold bind at 1 in Hrun.
    destruct (Indexer.chunk_embed_insert _ _ _ _ _ _ c1) as [c2 o2] eqn:E2.
    pose proof (chunk_embed_insert_keeps _ _ _ _ Hins E2 H1) as H2.
    destruct o2 as [[n|]| |].
    + eapply IH; eassumption.
    + eapply IH; eassumption.
    + now injection Hrun as <- _.
    + now injection Hrun as <- _.
Qed.

Lemma reindexDocuments_keeps P c c' o :
  kept_by_insert P -> kept_by_delete P ->
  Indexer.reindexDocuments embeddings_create merged fs c = (c', o) ->
  P (db c) -> P (db c').
Proof.
  intros Hins Hdel. unfold Indexer.reindexDocuments.
  unfold bind at 1, lift at 1.
  destruct (Config.getConfig merged) as [config| |];
    try (intros [= <- _]; auto; fail).
  unfold bind at 1, getAllFiles, query. unfold bind at 1.
  destruct (Indexer.remove_deleted_loop fs _ 0 c) as [c1 o1] eqn:E1.
  intros Hrun HP.
  pose proof (remove_deleted_loop_keeps _ Hdel _ _ E1 HP) as H1.
  destruct o1 as [n| |]; try (now injection Hrun as <- _).
  unfold bind at 1 in Hrun.
  destruct (Indexer.reindex_loop _ _ _ _ _ _ _ _ c1) as [c2 o2] eqn:E2.
  pose proof (reindex_loop_keeps _ _ _ Hins Hdel _ _ _ E2 H1) as H2.
  destruct o2; cbn in Hrun; now injection Hrun as <- _.
Qed.

(** X19. Both pipelines keep the database well-formed, whatever their
    outcome: a run that returns, one that an unreadable file, a rejected
    request or a refused vector stops half-way, and one that does not
    end. *)
Theorem pipelines_keep_well_formed (c c' : Conn) :
  well_formed (db c) ->
  (forall o, Indexer.indexDocuments embeddings_create merged fs c = (c', o) ->
             well_formed (db c'))
  /\ (forall o, Indexer.reindexDocuments embeddings_create merged fs c
                = (c', o) ->
                well_formed (db c')).
Proof.
  intros Hwf.
  assert (Hins : kept_by_insert well_formed)
    by (intros chunk now d H _; now apply well_formed_insert).
  assert (Hdel : kept_by_delete well_formed)
    by (intros f d H; now apply well_formed_delete).
  split; intros o Hrun.
  - eapply indexDocuments_keeps; eassumption.
  - eapply reindexDocuments_keeps; eassumption.
Qed.

(** What [indexDocuments] leaves in place: every vector, in its place,
    and for every row a row of the same source and fingerprint. *)
Definition extends (d0 d : Database) : Prop :=
  (exists more, vec_chunks d = vec_chunks d0 ++ more)
  /\ (forall row, In row (chunks d0) ->
        exists row', In row' (chunks d)
                     /\ chunk_key row' = chunk_key row)
  /\ dimension d = dimension d0.

Lemma extends_insert d0 : kept_by_insert (extends d0).
Proof.
  intros chunk now d (Hv & Hrows & Hdim) _. split; [|split].
  - destruct Hv as (more & Hv). unfold db_after_insert.
    destruct (chunk_embedding chunk); cbn [vec_chunks].
    + rewrite Hv, <- app_assoc. eauto.
    + eauto.
  - intros row Hin. destruct (Hrows row Hin) as (row' & Hin' & Hkey).
    destruct (same_key (filePath chunk) (chunk_hash chunk) row') eqn:E.
    + apply same_key_iff in E.
      unfold db_after_insert.
      destruct (chunk_embedding chunk); cbn [chunks];
        (eexists; split; [apply in_or_app; right; left; reflexivity|]);
        rewrite <- Hkey, E; reflexivity.
    + exists row'. split; [|exact Hkey].
      unfold db_after_insert.
      destruct (chunk_embedding chunk); cbn [chunks];
        apply in_or_app; left; apply filter_In; rewrite E; auto.
  - rewrite <- Hdim. unfold db_after_insert.
    now destruct (chunk_embedding chunk).
Qed.

(** X20. [indexDocuments] only adds: whatever its outcome, the vectors of
    before are still there, followed by the new ones, and every source
    that had a row still has one, so [fileExists] holds of it. Indexing a
    directory again therefore never shrinks [vec_chunks]. *)
Theorem indexDocuments_only_adds (c c' : Conn) o :
  Indexer.indexDocuments embeddings_create merged fs c = (c', o) ->
  (exists more, vec_chunks (db c') = vec_chunks (db c) ++ more)
  /\ forall row, In row (chunks (db c)) ->
       fileExists (file_path row) c' = (c', Return true).
Proof.
  intros Hrun.
  assert (H : extends (db c) (db c')).
  { apply (@indexDocuments_keeps (extends (db c)) c c' o
             (@extends_insert (db c)) Hrun).
    split; [exists []; now rewrite app_nil_r|]. split; [eauto | reflexivity]. }
  destruct H as (Hv & Hrows & _). split; [exact Hv|].
  intros row Hin. destruct (Hrows row Hin) as (row' & Hin' & Hkey).
  injection Hkey as Hf _. rewrite <- Hf. now apply row_fileExists.
Qed.

End PipelineFacts.

(** An endpoint that answers every text with the vector [(0, 1)], and a
    configuration with a key. *)
Definition constant_api (_ : jsstring) (batch : list jsstring)
  : outcome (list (list Z)) :=
  Return (map (fun _ => [0; 1]%Z) batch).

Definition keyed_config : RagConfig :=
  {| apiKey := lit "k"; embeddingModel := lit "m";
     chunkSize := 10; chunkOverlap := 2; topK := 5 |}.

Lemma pipelines_keep_well_formed_witness :
  @well_formed IntBackend
    (VectorStore.db
       (fst (Indexer.indexDocuments (B := IntBackend) constant_api
                                    keyed_config disk indexed_once))).
Proof.
  destruct (@pipelines_keep_well_formed IntBackend constant_api keyed_config
              disk indexed_once
              (fst (Indexer.indexDocuments (B := IntBackend) constant_api
                                           keyed_config disk indexed_once))
              indexed_once_well_formed) as [Hindex _].
  eapply Hindex. apply surjective_pairing.
Defined.

Lemma indexDocuments_only_adds_witness :
  exists c' r,
    Indexer.indexDocuments (B := IntBackend) constant_api keyed_config disk
                           indexed_once
    = (c', Return r)
    /\ VectorStore.fileExists (lit "a.txt") c' = (c', Return true).
Proof.
  assert (E : exists c' r,
             Indexer.indexDocuments (B := IntBackend) constant_api
                                    keyed_config disk indexed_once
             = (c', Return r)).
  { do 2 eexists. vm_compute. reflexivity. }
  destruct E as (c' & r & E).
  destruct (@indexDocuments_only_adds IntBackend constant_api keyed_config
              disk indexed_once c' _ E) as [_ Hrows].
  exists c', r. split; [exact E|].
  apply (Hrows {| VectorStore.id := 1; VectorStore.file_path := lit "a.txt";
                  VectorStore.content := lit "hello";
                  VectorStore.hash := lit "5d41";
                  VectorStore.vec_rowid := Some 1;
                  VectorStore.created_at := 0 |}).
  left. reflexivity.
Defined.

Section ReindexRemoves.
Context {B : Backend}.
Import VectorStore VectorStore.Notations.
Variable embeddings_create
  : jsstring -> list jsstring -> outcome (list (list float)).
Variable merged : RagConfig.
Variable fs : FileSystem.

(** No stored vector has a rowid above the rowid counter of its table. *)
Definition rowids_recorded (d : Database) : Prop :=
  Forall (fun v => rowid v <= vec_seq d) (vec_chunks d).

Lemma rowids_recorded_initTables dim : rowids_recorded (initTables dim).
Proof. constructor. Qed.

Lemma rowids_recorded_insert : kept_by_insert rowids_recorded.
Proof.
  intros chunk now d H _. unfold rowids_recorded, db_after_insert in *.
  destruct (chunk_embedding chunk) as [e|]; cbn [vec_seq vec_chunks];
    [|exact H].
  apply Forall_app. split.
  - eapply Forall_impl; [|exact H]. cbv beta. unfold next_rowid.
    intros v Hv. lia.
  - constructor; [cbn; lia | constructor].
Qed.

Lemma rowids_recorded_delete : kept_by_delete rowids_recorded.
Proof.
  intros f d H. unfold rowids_recorded, db_after_delete in *.
  cbn [vec_seq vec_chunks]. rewrite Forall_forall in *.
  intros v Hin. apply filter_In in Hin as [Hin _]. auto.
Qed.

(** The rowid [r] is behind the counter and no stored vector has it. *)
Definition retired (r : nat) (d : Database) : Prop :=
  r <= vec_seq d /\ ~ In r (map rowid (vec_chunks d)).

Lemma retired_insert r : kept_by_insert (retired r).
Proof.
  intros chunk now d [Hseq Hnot] _. unfold retired, db_after_insert.
  destruct (chunk_embedding chunk) as [e|]; cbn [vec_seq vec_chunks];
    [|auto].
  unfold next_rowid. split; [lia|].
  rewrite map_app, in_app_iff. cbn [map rowid In]. intros [H | [H | []]].
  - auto.
  - lia.
Qed.

Lemma retired_delete r : kept_by_delete (retired r).
Proof.
  intros f d [Hseq Hnot]. unfold retired, db_after_delete.
  cbn [vec_seq vec_chunks]. split; [exact Hseq|].
  intros Hin. apply Hnot. apply in_map_iff in Hin as (v & <- & Hv).
  apply filter_In in Hv as [Hv _]. now apply in_map.
Qed.

Lemma deleted_vector f d row r :
  In row (chunks d) -> file_path row = f -> vec_rowid row = Some r ->
  ~ In r (map rowid (vec_chunks (db_after_delete f d))).
Proof.
  intros Hrow Hf Hr Hin. unfold db_after_delete in Hin.
  cbn [vec_chunks] in Hin. apply in_map_iff in Hin as (v & Hv & Hin).
  apply filter_In in Hin as [_ Hn]. unfold not_among in Hn.
  apply negb_true_iff in Hn.
  assert (Hex : existsb (Nat.eqb (rowid v)) (select_vec_rowids f (chunks d))
                = true).
  { apply existsb_exists. exists r. split; [|now apply Nat.eqb_eq].
    apply select_vec_rowids_In. exists row. auto. }
  congruence.
Qed.

(** The removal loop deletes the vector of every row of a source that it
    removes, and gives out no rowid. *)
Lemma remove_deleted_loop_vectors row r existing : forall n c c1 o,
  Indexer.remove_deleted_loop fs existing n c = (c1, o) ->
  vec_rowid row = Some r ->
  removed fs (file_path row) = true ->
  (In row (chunks (db c)) /\ In (file_path row) existing)
  \/ ~ In r (map rowid (vec_chunks (db c))) ->
  vec_seq (db c1) = vec_seq (db c)
  /\ ~ In r (map rowid (vec_chunks (db c1))).
Proof.
  induction existing as [|f rest IH]; intros n c c1 o Hrun Hr Hgone Hcase.
  - cbn in Hrun. injection Hrun as <- _. split; [reflexivity|].
    destruct Hcase as [[_ []] | H]; exact H.
  - cbn [Indexer.remove_deleted_loop] in Hrun.
    change (negb (existsSync fs (join_cwd fs f))) with (removed fs f)
      in Hrun.
    destruct (removed fs f) eqn:Ef.
    + destruct (deleteChunksByFile_db f c) as (cf & Hdel & Hdb & _).
      rewrite (bind_return _ _ _ Hdel) in Hrun.
      destruct (IH _ _ _ _ Hrun Hr Hgone) as [Hseq Hnot].
      * rewrite Hdb. destruct Hcase as [[Hrow Hin] | Hnot].
        -- destruct (str_eqb (file_path row) f) eqn:E.
           ++ apply str_eqb_eq in E. right.
              eapply deleted_vector; eassumption.
           ++ left. split.
              ** unfold db_after_delete. cbn [chunks]. apply filter_In.
                 split; [exact Hrow | now rewrite E].
              ** apply str_eqb_neq in E. destruct Hin as [H | H];
                   [congruence | exact H].
        -- right. intros Hin. apply Hnot.
           unfold db_after_delete in Hin. cbn [vec_chunks] in Hin.
           apply in_map_iff in Hin as (v & <- & Hv).
           apply filter_In in Hv as [Hv _]. now apply in_map.
      * split; [|exact Hnot]. rewrite Hseq, Hdb. reflexivity.
    + apply (IH _ _ _ _ Hrun Hr Hgone).
      destruct Hcase as [[Hrow Hin] | Hnot]; [|now right].
      left. split; [exact Hrow|].
      destruct Hin as [H | H]; [|exact H]. congruence.
Qed.

(** C8. When [reindexDocuments] returns, every source that had a row in
    the index and whose file does not exist has no row left, so
    [fileExists] is false for it; the vectors that the rows of such a
    source referred to are deleted with them, and their rowids are not
    in [vec_chunks] afterwards (in a database whose rowid counter is not
    behind its vectors); and [filesUpdated] is at least the number of
    these sources. *)
Theorem reindexDocuments_removes_deleted (c c' : Conn)
        (r : Indexer.ReindexResult) :
  paths_agree fs ->
  Indexer.reindexDocuments embeddings_create merged fs c
  = (c', Return r) ->
  (forall s,
      (exists row, In row (chunks (db c)) /\ file_path row = s) ->
      existsSync fs (join_cwd fs s) = false ->
      fileExists s c' = (c', Return false))
  /\ (rowids_recorded (db c) ->
      forall row v,
        In row (chunks (db c)) ->
        existsSync fs (join_cwd fs (file_path row)) = false ->
        In v (vec_chunks (db c)) ->
        vec_rowid row = Some (rowid v) ->
        ~ In (rowid v) (map rowid (vec_chunks (db c'))))
  /\ NoDup (select_distinct_files (db c))
  /\ length (filter (removed fs) (select_distinct_files (db c)))
     <= Indexer.filesUpdated r.
Proof.
  intros Hpaths. unfold Indexer.reindexDocuments.
  unfold bind at 1, lift at 1.
  destruct (Config.getConfig merged) as [config| |]; try discriminate.
  unfold bind at 1, getAllFiles, query.
  assert (Hnd : NoDup (select_distinct_files (db c)))
    by apply sql_distinct_NoDup.
  rewrite JsSet_of_list_spec, (first_occurrences_NoDup_id Hnd).
  set (existing := select_distinct_files (db c)) in *.
  destruct (remove_deleted_loop_spec fs existing 0 c)
    as (c1 & Hdel & _ & Hgone).
  unfold bind at 1. rewrite Hdel. cbn [Nat.add].
  unfold bind at 1.
  destruct (Indexer.reindex_loop _ _ _ _ _ _ _ _ c1)
    as [c2 [[u t]| |]] eqn:Hloop; try discriminate.
  destruct (reindex_loop_spec _ _ _ _ _ _ _ _ _ Hloop) as [Hle Hkeep].
  unfold bind, close, ret. intros [= <- <-].
  cbn [Indexer.filesUpdated fst].
  split; [|split; [|split; [exact Hnd | exact Hle]]].
  - intros s Hrow Hs. apply absent_fileExists.
    apply Hkeep.
    + intros f Hf Hex Heq. apply (Hpaths f Hf) in Hex.
      rewrite Heq in Hex. congruence.
    + apply Hgone.
      * now apply select_distinct_files_In.
      * unfold removed. now rewrite Hs.
  - intros Hrec row v Hrow Hs Hv Hr.
    assert (Hremoved : removed fs (file_path row) = true)
      by (unfold removed; now rewrite Hs).
    destruct (@remove_deleted_loop_vectors row (rowid v) existing 0 c c1 _
                Hdel Hr Hremoved) as [Hseq Hnot].
    { left. split; [exact Hrow|].
      apply select_distinct_files_In. eauto. }
    assert (Hret : retired (rowid v) (db c1)).
    { split; [|exact Hnot]. rewrite Hseq.
      unfold rowids_recorded in Hrec. rewrite Forall_forall in Hrec.
      now apply Hrec. }
    apply (reindex_loop_keeps embeddings_create merged fs config existing
             (found_files fs) (@retired_insert (rowid v))
             (@retired_delete (rowid v)) _ _ _ Hloop Hret).
Qed.

End ReindexRemoves.

Lemma reindexDocuments_removes_deleted_witness :
  exists c' r,
    Indexer.reindexDocuments (B := IntBackend) constant_api keyed_config
                             disk indexed_once
    = (c', Return r)
    /\ VectorStore.fileExists (lit "a.txt") c' = (c', Return false)
    /\ ~ In 1 (map (@VectorStore.rowid IntBackend)
                   (VectorStore.vec_chunks (VectorStore.db c')))
    /\ 1 <= Indexer.filesUpdated r.
Proof.
  assert (E : exists c' r,
             Indexer.reindexDocuments (B := IntBackend) constant_api
                                      keyed_config disk indexed_once
             = (c', Return r)).
  { do 2 eexists. vm_compute. reflexivity. }
  destruct E as (c' & r & E).
  assert (Hpaths : paths_agree disk).
  { intros f [<- | []] _. reflexivity. }
  destruct (@reindexDocuments_removes_deleted IntBackend _ _ disk _ _ _
                                              Hpaths E)
    as (Hgone & Hvec & _ & Hn).
  exists c', r. split; [exact E|]. split; [|split].
  - apply Hgone; [|reflexivity].
    eexists. split; [left; reflexivity | reflexivity].
  - assert (Hrec : @rowids_recorded IntBackend (VectorStore.db indexed_once))
      by (repeat constructor).
    apply (Hvec Hrec
                {| VectorStore.id := 1;
                   VectorStore.file_path := lit "a.txt";
                   VectorStore.content := lit "hello";
                   VectorStore.hash := lit "5d41";
                   VectorStore.vec_rowid := Some 1;
                   VectorStore.created_at := 0 |}
                (@VectorStore.Build_VecRow IntBackend 1 [1; 0]%Z)).
    + left. reflexivity.
    + reflexivity.
    + left. reflexivity.
    + reflexivity.
  - exact Hn.
Defined.

Section PipelineCounts.
Context {B : Backend}.
Import VectorStore VectorStore.Notations.
Variable embeddings_create
  : jsstring -> list jsstring -> outcome (list (list float)).
Variable merged : RagConfig.
Variable fs : FileSystem.

(** The number of chunks of the file at [f]; 0 when it cannot be read or
    [chunkText] does not return. *)
Definition pieces (config : RagConfig) (f : jsstring) : nat :=
  match readFileSync fs f with
  | Return content =>
      match Chunker.chunkText content (chunkSize config)
                              (chunkOverlap config) with
      | Some l => length l
      | None => 0
      end
  | _ => 0
  end.

Lemma insert_loop_count batch : forall c c' o,
  for_each batch (fun chunk => insertChunk chunk ;;; ret tt) c = (c', o) ->
  length (chunks (db c')) <= length (chunks (db c)) + length batch.
Proof.
  induction batch as [|x rest IH]; intros c c' o Hrun.
  - cbn in Hrun. injection Hrun as <- _. lia.
  - cbn [for_each] in Hrun.
    destruct (fits (dimension (db c)) x) eqn:Hfit.
    + destruct (insertChunk_db _ _ Hfit) as (c1 & i & Hx & Hdb & _).
      unfold bind at 1 in Hrun. unfold bind at 1 in Hrun.
      rewrite Hx in Hrun. cbn [ret] in Hrun.
      apply IH in Hrun. rewrite Hdb in Hrun.
      assert (Hone : length (chunks (db_after_insert x (clock c (ticks c))
                                                     (db c)))
                     <= S (length (chunks (db c)))).
      { unfold db_after_insert.
        pose proof (filter_length
                      (same_key (filePath x) (chunk_hash x))
                      (chunks (db c))).
        destruct (chunk_embedding x); cbn [chunks];
          rewrite length_app; cbn [length]; lia. }
      cbn [length]. lia.
    + destruct (insertChunk_refused _ _ Hfit) as (c1 & Hx & Hdb & _).
      unfold bind at 1 in Hrun. unfold bind at 1 in Hrun.
      rewrite Hx in Hrun. injection Hrun as <- _. rewrite Hdb. lia.
Qed.

Lemma insertChunks_count batch c c' o :
  insertChunks batch c = (c', o) ->
  length (chunks (db c')) <= length (chunks (db c)) + length batch.
Proof.
  unfold insertChunks, transaction.
  destruct (for_each batch _ _) as [c1 o1] eqn:Hrun.
  apply insert_loop_count in Hrun. cbn [db] in Hrun.
  destruct o1; intros [= <- _]; cbn [db]; lia.
Qed.

Lemma chunk_embed_insert_created config filePath relativePath c c' created :
  Indexer.chunk_embed_insert embeddings_create merged fs config
                             filePath relativePath c
  = (c', Return created) ->
  created = (if pieces config filePath =? 0 then None
             else Some (pieces config filePath))
  /\ length (chunks (db c'))
     <= length (chunks (db c)) + pieces config filePath.
Proof.
  unfold Indexer.chunk_embed_insert, pieces, bind, lift, ret,
    Indexer.call_chunkText.
  destruct (readFileSync fs filePath) as [content| |]; try discriminate.
  destruct (Chunker.chunkText content _ _) as [l|]; try discriminate.
  destruct (length l =? 0) eqn:E.
  - intros [= <- <-]. split; [reflexivity | lia].
  - destruct (Embedder.generateEmbeddings _ _ _ _) as [embeddings| |];
      try discriminate.
    destruct (insertChunks _ c) as [c1 o1] eqn:Hins.
    destruct o1 as [[]| |]; try discriminate.
    intros [= <- <-]. apply insertChunks_count in Hins.
    unfold map_indexed in *. rewrite map_indexed_from_length in *.
    split; [reflexivity | exact Hins].
Qed.

Lemma list_sum_cons x l : list_sum (x :: l) = x + list_sum l.
Proof. reflexivity. Qed.

Lemma index_loop_counts config files : forall t c c' t',
  Indexer.index_loop embeddings_create merged fs config files t c
  = (c', Return t') ->
  t' = t + list_sum (map (pieces config) files)
  /\ length (chunks (db c')) + t <= length (chunks (db c)) + t'.
Proof.
  induction files as [|f rest IH]; intros t c c' t' Hrun.
  - cbn in Hrun. injection Hrun as <- <-. cbn. lia.
  - cbn [Indexer.index_loop] in Hrun. unfold bind at 1 in Hrun.
    destruct (Indexer.chunk_embed_insert _ _ _ _ _ _ c) as [c1 o1] eqn:E.
    destruct o1 as [created| |]; try discriminate.
    apply chunk_embed_insert_created in E as [-> Hlen].
    cbn [map]. rewrite list_sum_cons.
    destruct (pieces config f =? 0) eqn:E0.
    + apply Nat.eqb_eq in E0. apply IH in Hrun as [-> Hle]. lia.
    + apply IH in Hrun as [-> Hle]. lia.
Qed.

(** X21. When [indexDocuments] returns, [filesProcessed] is the number of
    files found and [chunksCreated] the sum of their numbers of chunks;
    the table has grown by at most [chunksCreated] rows (by fewer when a
    chunk replaced a row of the same source and fingerprint). *)
Theorem indexDocuments_accounts (c c' : Conn) (r : Indexer.IndexResult) :
  Indexer.indexDocuments embeddings_create merged fs c = (c', Return r) ->
  Indexer.filesProcessed r = length (found_files fs)
  /\ Indexer.chunksCreated r
     = list_sum (map (pieces merged) (found_files fs))
  /\ length (chunks (db c'))
     <= length (chunks (db c)) + Indexer.chunksCreated r.
Proof.
  unfold Indexer.indexDocuments. unfold bind at 1, lift at 1.
  unfold Config.getConfig. destruct (truthy (apiKey merged));
    [|discriminate].
  unfold bind at 1.
  destruct (Indexer.index_loop _ _ _ _ _ _ c) as [c1 o1] eqn:E.
  destruct o1 as [t| |]; try discriminate.
  cbn. intros [= <- <-]. cbn.
  apply index_loop_counts in E as [-> Hle]. cbn in *.
  repeat split; lia.
Qed.

Lemma reindex_loop_counts config existing files : forall u t c c' u' t',
  Indexer.reindex_loop embeddings_create merged fs config existing
                       files u t c = (c', Return (u', t')) ->
  u' = u + length (filter (fun f => 0 <? pieces config f) files)
  /\ t' = t + list_sum (map (pieces config) files).
Proof.
  induction files as [|f rest IH]; intros u t c c' u' t' Hrun.
  - cbn in Hrun. injection Hrun as <- <- <-. cbn. lia.
  - cbn [Indexer.reindex_loop] in Hrun.
    unfold bind at 1 in Hrun. unfold lift at 1 in Hrun.
    destruct (Indexer.statSync fs f) as [[]| |]; try discriminate.
    set (rel := relative_to_cwd fs f) in *.
    assert (Hupd : negb
                     (if negb (negb (JsSet.has existing rel))
                         && JsSet.has existing rel
                      then true else negb (JsSet.has existing rel))
                   = false)
      by (destruct (JsSet.has existing rel); reflexivity).
    rewrite Hupd in Hrun.
    unfold bind at 1 in Hrun.
    match type of Hrun with
    | match ?m c with _ => _ end = _ => destruct (m c) as [c1 o1] eqn:E1
    end.
    destruct o1 as [[]| |]; try discriminate.
    unfold bind at 1 in Hrun.
    destruct (Indexer.chunk_embed_insert _ _ _ _ _ _ c1) as [c2 o2] eqn:E2.
    destruct o2 as [created| |]; try discriminate.
    apply chunk_embed_insert_created in E2 as [-> _].
    cbn [map filter]. rewrite list_sum_cons.
    destruct (pieces config f =? 0) eqn:E0.
    + apply Nat.eqb_eq in E0. apply IH in Hrun as [-> ->].
      rewrite E0. cbn [Nat.ltb Nat.leb]. lia.
    + apply Nat.eqb_neq in E0. apply IH in Hrun as [-> ->].
      destruct (Nat.ltb_spec 0 (pieces config f)); [|lia].
      cbn [length]. lia.
Qed.

(** X22. When [reindexDocuments] returns, [filesUpdated] is the number of
    indexed sources whose file is gone plus the number of files found
    that have a chunk, and [chunksCreated] is the sum of the numbers of
    chunks of all files found: every file found is chunked and embedded
    again, whether or not it was in the index. *)
Theorem reindexDocuments_accounts (c c' : Conn)
        (r : Indexer.ReindexResult) :
  Indexer.reindexDocuments embeddings_create merged fs c = (c', Return r) ->
  Indexer.re_filesProcessed r = length (found_files fs)
  /\ Indexer.filesUpdated r
     = length (filter (removed fs) (select_distinct_files (db c)))
       + length (filter (fun f => 0 <? pieces merged f) (found_files fs))
  /\ Indexer.re_chunksCreated r
     = list_sum (map (pieces merged) (found_files fs)).
Proof.
  unfold Indexer.reindexDocuments. unfold bind at 1, lift at 1.
  unfold Config.getConfig. destruct (truthy (apiKey merged));
    [|discriminate].
  unfold bind at 1, getAllFiles, query.
  assert (Hnd : NoDup (select_distinct_files (db c)))
    by apply sql_distinct_NoDup.
  rewrite JsSet_of_list_spec, (first_occurrences_NoDup_id Hnd).
  set (existing := select_distinct_files (db c)) in *.
  destruct (remove_deleted_loop_spec fs existing 0 c) as (c1 & Hdel & _).
  unfold bind at 1. rewrite Hdel. cbn [Nat.add].
  unfold bind at 1.
  destruct (Indexer.reindex_loop _ _ _ _ _ _ _ _ c1)
    as [c2 [[u t]| |]] eqn:Hloop; try discriminate.
  apply reindex_loop_counts in Hloop as [-> ->].
  unfold bind, close, ret. intros [= <- <-]. cbn. auto.
Qed.

End PipelineCounts.

Lemma indexDocuments_accounts_witness :
  exists c' r,
    Indexer.indexDocuments (B := IntBackend) constant_api keyed_config disk
                           indexed_once
    = (c', Return r)
    /\ Indexer.filesProcessed r = 1 /\ Indexer.chunksCreated r = 1.
Proof.
  assert (E : exists c' r,
             Indexer.indexDocuments (B := IntBackend) constant_api
                                    keyed_config disk indexed_once
             = (c', Return r)).
  { do 2 eexists. vm_compute. reflexivity. }
  destruct E as (c' & r & E).
  destruct (@indexDocuments_accounts IntBackend constant_api keyed_config
              disk indexed_once c' r E) as (Hf & Hc & _).
  exists c', r. split; [exact E|]. split; [exact Hf | exact Hc].
Defined.

Lemma reindexDocuments_accounts_witness :
  exists c' r,
    Indexer.reindexDocuments (B := IntBackend) constant_api keyed_config
                             disk indexed_once
    = (c', Return r)
    /\ Indexer.filesUpdated r = 2 /\ Indexer.re_chunksCreated r = 1.
Proof.
  assert (E : exists c' r,
             Indexer.reindexDocuments (B := IntBackend) constant_api
                                      keyed_config disk indexed_once
             = (c', Return r)).
  { do 2 eexists. vm_compute. reflexivity. }
  destruct E as (c' & r & E).
  destruct (@reindexDocuments_accounts IntBackend constant_api keyed_config
              disk indexed_once c' r E) as (_ & Hu & Hc).
  exists c', r. split; [exact E|]. split; [exact Hu | exact Hc].
Defined.

(** ** Queries and the configuration *)

Section QueryBounds.
Context {B : Backend}.
Import VectorStore VectorStore.Notations.
Variable embeddings_create
  : jsstring -> list jsstring -> outcome (list (list float)).
Variable merged : RagConfig.
Variable fs : FileSystem.

(** [options?.topK || config.topK] for a count that is not negative. *)
Definition effective_topK (options_topK : option nat) : nat :=
  match options_topK with
  | Some 0 | None => topK merged
  | Some k => k
  end.

Lemma length_first_occurrences l : length (first_occurrences l) <= length l.
Proof.
  induction l as [|x l IH]; [reflexivity|]. cbn [first_occurrences length].
  pose proof (filter_length (fun y => negb (str_eqb y x))
                            (first_occurrences l)).
  unfold jsstring in *. lia.
Qed.

(** X23. A result of [queryRag] holds at most [topK] chunks, where a
    [topK] option of 0 counts as none given and the configured value is
    used; in a well-formed database it holds exactly [min(topK, n)]
    chunks, [n] the number of rows that have a vector. There are no more
    citations than chunks, and every citation is a source that is in the
    store. *)
Theorem queryRag_bounds (question : jsstring) (options_topK : option nat)
        (c c' : Conn) (r : Query.QueryResult) :
  Query.queryRag embeddings_create merged question options_topK c
  = (c', Return r) ->
  length (Query.context r) <= effective_topK options_topK
  /\ (well_formed (db c) ->
      length (Query.context r)
      = Nat.min (effective_topK options_topK)
                (length (filter has_vector (chunks (db c)))))
  /\ length (Query.citations r) <= length (Query.context r)
  /\ forall p, In p (Query.citations r) ->
               fileExists p c = (c, Return true).
Proof.
  unfold Query.queryRag. unfold bind at 1, lift at 1, Config.getConfig.
  destruct (truthy (apiKey merged)); [|discriminate].
  unfold bind at 1, lift at 1.
  destruct (Embedder.generateEmbedding _ _ _ _) as [q| |];
    try discriminate.
  replace (match options_topK with Some (S k) => S k | _ => topK merged end)
    with (effective_topK options_topK)
    by (unfold effective_topK; destruct options_topK as [[|k]|]; reflexivity).
  unfold bind at 1.
  pose proof (similaritySearch_outcome q (effective_topK options_topK) c)
    as Hout.
  destruct (similaritySearch q (effective_topK options_topK) c)
    as [c1 [results| |]]; try discriminate.
  destruct Hout as (-> & rows & Hsel & ->).
  unfold bind, close, ret.
  intros [= <- <-]. cbn [Query.context Query.citations].
  split; [|split; [|split]].
  - rewrite length_map.
    exact (@length_select_nearest B q _ (db c) rows Hsel).
  - intros [_ _ Hr Hrefs _]. rewrite length_map.
    rewrite (@length_select_nearest_eq B q _ (db c) rows Hsel).
    now rewrite length_join_well_formed.
  - unfold Query.citations_of. rewrite JsSet_of_list_spec.
    etransitivity; [apply length_first_occurrences|].
    now rewrite length_map.
  - intros p. unfold Query.citations_of.
    rewrite JsSet_of_list_spec, first_occurrences_In, in_map_iff.
    intros (chunk & <- & Hin).
    apply in_map_iff in Hin as (row & <- & Hrow).
    destruct (@select_nearest_joined B q _ (db c) rows row Hsel Hrow)
      as (q' & v & ch & _ & _ & Hc & _ & ->).
    cbn. now apply row_fileExists.
Qed.

(** X24. Without an API key nothing is done: the two pipelines, a query
    and a request for embeddings, of no text even, throw the
    configuration error, and the connection is as before; in particular
    [reindexDocuments] removes no source. *)
Theorem no_apiKey_no_effect :
  truthy (apiKey merged) = false ->
  (forall c, Indexer.indexDocuments embeddings_create merged fs c
             = (c, Throw ConfigError))
  /\ (forall c, Indexer.reindexDocuments embeddings_create merged fs c
                = (c, Throw ConfigError))
  /\ (forall question k c,
         Query.queryRag embeddings_create merged question k c
         = (c, Throw ConfigError))
  /\ (forall texts model,
         Embedder.generateEmbeddings embeddings_create merged texts model
         = Throw ConfigError)
  /\ (forall t model,
         Embedder.generateEmbedding embeddings_create merged t model
         = Throw ConfigError).
Proof.
  intros Hkey. repeat split; intros.
  - unfold Indexer.indexDocuments, bind, lift, Config.getConfig.
    now rewrite Hkey.
  - unfold Indexer.reindexDocuments, bind, lift, Config.getConfig.
    now rewrite Hkey.
  - unfold Query.queryRag, bind, lift, Config.getConfig. now rewrite Hkey.
  - unfold Embedder.generateEmbeddings, Config.getConfig. now rewrite Hkey.
  - unfold Embedder.generateEmbedding, Embedder.generateEmbeddings,
      Config.getConfig. now rewrite Hkey.
Qed.

End QueryBounds.

Lemma queryRag_bounds_witness :
  exists r,
    Query.queryRag (B := IntBackend) constant_api keyed_config
                   (lit "hello?") (Some 0) indexed_twice
    = (indexed_twice, Return r)
    /\ length (Query.context r) = 1.
Proof.
  assert (E : exists r,
             Query.queryRag (B := IntBackend) constant_api keyed_config
                            (lit "hello?") (Some 0) indexed_twice
             = (indexed_twice, Return r)).
  { eexists. vm_compute. reflexivity. }
  destruct E as (r & E).
  destruct (@queryRag_bounds IntBackend constant_api keyed_config
              (lit "hello?") (Some 0) indexed_twice indexed_twice r E)
    as (_ & Hlen & _).
  exists r. split; [exact E|]. exact (Hlen indexed_twice_well_formed).
Defined.

Lemma no_apiKey_no_effect_witness :
  Indexer.reindexDocuments
    (B := IntBackend) constant_api
    {| apiKey := []; embeddingModel := lit "m";
       chunkSize := 10; chunkOverlap := 2; topK := 5 |}
    disk indexed_once
  = (indexed_once, Throw ConfigError).
Proof.
  destruct (@no_apiKey_no_effect IntBackend constant_api
              {| apiKey := []; embeddingModel := lit "m";
                 chunkSize := 10; chunkOverlap := 2; topK := 5 |}
              disk eq_refl) as (_ & Hre & _).
  apply Hre.
Defined.

(** ** The directory walk ([indexer.ts]) *)

(** [s.includes(p)]. *)
Fixpoint includes (s p : jsstring) : bool :=
  starts_with p s
  || match s with
     | [] => false
     | _ :: s' => includes s' p
     end.

Module Walk.

(** An entry of [fs.readdirSync(p, {withFileTypes: true})]: a file, a
    directory with what reading it gives ([None] when it cannot be read),
    or an entry that is neither, as a symbolic link is. *)
#[local] Unset Elimination Schemes.
Inductive Dirent :=
| File (name : jsstring)
| Directory (name : jsstring) (entries : option (list Dirent))
| Other (name : jsstring).
#[local] Set Elimination Schemes.

Definition name (entry : Dirent) : jsstring :=
  match entry with
  | File n | Directory n _ | Other n => n
  end.

Section WithPath.
(** [path.join] and [path.extname]. *)
Variable path_join : jsstring -> jsstring -> jsstring.
Variable extname : jsstring -> jsstring.
Variable extensions ignorePatterns : list jsstring.

Definition ignored (fullPath : jsstring) : bool :=
  existsb (fun pattern => includes fullPath pattern) ignorePatterns.

(** The body of [for (const entry of entries)], on the array [files]. *)
Fixpoint visit (currentPath : jsstring) (entry : Dirent)
         (files : list jsstring) {struct entry}
  : outcome (list jsstring) :=
  let fullPath := path_join currentPath (name entry) in
  if ignored fullPath then Return files
  else
    match entry with
    | Directory _ (Some entries) =>
        (fix for_entries (entries : list Dirent) (files : list jsstring)
           : outcome (list jsstring) :=
           match entries with
           | [] => Return files
           | entry :: rest =>
               match visit fullPath entry files with
               | Return files => for_entries rest files
               | o => o
               end
           end) entries files
    | Directory _ None => Throw FsError
    | File n =>
        if existsb (str_eqb (extname n)) extensions
        then Return (files ++ [fullPath])
        else Return files
    | Other _ => Return files
    end.

Fixpoint for_entries (currentPath : jsstring) (entries : list Dirent)
         (files : list jsstring) : outcome (list jsstring) :=
  match entries with
  | [] => Return files
  | entry :: rest =>
      match visit currentPath entry files with
      | Return files => for_entries currentPath rest files
      | o => o
      end
  end.

(** [traverse(currentPath)], where reading [currentPath] gives
    [entries]. *)
Definition traverse (currentPath : jsstring)
           (entries : option (list Dirent)) (files : list jsstring)
  : outcome (list jsstring) :=
  match entries with
  | Some entries => for_entries currentPath entries files
  | None => Throw FsError
  end.

Definition getAllFiles (dir : jsstring) (entries : option (list Dirent))
  : outcome (list jsstring) :=
  traverse dir entries [].

End WithPath.
End Walk.

Section WalkFacts.
Import Walk.
Variable path_join : jsstring -> jsstring -> jsstring.
Variable extname : jsstring -> jsstring.
Variable extensions ignorePatterns : list jsstring.

Local Abbreviation visit :=
  (Walk.visit path_join extname extensions ignorePatterns).
Local Abbreviation for_entries :=
  (Walk.for_entries path_join extname extensions ignorePatterns).
Local Abbreviation getAllFiles :=
  (Walk.getAllFiles path_join extname extensions ignorePatterns).

Lemma visit_Directory cur n entries files :
  visit cur (Directory n (Some entries)) files
  = if ignored ignorePatterns (path_join cur n) then Return files
    else for_entries (path_join cur n) entries files.
Proof.
  cbn [Walk.visit name]. destruct (ignored _ _); [reflexivity|].
  revert files. induction entries as [|e rest IH]; intros files;
    [reflexivity|].
  cbn [Walk.for_entries]. destruct (visit _ e files); auto.
Qed.

Section Dirent_induction.
Variable P : Dirent -> Prop.
Hypothesis HFile : forall n, P (File n).
Hypothesis HOther : forall n, P (Other n).
Hypothesis HUnreadable : forall n, P (Directory n None).
Hypothesis HDirectory :
  forall n entries, Forall P entries -> P (Directory n (Some entries)).

Fixpoint Dirent_induction (entry : Dirent) : P entry :=
  match entry with
  | File n => HFile n
  | Other n => HOther n
  | Directory n None => HUnreadable n
  | Directory n (Some entries) =>
      HDirectory n
        ((fix all (l : list Dirent) : Forall P l :=
            match l with
            | [] => Forall_nil P
            | e :: rest => Forall_cons e (Dirent_induction e) (all rest)
            end) entries)
  end.
End Dirent_induction.

Lemma includes_iff s p :
  includes s p = true <-> exists pre post, s = pre ++ p ++ post.
Proof.
  induction s as [|c s IH]; cbn [includes]; rewrite orb_true_iff.
  - rewrite starts_with_iff. split.
    + intros [[t Ht] | H]; [|discriminate]. exists [], t. exact Ht.
    + intros (pre & post & H). left. exists post.
      destruct pre; [exact H | discriminate].
  - rewrite starts_with_iff, IH. split.
    + intros [[t Ht] | (pre & post & ->)].
      * exists [], t. exact Ht.
      * exists (c :: pre), post. reflexivity.
    + intros (pre & post & H). destruct pre as [|x pre].
      * left. exists post. exact H.
      * right. injection H as _ ->. eauto.
Qed.

Lemma includes_empty s : includes s [] = true.
Proof. apply includes_iff. exists [], s. reflexivity. Qed.

Lemma includes_app s t p : includes s p = true -> includes (s ++ t) p = true.
Proof.
  rewrite !includes_iff. intros (pre & post & ->).
  exists pre, (post ++ t). now rewrite <- !app_assoc.
Qed.

(** What holds of a path that the walk has pushed. *)
Definition found (f : jsstring) : Prop :=
  ignored ignorePatterns f = false
  /\ exists cur n, f = path_join cur n /\ In (extname n) extensions.

Lemma visit_found entry : forall cur files out,
  visit cur entry files = Return out ->
  exists added, out = files ++ added /\ Forall found added.
Proof.
  induction entry as [n|n|n|n entries IH] using Dirent_induction;
    intros cur files out.
  - cbn [Walk.visit name].
    destruct (ignored ignorePatterns (path_join cur n)) eqn:Ei.
    + intros [= <-]. exists []. now rewrite app_nil_r.
    + destruct (existsb _ extensions) eqn:Ex; intros [= <-].
      * exists [path_join cur n]. split; [reflexivity|].
        constructor; [|constructor]. split; [exact Ei|].
        exists cur, n. split; [reflexivity|].
        apply existsb_exists in Ex as (x & Hx & E).
        apply str_eqb_eq in E. now subst.
      * exists []. now rewrite app_nil_r.
  - cbn [Walk.visit name]. destruct (ignored _ _); intros [= <-];
      exists []; now rewrite app_nil_r.
  - cbn [Walk.visit name]. destruct (ignored _ _); [|discriminate].
    intros [= <-]. exists []. now rewrite app_nil_r.
  - rewrite visit_Directory. destruct (ignored _ _).
    + intros [= <-]. exists []. now rewrite app_nil_r.
    + generalize (path_join cur n) as full. intros full. revert files out.
      induction IH as [|e rest He _ IHrest]; intros files out.
      * intros [= <-]. exists []. now rewrite app_nil_r.
      * cbn [Walk.for_entries].
        destruct (visit full e files) as [files1| |] eqn:E1;
          try discriminate.
        intros Hrest.
        destruct (He _ _ _ E1) as (a1 & -> & H1).
        destruct (IHrest _ _ Hrest) as (a2 & -> & H2).
        exists (a1 ++ a2). rewrite app_assoc. split; [reflexivity|].
        apply Forall_app. auto.
Qed.

Lemma for_entries_found entries : forall cur files out,
  for_entries cur entries files = Return out ->
  exists added, out = files ++ added /\ Forall found added.
Proof.
  induction entries as [|e rest IH]; intros cur files out.
  - intros [= <-]. exists []. now rewrite app_nil_r.
  - cbn [Walk.for_entries].
    destruct (visit cur e files) as [files1| |] eqn:E1; try discriminate.
    intros Hrest.
    destruct (visit_found _ _ _ E1) as (a1 & -> & H1).
    destruct (IH _ _ _ Hrest) as (a2 & -> & H2).
    exists (a1 ++ a2). rewrite app_assoc. split; [reflexivity|].
    apply Forall_app. auto.
Qed.

(** X25. Every path that [getAllFiles] returns has a listed extension,
    and no ignore pattern occurs anywhere in it: a pattern is matched as
    a substring of the whole path, not as the name of an entry. *)
Theorem getAllFiles_results (dir : jsstring)
        (entries : option (list Dirent)) (files : list jsstring) :
  getAllFiles dir entries = Return files ->
  forall f, In f files ->
    (forall p pre post, In p ignorePatterns -> f <> pre ++ p ++ post)
    /\ exists cur n, f = path_join cur n /\ In (extname n) extensions.
Proof.
  unfold Walk.getAllFiles, traverse.
  destruct entries as [entries|]; [|discriminate].
  intros Hrun f Hin.
  destruct (for_entries_found _ _ _ Hrun) as (added & -> & Hall).
  rewrite Forall_forall in Hall. destruct (Hall f Hin) as [Hi Hext].
  split; [|exact Hext].
  intros p pre post Hp ->.
  assert (Hinc : ignored ignorePatterns (pre ++ p ++ post) = true).
  { apply existsb_exists. exists p. split; [exact Hp|].
    apply includes_iff. eauto. }
  congruence.
Qed.

Lemma for_entries_all_ignored cur entries files :
  (forall n, ignored ignorePatterns (path_join cur n) = true) ->
  for_entries cur entries files = Return files.
Proof.
  intros Hall. induction entries as [|e rest IH]; [reflexivity|].
  cbn [Walk.for_entries].
  assert (E : visit cur e files = Return files).
  { destruct e as [n|n es|n]; cbn [Walk.visit name]; now rewrite Hall. }
  now rewrite E.
Qed.

(** X26. The walk finds nothing in a readable directory, whatever is in
    it, when the empty string is among the ignore patterns, and, when
    [path.join] extends its first argument, when an ignore pattern occurs
    in the path of the directory itself. *)
Theorem getAllFiles_ignores_all (dir : jsstring) (entries : list Dirent) :
  (In [] ignorePatterns -> getAllFiles dir (Some entries) = Return [])
  /\ ((forall cur n, exists rest, path_join cur n = cur ++ rest) ->
      forall p, In p ignorePatterns -> includes dir p = true ->
                getAllFiles dir (Some entries) = Return []).
Proof.
  split.
  - intros Hin. apply for_entries_all_ignored. intros n.
    apply existsb_exists. exists []. split; [exact Hin|].
    apply includes_empty.
  - intros Hjoin p Hp Hdir. apply for_entries_all_ignored. intros n.
    apply existsb_exists. exists p. split; [exact Hp|].
    destruct (Hjoin dir n) as [rest ->]. now apply includes_app.
Qed.

End WalkFacts.

(** Sample data for the walk: [path.join] and [path.extname] on the path
    of a directory without a trailing separator and the name of an
    entry. *)
Definition join_name (cur n : jsstring) : jsstring := cur ++ lit "/" ++ n.

Fixpoint from_last_dot (s : jsstring) : option jsstring :=
  match s with
  | [] => None
  | c :: rest =>
      match from_last_dot rest with
      | Some t => Some t
      | None => if N.eqb c 46 then Some s else None
      end
  end.

Definition extname_of_name (n : jsstring) : jsstring :=
  match n with
  | [] => []
  | _ :: rest =>
      match from_last_dot rest with
      | Some t => t
      | None => []
      end
  end.

(** A directory ["docs"] with four files, a build directory, a symbolic
    link and a directory that cannot be read. *)
Definition docs : list Walk.Dirent :=
  [Walk.File (lit "a.md");
   Walk.Directory (lit "build") (Some [Walk.File (lit "b.md")]);
   Walk.File (lit "rebuild.md");
   Walk.Other (lit "link.md");
   Walk.Directory (lit "node_modules") None;
   Walk.File (lit "c.png")].

Lemma getAllFiles_results_witness :
  Walk.getAllFiles join_name extname_of_name [lit ".md"]
                   [lit "build"; lit "node_modules"]
                   (lit "docs") (Some docs)
  = Return [lit "docs/a.md"]
  /\ forall pre post, lit "docs/a.md" <> pre ++ lit "build" ++ post.
Proof.
  assert (E : Walk.getAllFiles join_name extname_of_name [lit ".md"]
                               [lit "build"; lit "node_modules"]
                               (lit "docs") (Some docs)
              = Return [lit "docs/a.md"]) by (vm_compute; reflexivity).
  split; [exact E|]. intros pre post.
  intros Heq.
  destruct (@getAllFiles_results join_name extname_of_name [lit ".md"]
              [lit "build"; lit "node_modules"] (lit "docs") (Some docs)
              _ E (lit "docs/a.md") (or_introl eq_refl)) as [Hfree _].
  apply (Hfree (lit "build") pre post); [left; reflexivity | exact Heq].
Defined.

Lemma getAllFiles_ignores_all_witness :
  Walk.getAllFiles join_name extname_of_name [lit ".md"] [lit "build"]
                   (lit "/home/me/builds/site/docs") (Some docs)
  = Return [].
Proof.
  destruct (@getAllFiles_ignores_all join_name extname_of_name [lit ".md"]
              [lit "build"] (lit "/home/me/builds/site/docs") docs)
    as [_ Hdir].
  apply (Hdir (fun cur n => ex_intro _ (lit "/" ++ n) eq_refl)
              (lit "build")).
  - left. reflexivity.
  - vm_compute. reflexivity.
Defined.

Section WalkErrors.
Import Walk.
Variable path_join : jsstring -> jsstring -> jsstring.
Variable extname : jsstring -> jsstring.
Variable extensions ignorePatterns : list jsstring.

Local Abbreviation visit :=
  (Walk.visit path_join extname extensions ignorePatterns).
Local Abbreviation for_entries :=
  (Walk.for_entries path_join extname extensions ignorePatterns).
Local Abbreviation getAllFiles :=
  (Walk.getAllFiles path_join extname extensions ignorePatterns).

(** The walk ends, and what it throws is the error of a read. *)
Definition ends (o : outcome (list jsstring)) : Prop :=
  match o with
  | Return _ => True
  | Throw e => e = FsError
  | Hang => False
  end.

Lemma visit_ends entry : forall cur files, ends (visit cur entry files).
Proof.
  induction entry as [n|n|n|n entries IH] using Dirent_induction;
    intros cur files.
  - cbn [Walk.visit name]. destruct (ignored _ _); [exact I|].
    destruct (existsb _ extensions); exact I.
  - cbn [Walk.visit name]. destruct (ignored _ _); exact I.
  - cbn [Walk.visit name]. destruct (ignored _ _); [exact I | reflexivity].
  - rewrite visit_Directory. destruct (ignored _ _); [exact I|].
    generalize (path_join cur n) as full. intros full. revert files.
    induction IH as [|e rest He _ IHrest]; intros files; [exact I|].
    cbn [Walk.for_entries]. specialize (He full files).
    destruct (visit full e files); auto.
Qed.

Lemma for_entries_ends entries : forall cur files,
  ends (for_entries cur entries files).
Proof.
  induction entries as [|e rest IH]; intros cur files; [exact I|].
  cbn [Walk.for_entries]. pose proof (visit_ends e cur files) as He.
  destruct (visit cur e files); auto.
Qed.

(** X27. The walk always ends, and one directory that cannot be read
    fails it as a whole: when an entry of the directory walked is such a
    directory and its path holds no ignore pattern, [getAllFiles] throws,
    whatever else was found. *)
Theorem getAllFiles_unreadable (dir : jsstring) (entries : list Dirent)
        (n : jsstring) :
  In (Directory n None) entries ->
  ignored ignorePatterns (path_join dir n) = false ->
  getAllFiles dir (Some entries) = Throw FsError
  /\ forall root, getAllFiles dir root <> Hang.
Proof.
  intros Hin Hign. split.
  - unfold Walk.getAllFiles, traverse. generalize (@nil jsstring) as files.
    induction entries as [|e rest IH]; intros files; [destruct Hin|].
    cbn [Walk.for_entries]. destruct Hin as [-> | Hin].
    + cbn [Walk.visit name]. now rewrite Hign.
    + pose proof (visit_ends e dir files) as He.
      destruct (visit dir e files) as [files'|err|]; cbn in He.
      * now apply IH.
      * now subst.
      * destruct He.
  - intros [l|]; unfold Walk.getAllFiles, traverse; [|discriminate].
    pose proof (for_entries_ends l dir []) as He. intros E.
    rewrite E in He. exact He.
Qed.

(** X28. [path.extname] gives the empty string or a string that starts
    with a dot, so the walk finds nothing when no extension in the list
    is of that form, as when the extensions are given without their
    dot. *)
Theorem getAllFiles_extensions_without_dot (dir : jsstring)
        (root : option (list Dirent)) (files : list jsstring) :
  (forall name, extname name = [] \/ exists t, extname name = 46%N :: t) ->
  Forall (fun ext => exists c t, ext = c :: t /\ c <> 46%N) extensions ->
  getAllFiles dir root = Return files ->
  files = [].
Proof.
  intros Hext Hdots. unfold Walk.getAllFiles, traverse.
  destruct root as [entries|]; [|discriminate]. intros Hrun.
  destruct (for_entries_found _ _ _ _ _ _ _ Hrun) as (added & -> & Hall).
  cbn [app]. destruct added as [|f added]; [reflexivity|]. exfalso.
  inversion Hall as [|? ? [_ (cur & name & _ & Hin)] _]; subst.
  rewrite Forall_forall in Hdots.
  destruct (Hdots _ Hin) as (c & t & Heq & Hc).
  destruct (Hext name) as [E | [t' E]]; rewrite E in Heq.
  - discriminate.
  - injection Heq as <- _. now apply Hc.
Qed.

End WalkErrors.

Lemma getAllFiles_unreadable_witness :
  Walk.getAllFiles join_name extname_of_name [lit ".md"] [lit "build"]
                   (lit "docs") (Some docs)
  = Throw FsError.
Proof.
  apply (@getAllFiles_unreadable join_name extname_of_name [lit ".md"]
           [lit "build"] (lit "docs") docs (lit "node_modules")).
  - do 4 right. left. reflexivity.
  - reflexivity.
Defined.

Lemma extname_of_name_dot name :
  extname_of_name name = [] \/ exists t, extname_of_name name = 46%N :: t.
Proof.
  assert (H : forall s t, from_last_dot s = Some t -> exists u, t = 46%N :: u).
  { induction s as [|c s IH]; intros t; cbn [from_last_dot];
      [discriminate|].
    destruct (from_last_dot s) as [t'|].
    - intros [= <-]. now apply IH.
    - destruct (N.eqb_spec c 46); [|discriminate].
      intros [= <-]. subst. eauto. }
  unfold extname_of_name. destruct name as [|c rest]; [now left|].
  destruct (from_last_dot rest) as [t|] eqn:E; [|now left].
  right. eapply H. eassumption.
Qed.

Lemma getAllFiles_extensions_without_dot_witness :
  Walk.getAllFiles join_name extname_of_name [lit "md"]
                   [lit "build"; lit "node_modules"]
                   (lit "docs") (Some docs)
  = Return [].
Proof.
  assert (E : exists files,
             Walk.getAllFiles join_name extname_of_name [lit "md"]
                              [lit "build"; lit "node_modules"]
                              (lit "docs") (Some docs)
             = Return files) by (eexists; vm_compute; reflexivity).
  destruct E as [files E]. rewrite E. f_equal.
  apply (@getAllFiles_extensions_without_dot join_name extname_of_name
           [lit "md"] [lit "build"; lit "node_modules"] (lit "docs")
           (Some docs) files extname_of_name_dot).
  - constructor; [|constructor]. exists 109%N, (lit "d").
    split; [reflexivity | discriminate].
  - exact E.
Defined.

(** ** Command line ([cli.ts]) and configuration ([config.ts]) *)

Module Cli.

(** [s.split(',')]. *)
Fixpoint split_comma (s : jsstring) : list jsstring :=
  match s with
  | [] => [[]]
  | c :: rest =>
      if N.eqb c 44 then [] :: split_comma rest
      else match split_comma rest with
           | item :: items => (c :: item) :: items
           | [] => [[c]]
           end
  end.

(** [value ? value.split(',').map(s => s.trim()) : undefined], for the
    value of [--extensions] and of [--ignore]. *)
Definition list_option (value : option jsstring)
  : option (list jsstring) :=
  match value with
  | Some s =>
      if truthy s then Some (map Chunker.trim (split_comma s)) else None
  | None => None
  end.

(** [const {extensions = DEFAULT_EXTENSIONS, ignorePatterns =
    DEFAULT_IGNORE} = options]. *)
Definition DEFAULT_EXTENSIONS : list jsstring :=
  map lit [".txt"; ".md"; ".mdx"; ".rst"; ".json"; ".js"; ".ts"; ".tsx";
           ".jsx"]%string.

Definition DEFAULT_IGNORE : list jsstring :=
  map lit ["node_modules"; ".git"; "dist"; "build"; ".next";
           "coverage"]%string.

Definition or_default {A} (given : option A) (default : A) : A :=
  match given with
  | Some a => a
  | None => default
  end.

(** The call of [getAllFiles] that [indexDocuments] and
    [reindexDocuments] make on the options of the command line. *)
Definition files_of (path_join : jsstring -> jsstring -> jsstring)
           (extname : jsstring -> jsstring)
           (extensions ignore : option jsstring)
           (dir : jsstring) (root : option (list Walk.Dirent))
  : outcome (list jsstring) :=
  Walk.getAllFiles path_join extname
                   (or_default (list_option extensions) DEFAULT_EXTENSIONS)
                   (or_default (list_option ignore) DEFAULT_IGNORE)
                   dir root.

End Cli.

Section CliFacts.
Import Cli.

Lemma split_comma_cons s : exists item items, split_comma s = item :: items.
Proof.
  destruct s as [|c rest]; cbn [split_comma]; [eauto|].
  destruct (N.eqb c 44); [eauto|].
  destruct (split_comma rest); eauto.
Qed.

Lemma join_cons2 sep (p q : jsstring) rest :
  join sep (p :: q :: rest) = p ++ sep ++ join sep (q :: rest).
Proof. reflexivity. Qed.

Lemma split_comma_join s : join [44%N] (split_comma s) = s.
Proof.
  induction s as [|c rest IH]; [reflexivity|]. cbn [split_comma].
  destruct (split_comma_cons rest) as (item & items & E).
  rewrite E in *. destruct (N.eqb_spec c 44) as [->|Hne].
  - rewrite join_cons2, IH. reflexivity.
  - destruct items as [|i2 items].
    + cbn [join] in *. now rewrite IH.
    + rewrite join_cons2 in *. rewrite <- IH. reflexivity.
Qed.

Lemma split_comma_items s :
  Forall (fun item => ~ In 44%N item) (split_comma s).
Proof.
  induction s as [|c rest IH]; [repeat constructor; auto|].
  cbn [split_comma]. destruct (N.eqb_spec c 44) as [->|Hne].
  - constructor; [intros [] | exact IH].
  - destruct (split_comma rest) as [|item items];
      [repeat constructor; intros [H | []]; congruence|].
    inversion IH as [|? ? Hitem Hitems]; subst.
    constructor; [|exact Hitems]. intros [H | H]; [congruence | auto].
Qed.

Lemma split_comma_length s :
  length (split_comma s) = S (length (filter (N.eqb 44) s)).
Proof.
  induction s as [|c rest IH]; [reflexivity|]. cbn [split_comma filter].
  rewrite (N.eqb_sym 44 c). destruct (N.eqb c 44).
  - cbn [length]. now rewrite IH.
  - destruct (split_comma rest); [discriminate | exact IH].
Qed.

(** X29. The items of a comma-separated option give the option back when
    joined by commas, hold no comma, and are one more than the commas.
    When an item is blank, as after a trailing comma, the list of
    [--ignore] holds the empty pattern and the walk finds nothing in a
    readable directory. *)
Theorem ignore_option_blank_item (path_join : jsstring -> jsstring -> jsstring)
        (extname : jsstring -> jsstring) (extensions : option jsstring)
        (value item dir : jsstring) (entries : list Walk.Dirent) :
  truthy value = true ->
  In item (split_comma value) ->
  blank item = true ->
  join [44%N] (split_comma value) = value
  /\ Forall (fun item => ~ In 44%N item) (split_comma value)
  /\ length (split_comma value) = S (length (filter (N.eqb 44) value))
  /\ files_of path_join extname extensions (Some value) dir (Some entries)
     = Return [].
Proof.
  intros Hvalue Hin Hblank.
  split; [apply split_comma_join|]. split; [apply split_comma_items|].
  split; [apply split_comma_length|].
  unfold files_of, list_option. rewrite Hvalue. cbn [or_default].
  apply for_entries_all_ignored. intros n.
  apply existsb_exists. exists []. split; [|apply includes_empty].
  apply in_map_iff. exists item. split; [|exact Hin].
  now apply trim_nil_iff.
Qed.

End CliFacts.

Lemma ignore_option_blank_item_witness :
  Cli.files_of join_name extname_of_name None (Some (lit "dist, "))
               (lit "docs") (Some docs)
  = Return [].
Proof.
  apply (@ignore_option_blank_item join_name extname_of_name None
           (lit "dist, ") (lit " ") (lit "docs") docs eq_refl).
  - right. left. reflexivity.
  - reflexivity.
Defined.

(** The configuration with its optional fields, as [configure] takes it
    and as [userConfig] holds it: [None] is a key that is absent or
    [undefined]. Counts are not negative. *)
Module UserConfig.

Record Partial := {
  p_apiKey : option jsstring;
  p_embeddingModel : option jsstring;
  p_dbPath : option jsstring;
  p_chunkSize : option nat;
  p_chunkOverlap : option nat;
  p_topK : option nat
}.

(** [Required<RagConfig>]. *)
Record Full := {
  rag : RagConfig;
  dbPath : jsstring
}.

(** [process.env] and [path.join(process.cwd(), '.rag', 'sqlite.db')]. *)
Record Env := {
  OPENAI_API_KEY : option jsstring;
  VERCEL : option jsstring;
  AWS_LAMBDA_FUNCTION_NAME : option jsstring;
  NETLIFY : option jsstring;
  AWS_EXECUTION_ENV : option jsstring;
  local_db : jsstring
}.

(** [let userConfig: RagConfig = {}]. *)
Definition initial : Partial :=
  {| p_apiKey := None; p_embeddingModel := None; p_dbPath := None;
     p_chunkSize := None; p_chunkOverlap := None; p_topK := None |}.

(** A key of [{...a, ...b}]: the value of [b] when [b] has the key. *)
Definition spread {A} (a b : option A) : option A :=
  match b with
  | Some v => Some v
  | None => a
  end.

(** [configure(config)], on [userConfig]. *)
Definition configure (config userConfig : Partial) : Partial :=
  {| p_apiKey := spread (p_apiKey userConfig) (p_apiKey config);
     p_embeddingModel :=
       spread (p_embeddingModel userConfig) (p_embeddingModel config);
     p_dbPath := spread (p_dbPath userConfig) (p_dbPath config);
     p_chunkSize := spread (p_chunkSize userConfig) (p_chunkSize config);
     p_chunkOverlap :=
       spread (p_chunkOverlap userConfig) (p_chunkOverlap config);
     p_topK := spread (p_topK userConfig) (p_topK config) |}.

(** Truthiness of [process.env.X]. *)
Definition set (v : option jsstring) : bool :=
  match v with
  | Some s => truthy s
  | None => false
  end.

Definition isServerlessEnvironment (env : Env) : bool :=
  set (VERCEL env) || set (AWS_LAMBDA_FUNCTION_NAME env)
  || set (NETLIFY env) || set (AWS_EXECUTION_ENV env).

Definition getDefaultDbPath (env : Env) : jsstring :=
  if isServerlessEnvironment env then lit "/tmp/.rag/sqlite.db"
  else local_db env.

Definition or_else {A} (given : option A) (default : A) : A :=
  match given with
  | Some v => v
  | None => default
  end.

Definition getConfig (env : Env) (userConfig : Partial) : outcome Full :=
  let DEFAULT_apiKey :=
    match OPENAI_API_KEY env with
    | Some k => if truthy k then k else []
    | None => []
    end in
  let config :=
    {| rag := {| apiKey := or_else (p_apiKey userConfig) DEFAULT_apiKey;
                 embeddingModel :=
                   or_else (p_embeddingModel userConfig)
                           (lit "text-embedding-3-small");
                 chunkSize := or_else (p_chunkSize userConfig) 1000;
                 chunkOverlap := or_else (p_chunkOverlap userConfig) 200;
                 topK := or_else (p_topK userConfig) 5 |};
       dbPath := or_else (p_dbPath userConfig) (getDefaultDbPath env) |} in
  if negb (truthy (apiKey (rag config))) then Throw ConfigError
  else Return config.

End UserConfig.

Section UserConfigFacts.
Import UserConfig.

Lemma spread_assoc {A} (a b c : option A) :
  spread (spread a b) c = spread a (spread b c).
Proof. now destruct c. Qed.

(** [configure(a)] takes no key of [u] away. *)
Definition keeps_keys (a u : Partial) : Prop :=
  (p_apiKey u <> None -> p_apiKey (configure a u) <> None)
  /\ (p_embeddingModel u <> None ->
      p_embeddingModel (configure a u) <> None)
  /\ (p_dbPath u <> None -> p_dbPath (configure a u) <> None)
  /\ (p_chunkSize u <> None -> p_chunkSize (configure a u) <> None)
  /\ (p_chunkOverlap u <> None -> p_chunkOverlap (configure a u) <> None)
  /\ (p_topK u <> None -> p_topK (configure a u) <> None).

(** The merge [{...DEFAULT_CONFIG, ...userConfig}] under the key [k]. *)
Definition merge (env : Env) (u : Partial) (k : jsstring) : Full :=
  {| rag := {| apiKey := k;
               embeddingModel :=
                 or_else (p_embeddingModel u) (lit "text-embedding-3-small");
               chunkSize := or_else (p_chunkSize u) 1000;
               chunkOverlap := or_else (p_chunkOverlap u) 200;
               topK := or_else (p_topK u) 5 |};
     dbPath := or_else (p_dbPath u) (getDefaultDbPath env) |}.

(** X30. Two calls of [configure] are one call with the second argument
    laid over the first, and a call never takes a key away: a setting
    that was configured cannot be put back to its default. [getConfig]
    then returns exactly when the configured key, or without one the key
    of the environment, is not empty: with a configured key it returns
    the merge under that key when the key is not empty and throws when
    it is empty, whatever the environment holds; without one it returns
    the merge under the key of the environment when that is set and not
    empty, and throws otherwise. What it returns is accepted as the
    merge that the store, the embedder and the pipelines read. *)
Theorem configure_getConfig (env : Env) (a b u : Partial) :
  configure b (configure a u) = configure (configure b a) u
  /\ configure initial u = u
  /\ keeps_keys a u
  /\ (forall k, p_apiKey u = Some k ->
        getConfig env u
        = if truthy k then Return (merge env u k) else Throw ConfigError)
  /\ (forall k, p_apiKey u = None -> OPENAI_API_KEY env = Some k ->
        getConfig env u
        = if truthy k then Return (merge env u k) else Throw ConfigError)
  /\ (p_apiKey u = None -> OPENAI_API_KEY env = None ->
      getConfig env u = Throw ConfigError)
  /\ (forall full, getConfig env u = Return full ->
        Config.getConfig (rag full) = Return (rag full)).
Proof.
  split; [|split; [|split; [|split; [|split; [|split]]]]].
  - unfold configure. cbn. now rewrite !spread_assoc.
  - now destruct u.
  - unfold keeps_keys, configure. cbn.
    destruct (p_apiKey a), (p_embeddingModel a), (p_dbPath a),
      (p_chunkSize a), (p_chunkOverlap a), (p_topK a); cbn;
      repeat split; auto; discriminate.
  - intros k Hk. unfold getConfig, merge. rewrite Hk. cbn.
    now destruct (truthy k).
  - intros k Hk Henv. unfold getConfig, merge. rewrite Hk, Henv. cbn.
    destruct (truthy k) eqn:E; cbn; [now rewrite E | reflexivity].
  - intros Hk Henv. unfold getConfig. rewrite Hk, Henv. reflexivity.
  - intros full. unfold getConfig, Config.getConfig. cbn [rag apiKey].
    destruct (truthy (or_else (p_apiKey u) _)) eqn:E; cbn [negb];
      [|discriminate].
    intros [= <-]. cbn [rag apiKey]. now rewrite E.
Qed.

End UserConfigFacts.

(** An environment that holds a key, outside a serverless platform. *)
Definition keyed_env : UserConfig.Env :=
  {| UserConfig.OPENAI_API_KEY := Some (lit "sk-env");
     UserConfig.VERCEL := None;
     UserConfig.AWS_LAMBDA_FUNCTION_NAME := None;
     UserConfig.NETLIFY := None;
     UserConfig.AWS_EXECUTION_ENV := None;
     UserConfig.local_db := lit "/w/.rag/sqlite.db" |}.

(** [configure({apiKey: ''})]. *)
Definition empty_key : UserConfig.Partial :=
  {| UserConfig.p_apiKey := Some [];
     UserConfig.p_embeddingModel := None;
     UserConfig.p_dbPath := None;
     UserConfig.p_chunkSize := None;
     UserConfig.p_chunkOverlap := None;
     UserConfig.p_topK := None |}.

Lemma configure_getConfig_witness :
  UserConfig.getConfig keyed_env UserConfig.initial
  = Return {| UserConfig.rag :=
                {| apiKey := lit "sk-env";
                   embeddingModel := lit "text-embedding-3-small";
                   chunkSize := 1000; chunkOverlap := 200; topK := 5 |};
              UserConfig.dbPath := lit "/w/.rag/sqlite.db" |}
  /\ UserConfig.getConfig
       keyed_env (UserConfig.configure empty_key UserConfig.initial)
     = Throw ConfigError.
Proof.
  split.
  - destruct (configure_getConfig keyed_env UserConfig.initial
                                  UserConfig.initial UserConfig.initial)
      as (_ & _ & _ & _ & Henv & _).
    exact (Henv (lit "sk-env") eq_refl eq_refl).
  - destruct (configure_getConfig
                keyed_env UserConfig.initial UserConfig.initial
                (UserConfig.configure empty_key UserConfig.initial))
      as (_ & _ & _ & Hkey & _).
    exact (Hkey [] eq_refl).
Defined.
